(** * X3D exporter (io_scene_x3d/export_x3d.py): embedding and properties

    The exporter walks a scene and writes one markup element after the
    other through [fw].  The embedding keeps that shape:

    - a datablock (mesh, material, image) is a handle; its immutable fields
      are read through the scene, its mutable [tag] lives in a store of
      tagged handles that every writer threads;
    - a writer is a computation in [M]: it reads and updates the store,
      appends markup elements to the output and may raise; what was written
      before an exception stays written;
    - Python floats are idealised as exact rationals ([Qc]); rounding and
      the [%g] text formatting are not modelled, an element carries the
      values handed to the format operator;
    - indentation ([ident]) is left out of the mesh writers, which only
      pass it on; the scene writers return it as the source does;
    - the scene around the meshes (header, environment, lights, viewpoints
      and the loop of [export_main]) is a second layer, [W], which adds the
      counter of [secureName] to the state; [math.cos], the object matrices
      and the derived objects of an object are data of the scene;
    - only the baseline profile ([use_h3d = False]) is embedded. *)

From Stdlib Require Import Ascii QArith Qcanon DecimalString.
From stdpp Require Import base option list gmap strings numbers sorting.

Local Open Scope string_scope.
Local Open Scope list_scope.

(** ** Identifiers *)

Definition x3d_names_reserved : list string :=
  ["Anchor"; "Appearance"; "Arc2D"; "ArcClose2D"; "AudioClip"; "Background"; "Billboard";
   "BooleanFilter"; "BooleanSequencer"; "BooleanToggle"; "BooleanTrigger"; "Box"; "Circle2D";
   "Collision"; "Color"; "ColorInterpolator"; "ColorRGBA"; "component"; "Cone"; "connect";
   "Contour2D"; "ContourPolyline2D"; "Coordinate"; "CoordinateDouble"; "CoordinateInterpolator";
   "CoordinateInterpolator2D"; "Cylinder"; "CylinderSensor"; "DirectionalLight"; "Disk2D";
   "ElevationGrid"; "EspduTransform"; "EXPORT"; "ExternProtoDeclare"; "Extrusion"; "field";
   "fieldValue"; "FillProperties"; "Fog"; "FontStyle"; "GeoCoordinate"; "GeoElevationGrid";
   "GeoLocationLocation"; "GeoLOD"; "GeoMetadata"; "GeoOrigin"; "GeoPositionInterpolator";
   "GeoTouchSensor"; "GeoViewpoint"; "Group"; "HAnimDisplacer"; "HAnimHumanoid"; "HAnimJoint";
   "HAnimSegment"; "HAnimSite"; "head"; "ImageTexture"; "IMPORT"; "IndexedFaceSet";
   "IndexedLineSet"; "IndexedTriangleFanSet"; "IndexedTriangleSet"; "IndexedTriangleStripSet";
   "Inline"; "IntegerSequencer"; "IntegerTrigger"; "IS"; "KeySensor"; "LineProperties"; "LineSet";
   "LoadSensor"; "LOD"; "Material"; "meta"; "MetadataDouble"; "MetadataFloat"; "MetadataInteger";
   "MetadataSet"; "MetadataString"; "MovieTexture"; "MultiTexture"; "MultiTextureCoordinate";
   "MultiTextureTransform"; "NavigationInfo"; "Normal"; "NormalInterpolator"; "NurbsCurve";
   "NurbsCurve2D"; "NurbsOrientationInterpolator"; "NurbsPatchSurface";
   "NurbsPositionInterpolator"; "NurbsSet"; "NurbsSurfaceInterpolator"; "NurbsSweptSurface";
   "NurbsSwungSurface"; "NurbsTextureCoordinate"; "NurbsTrimmedSurface"; "OrientationInterpolator";
   "PixelTexture"; "PlaneSensor"; "PointLight"; "PointSet"; "Polyline2D"; "Polypoint2D";
   "PositionInterpolator"; "PositionInterpolator2D"; "ProtoBody"; "ProtoDeclare"; "ProtoInstance";
   "ProtoInterface"; "ProximitySensor"; "ReceiverPdu"; "Rectangle2D"; "ROUTE"; "ScalarInterpolator";
   "Scene"; "Script"; "Shape"; "SignalPdu"; "Sound"; "Sphere"; "SphereSensor"; "SpotLight"; "StaticGroup";
   "StringSensor"; "Switch"; "Text"; "TextureBackground"; "TextureCoordinate"; "TextureCoordinateGenerator";
   "TextureTransform"; "TimeSensor"; "TimeTrigger"; "TouchSensor"; "Transform"; "TransmitterPdu";
   "TriangleFanSet"; "TriangleSet"; "TriangleSet2D"; "TriangleStripSet"; "Viewpoint"; "VisibilitySensor";
   "WorldInfo"; "X3D"; "XvlShell"; "VertexShader"; "FragmentShader"; "MultiShaderAppearance";
   "ShaderAppearance"].

(** [name in x3d_names_reserved] *)
Definition is_reserved (name : string) : bool :=
  bool_decide (name ∈ x3d_names_reserved).

(** [c.isdigit()] on the characters a [string] holds (ASCII). *)
Definition isdigit (c : ascii) : bool :=
  let n := N_of_ascii c in
  bool_decide (48 ≤ n)%N && bool_decide (n ≤ 57)%N.

(** [str.replace(old, new)] for a non-empty [old]: matches are taken from
    left to right and do not overlap.  [skip] counts the characters of the
    current match still to be dropped. *)
Fixpoint replace_go (old new : string) (skip : nat) (s : string) : string :=
  match s with
  | EmptyString => EmptyString
  | String c s' =>
      match skip with
      | S k => replace_go old new k s'
      | O =>
          if String.prefix old s
          then new +:+ replace_go old new (String.length old - 1) s'
          else String c (replace_go old new 0 s')
      end
  end.

Definition replace (old new s : string) : string := replace_go old new 0 s.

(** [str(n)] for a non-negative integer. *)
Definition str (n : nat) : string := NilZero.string_of_uint (Nat.to_uint n).

(** The double-quote character as a one-character string. *)
Definition dquote : string := String "034"%char EmptyString.

Definition clean_str_bad : list string :=
  [" "; dquote; "#"; "'"; ", "; "."; "["; "\"; "]"; "{"; "}"].

(** [clean_str(name, prefix)]; [None] is the [IndexError] of [newName[0]]. *)
Definition clean_str (name prefix : string) : option string :=
  let newName := if is_reserved name then prefix +:+ name else name in
  match newName with
  | EmptyString => None
  | String c _ =>
      let newName := if isdigit c then "_" +:+ newName else newName in
      Some (foldl (λ acc bad, replace bad "_" acc) newName clean_str_bad)
  end.

Definition secureName_bad : list string :=
  [dquote; "#"; "'"; ", "; "."; "["; "\"; "]"; "{"; "}"].

(** [name[0:3]] *)
Definition slice3 (s : string) : string := String.substring 0 3 s.

(** [secureName(name)] with the function attribute [secureName.nodeID] passed
    in and handed back.  [None] is the [IndexError] of [name[0]]. *)
Definition secureName (name : string) (nodeID : nat) : option string * nat :=
  let name := name +:+ str nodeID in
  let nodeID := S nodeID in
  if bool_decide (String.length name ≤ 3)%nat then
    (Some ("_" +:+ str nodeID), nodeID)
  else
    let name := foldl (λ acc bad, replace bad "_" acc) name secureName_bad in
    if is_reserved name then
      (Some (slice3 name +:+ "_" +:+ str nodeID), nodeID)
    else
      match name with
      | EmptyString => (None, nodeID)
      | String c _ =>
          if isdigit c then (Some ("_" +:+ name +:+ str nodeID), nodeID)
          else (Some name, nodeID)
      end.


(** ** Numbers and colours *)

Local Open Scope Qc_scope.

Abbreviation float := Qc (only parsing).

Definition Qc_of_Z (z : Z) : Qc := Q2Qc (inject_Z z).

(** The float literals of the source. *)
Definition f0_001 : Qc := Q2Qc (1 # 1000).
Definition f1_25 : Qc := Q2Qc (5 # 4).
Definition f2 : Qc := Q2Qc 2.
Definition f3 : Qc := Q2Qc 3.
Definition f512 : Qc := Q2Qc 512.

(** [min(a, b)] and [max(a, b)] of Python: the first argument is kept unless
    the second is strictly smaller (larger). *)
Definition py_min (a b : Qc) : Qc := if decide (b < a) then b else a.
Definition py_max (a b : Qc) : Qc := if decide (a < b) then b else a.

(** [a / b]; [None] is [ZeroDivisionError]. *)
Definition py_div (a b : Qc) : option Qc :=
  if decide (b = 0) then None else Some (a / b).

(** A colour, a position or a normal: three floats. *)
Abbreviation vec3 := (Qc * Qc * Qc)%type (only parsing).
Abbreviation vec2 := (Qc * Qc)%type (only parsing).

Definition map3 {A B} (f : A → B) (c : A * A * A) : B * B * B :=
  let '(r, g, b) := c in (f r, f g, f b).

Definition clamp_channel (c : Qc) : Qc := py_max (py_min c 1) 0.

(** [clamp_color(col)] *)
Definition clamp_color (col : vec3) : vec3 := map3 clamp_channel col.

(** ** Scene data *)

Abbreviation mesh_id := nat (only parsing).
Abbreviation mat_id := nat (only parsing).
Abbreviation img_id := nat (only parsing).

(** An image datablock.  The three path fields hold what [bpy.path] and
    [os.path] return for [image.filepath]: the path relative to the output
    directory when the file lies below it, the base name, the absolute
    path. *)
Record image := {
  img_name : string;
  use_tiles : bool;
  tiles_x : Z;
  tiles_y : Z;
  img_relpath : option string;
  img_basename : string;
  img_abspath : string
}.

Record texture := {
  tex_type : string;
  tex_image : option img_id;
  repeat_x : Z;
  repeat_y : Z;
  use_flip_axis : bool
}.

(** A material texture slot ([mtex]); [offset] and [scale] hold the first
    two components, the only ones read. *)
Record texture_slot := {
  mtex_texture : option texture;
  offset : vec2;
  scale : vec2
}.

Record material := {
  mat_name : string;
  emit : Qc;
  ambient : Qc;
  diffuse_color : vec3;
  specular_color : vec3;
  specular_intensity : Qc;
  specular_hardness : Z;
  alpha : Qc;
  use_shadeless : bool;
  use_face_texture : bool;
  use_vertex_color_paint : bool;
  texture_slots : list (option texture_slot)
}.

Record world := { ambient_color : vec3 }.

Record vertex := { co : vec3; normal : vec3 }.

Record face := {
  vertices : list nat;
  material_index : nat;
  use_smooth : bool
}.

(** A face of the active UV layer. *)
Record uv_face := {
  uv : list vec2;
  uvf_image : option img_id;
  use_image : bool;
  use_halo : bool;
  use_billboard : bool;
  use_collision : bool
}.

(** A face of the active vertex colour layer. *)
Record col_face := { color1 : vec3; color2 : vec3; color3 : vec3; color4 : vec3 }.

Record mesh := {
  mesh_name : string;
  faces : list face;
  mesh_vertices : list vertex;
  uv_textures_active : option (list uv_face);
  vertex_colors_active : option (list col_face);
  materials : list (option mat_id);
  show_double_sided : bool;
  auto_smooth_angle : Qc
}.

(** [mtx.decompose()] of the object's world matrix. *)
Record decomposed := {
  dec_loc : vec3;
  dec_quat_axis : vec3;
  dec_quat_angle : Qc;
  dec_sca : vec3
}.

Record object := { ob_name : string }.

(** The datablocks of [bpy.data], by handle. *)
Record scene := {
  mesh_data : mesh_id → mesh;
  material_data : mat_id → material;
  image_data : img_id → image
}.

(** A datablock that carries a [tag]. *)
Inductive asset :=
  | AMesh (m : mesh_id)
  | AMaterial (m : mat_id)
  | AImage (i : img_id).

Global Instance asset_eq_dec : EqDecision asset.
Proof. solve_decision. Defined.

Definition asset_to_sum (a : asset) : nat + (nat + nat) :=
  match a with
  | AMesh m => inl m
  | AMaterial m => inr (inl m)
  | AImage i => inr (inr i)
  end.

Definition asset_of_sum (x : nat + (nat + nat)) : asset :=
  match x with
  | inl m => AMesh m
  | inr (inl m) => AMaterial m
  | inr (inr i) => AImage i
  end.

Global Instance asset_countable : Countable asset.
Proof.
  apply (inj_countable' asset_to_sum asset_of_sum).
  by intros [].
Defined.

(** ** Material translation *)

(** The values [writeMaterial] hands to the format operator. *)
Record material_fields := {
  mf_diffuse : vec3;
  mf_specular : vec3;
  mf_emissive : vec3;
  mf_ambient : Qc;
  mf_shininess : Qc;
  mf_transparency : Qc
}.

Definition option_map3 (c : option Qc * option Qc * option Qc) : option vec3 :=
  let '(r, g, b) := c in
  r ← r; g ← g; b ← b; Some (r, g, b).

(** [ambiColor]: the world's ambient colour scaled by the material's
    ambient factor, or black without a world. *)
Definition ambiColor (mat : material) (w : option world) : vec3 :=
  match w with
  | Some w => map3 (λ c, (c * ambient mat) * f2) (ambient_color w)
  | None => (0, 0, 0)
  end.

Definition emitColor (mat : material) (w : option world) : vec3 :=
  let '(dr, dg, db) := diffuse_color mat in
  let '(ar, ag, ab) := ambiColor mat w in
  (((dr * emit mat) + ar) / f2, ((dg * emit mat) + ag) / f2, ((db * emit mat) + ab) / f2).

Definition specColor (mat : material) : option vec3 :=
  option_map3
    (map3 (λ c, d ← py_div f1_25 (specular_intensity mat + f0_001); py_div (c + f0_001) d)
          (specular_color mat)).

(** The body of the [else] branch of [writeMaterial] up to the first [fw]:
    the lighting-model fields, with the shadeless override, colours clamped
    as they are in the [fw] calls. *)
Definition material_values (mat : material) (w : option world) : option material_fields :=
  let ambient_v := ambient mat / f3 in
  let diffuseColor := diffuse_color mat in
  let emitColor_v := emitColor mat w in
  let shininess := Qc_of_Z (specular_hardness mat) / f512 in
  specColor_v ← specColor mat;
  let transp := 1 - alpha mat in
  let '(ambient_v, shininess, specColor_v, emitColor_v) :=
    if use_shadeless mat then (1, 0, diffuseColor, diffuseColor)
    else (ambient_v, shininess, specColor_v, emitColor_v) in
  Some {| mf_diffuse := clamp_color diffuseColor;
          mf_specular := clamp_color specColor_v;
          mf_emissive := clamp_color emitColor_v;
          mf_ambient := ambient_v;
          mf_shininess := shininess;
          mf_transparency := transp |}.

(** The claim's reading of the emissive colour, for comparison with
    [emitColor]: the world term of a channel is the world's ambient colour
    weighted by the diffuse channel, or 0 without a world. *)
Definition worldAmbientTerm_as_claimed (mat : material) (w : option world) : vec3 :=
  match w with
  | Some w =>
      let '(dr, dg, db) := diffuse_color mat in
      let '(wr, wg, wb) := ambient_color w in
      (dr * wr, dg * wg, db * wb)
  | None => (0, 0, 0)
  end.

Definition emissive_as_claimed (mat : material) (w : option world) : vec3 :=
  let '(dr, dg, db) := diffuse_color mat in
  let '(tr, tg, tb) := worldAmbientTerm_as_claimed mat w in
  (((dr * emit mat) + tr) / f2, ((dg * emit mat) + tg) / f2, ((db * emit mat) + tb) / f2).

(** ** Python containers *)

(** A [dict] as an association list in insertion order: assigning to a key
    that is present keeps its position. *)
Section dict.
Context {K V : Type} `{EqDecision K}.

Fixpoint dict_get (k : K) (d : list (K * V)) : option V :=
  match d with
  | [] => None
  | (k', v) :: d' => if decide (k = k') then Some v else dict_get k d'
  end.

Fixpoint dict_set (k : K) (v : V) (d : list (K * V)) : list (K * V) :=
  match d with
  | [] => [(k, v)]
  | (k', v') :: d' =>
      if decide (k = k') then (k', v) :: d' else (k', v') :: dict_set k v d'
  end.
End dict.

(** [enumerate(l)] *)
Definition enumerate {A} (l : list A) : list (nat * A) := zip (seq 0 (length l)) l.

(** The order in which a [set] of images (or [None]) built from a list is
    iterated.  Python leaves that order to the hashes of the elements, so
    the embedding takes it as given: some enumeration of the distinct
    elements. *)
Class SetIter := {
  set_order : list (option img_id) → list (option img_id);
  set_order_NoDup : ∀ l, NoDup (set_order l);
  set_order_elem : ∀ l x, x ∈ set_order l ↔ x ∈ l
}.

(** Two iteration orders: by first occurrence, and its reverse. *)
Program Definition SetIter_first : SetIter :=
  {| set_order := remove_dups |}.
Next Obligation. intros. apply NoDup_remove_dups. Qed.
Next Obligation. intros. apply elem_of_remove_dups. Qed.

Program Definition SetIter_last : SetIter :=
  {| set_order := λ l, reverse (remove_dups l) |}.
Next Obligation. intros. rewrite reverse_Permutation. apply NoDup_remove_dups. Qed.
Next Obligation. intros. rewrite elem_of_reverse. apply elem_of_remove_dups. Qed.

(** ** Face grouping *)

(** A bucket key [(material_index, image)] and the dictionary of buckets. *)
Abbreviation group_key := (nat * option img_id)%type (only parsing).
Abbreviation face_group_dict := (list (nat * option img_id * list nat)) (only parsing).

Section grouping.
Context (sc : scene).

(** [mesh_materials]: the material slots, or one empty slot. *)
Definition mesh_materials (me : mesh) : list (option mat_id) :=
  match materials me with
  | [] => [None]
  | ms => ms
  end.

(** The first texture slot of a material that holds an image texture with
    an image. *)
Fixpoint find_image_slot (slots : list (option texture_slot))
    : option (texture * texture_slot * img_id) :=
  match slots with
  | [] => None
  | None :: slots' => find_image_slot slots'
  | Some mtex :: slots' =>
      match mtex_texture mtex with
      | Some tex =>
          if String.eqb (tex_type tex) "IMAGE" then
            match tex_image tex with
            | Some image => Some (tex, mtex, image)
            | None => find_image_slot slots'
            end
          else find_image_slot slots'
      | None => find_image_slot slots'
      end
  end.

Definition material_image_slot (m : option mat_id)
    : option (texture * texture_slot * img_id) :=
  match m with
  | Some mid => find_image_slot (texture_slots (material_data sc mid))
  | None => None
  end.

Definition mesh_material_tex (me : mesh) : list (option texture) :=
  (λ m, (λ x, x.1.1) <$> material_image_slot m) <$> mesh_materials me.
Definition mesh_material_mtex (me : mesh) : list (option texture_slot) :=
  (λ m, (λ x, x.1.2) <$> material_image_slot m) <$> mesh_materials me.
Definition mesh_material_images (me : mesh) : list (option img_id) :=
  (λ m, (λ x, x.2) <$> material_image_slot m) <$> mesh_materials me.

(** [getattr(material, 'use_face_texture', True)] per slot. *)
Definition mesh_materials_use_face_texture (me : mesh) : list bool :=
  (λ m, match m with
        | Some mid => use_face_texture (material_data sc mid)
        | None => true
        end) <$> mesh_materials me.

Definition mesh_faces_materials (me : mesh) : list nat :=
  material_index <$> faces me.
Definition mesh_faces_vertices (me : mesh) : list (list nat) :=
  vertices <$> faces me.

(** [mesh_faces_image] and [mesh_faces_image_unique] (as iterated);
    [None] is an [IndexError].  The first branch of the source is taken
    when the mesh has an active UV layer and some slot uses face
    textures. *)
Definition mesh_faces_image `{SetIter} (me : mesh)
    : option (list (option img_id) * list (option img_id)) :=
  let uft := mesh_materials_use_face_texture me in
  let images := mesh_material_images me in
  let fmats := mesh_faces_materials me in
  let is_uv_data :=
    if bool_decide (true ∈ uft) then uv_textures_active me else None in
  match is_uv_data with
  | Some uv_data =>
      l ← mapM (λ '(i, fuv),
             mi ← fmats !! i;
             u ← uft !! mi;
             if u && use_image fuv then Some (uvf_image fuv)
             else images !! mi) (enumerate uv_data);
      Some (l, set_order l)
  | None =>
      if bool_decide (1 < length (remove_dups (images ++ [None])))%nat then
        l ← mapM (λ mi, images !! mi) fmats;
        Some (l, set_order l)
      else Some (replicate (length (faces me)) None, [None])
  end.

(** The two nested loops that create one empty bucket per material slot
    and image. *)
Definition face_groups_init (n_materials : nat) (unique : list (option img_id))
    : face_group_dict :=
  foldl (λ d material_index,
           foldl (λ d image, dict_set (material_index, image) [] d) d unique)
        [] (seq 0 n_materials).

(** [face_groups[material_index, image].append(i)]; [None] is [KeyError]. *)
Definition face_groups_append (d : face_group_dict) (k : group_key) (i : nat)
    : option face_group_dict :=
  l ← dict_get k d; Some (dict_set k (l ++ [i]) d).

Fixpoint face_groups_fill (d : face_group_dict) (l : list (nat * group_key))
    : option face_group_dict :=
  match l with
  | [] => Some d
  | (i, k) :: l' => d' ← face_groups_append d k i; face_groups_fill d' l'
  end.

(** [face_groups] after both loops. *)
Definition face_groups `{SetIter} (me : mesh) : option face_group_dict :=
  '(faces_image, unique) ← mesh_faces_image me;
  face_groups_fill (face_groups_init (length (mesh_materials me)) unique)
                   (enumerate (zip (mesh_faces_materials me) faces_image)).

(** The sort key [(m[0][0], getattr(m[0][1], 'name', ''))]. *)
Definition sort_key (k : group_key) : nat * string :=
  (k.1, match k.2 with
        | Some image => img_name (image_data sc image)
        | None => ""
        end).

(** Python's [<=] on such keys: tuples compare lexicographically. *)
Definition sort_key_le (a b : nat * string) : bool :=
  (a.1 <? b.1)%nat || ((a.1 =? b.1)%nat && String.leb a.2 b.2).

(** [list.sort(key=...)] is a stable sort; stable insertion computes the
    same list. *)
Fixpoint sort_insert (x : group_key * list nat) (l : face_group_dict) : face_group_dict :=
  match l with
  | [] => [x]
  | y :: l' =>
      if sort_key_le (sort_key x.1) (sort_key y.1) then x :: y :: l'
      else y :: sort_insert x l'
  end.

Definition sort_groups (l : face_group_dict) : face_group_dict :=
  foldr sort_insert [] l.

(** [face_groups_items] after the sort. *)
Definition face_groups_items `{SetIter} (me : mesh) : option face_group_dict :=
  sort_groups <$> face_groups me.

(** The groups the emission loop writes a Shape for: [if face_group:]. *)
Definition emitted_groups `{SetIter} (me : mesh) : option face_group_dict :=
  filter (λ g, g.2 ≠ []) <$> face_groups_items me.
End grouping.

(** ** Vertex welding (IndexedTriangleSet) *)

(** A vertex key: a tuple of attribute tuples, or Python's [None]. *)
Abbreviation vkey := (option (list (list Qc))) (only parsing).

(** [x3d_v = key, v_idx, totvert] *)
Abbreviation x3d_vertex := (option (list (list Qc)) * nat * nat)%type (only parsing).

Definition vec2_tuple (p : vec2) : list Qc := [p.1; p.2].
Definition vec3_tuple (c : vec3) : list Qc := let '(r, g, b) := c in [r; g; b].

(** [getattr(col_face, "color%d" % (f_cnr_idx + 1))]; [None] is
    [AttributeError]. *)
Definition col_face_color (cf : col_face) (f_cnr_idx : nat) : option vec3 :=
  match f_cnr_idx with
  | 0 => Some (color1 cf)
  | 1 => Some (color2 cf)
  | 2 => Some (color3 cf)
  | 3 => Some (color4 cf)
  | _ => None
  end%nat.

(** The four [vertex_key] closures, selected by which of [mesh_faces_uv] and
    [mesh_faces_col] are present. *)
Definition vertex_key (mesh_faces_uv : option (list uv_face))
    (mesh_faces_col : option (list col_face)) (fidx f_cnr_idx : nat) : option vkey :=
  match mesh_faces_uv, mesh_faces_col with
  | Some uvs, Some cols =>
      fuv ← uvs !! fidx; u ← uv fuv !! f_cnr_idx;
      fc ← cols !! fidx; c ← col_face_color fc f_cnr_idx;
      Some (Some [vec2_tuple u; vec3_tuple c])
  | Some uvs, None =>
      fuv ← uvs !! fidx; u ← uv fuv !! f_cnr_idx;
      Some (Some [vec2_tuple u])
  | None, Some cols =>
      fc ← cols !! fidx; c ← col_face_color fc f_cnr_idx;
      Some (Some [vec3_tuple c])
  | None, None => Some None
  end.

(** [l[i] = x]; [None] is [IndexError]. *)
Definition list_set {A} (i : nat) (x : A) (l : list A) : option (list A) :=
  if decide (i < length l)%nat then Some (<[i:=x]> l) else None.

Fixpoint fold_opt {A S} (f : S → A → option S) (s : S) (l : list A) : option S :=
  match l with
  | [] => Some s
  | x :: l' => s' ← f s x; fold_opt f s' l'
  end.

(** The variables of the welding loop. *)
Record weld_state := {
  vertex_hash : list (gmap (option (list (list Qc))) x3d_vertex);
  face_tri_list : list (list (option x3d_vertex));
  vert_tri_list : list x3d_vertex;
  totvert : nat;
  totface : nat;
  temp_face : list (option x3d_vertex)
}.

Definition weld_init (n_vertices n_faces : nat) : weld_state :=
  {| vertex_hash := replicate n_vertices ∅;
     face_tri_list := replicate (n_faces * 2) [None; None; None];
     vert_tri_list := [];
     totvert := 0;
     totface := 0;
     temp_face := replicate 4 None |}.

Section welding.
Context (key_fn : nat → nat → option vkey).

(** The body of [for j, v_idx in enumerate(fv)] for face [i]. *)
Definition weld_corner (i : nat) (w : weld_state) (c : nat * nat) : option weld_state :=
  let '(j, v_idx) := c in
  key ← key_fn i j;
  vh ← vertex_hash w !! v_idx;
  let '(x3d_v, w) :=
    match vh !! key with
    | Some x3d_v => (x3d_v, w)
    | None =>
        let x3d_v := (key, v_idx, totvert w) in
        (x3d_v,
         {| vertex_hash := <[v_idx := <[key := x3d_v]> vh]> (vertex_hash w);
            face_tri_list := face_tri_list w;
            vert_tri_list := vert_tri_list w ++ [x3d_v];
            totvert := totvert w + 1;
            totface := totface w;
            temp_face := temp_face w |})
    end in
  tf ← list_set j (Some x3d_v) (temp_face w);
  Some {| vertex_hash := vertex_hash w;
          face_tri_list := face_tri_list w;
          vert_tri_list := vert_tri_list w;
          totvert := totvert w;
          totface := totface w;
          temp_face := tf |}.

(** The body of [for f_it in f_iter]. *)
Definition weld_tri (w : weld_state) (f_it : list nat) : option weld_state :=
  f_tri ← face_tri_list w !! totface w;
  f_tri ← fold_opt (λ f_tri '(ji, j), x ← temp_face w !! j; list_set ji x f_tri)
                   f_tri (enumerate f_it);
  Some {| vertex_hash := vertex_hash w;
          face_tri_list := <[totface w := f_tri]> (face_tri_list w);
          vert_tri_list := vert_tri_list w;
          totvert := totvert w;
          totface := totface w + 1;
          temp_face := temp_face w |}.

Definition f_iter (fv : list nat) : list (list nat) :=
  if decide (length fv = 4%nat) then [[0; 1; 2]; [0; 2; 3]]%nat else [[0; 1; 2]]%nat.

(** The body of [for i in face_group]. *)
Definition weld_face (faces_vertices : list (list nat)) (w : weld_state) (i : nat)
    : option weld_state :=
  fv ← faces_vertices !! i;
  w ← fold_opt (weld_corner i) w (enumerate fv);
  fold_opt weld_tri w (f_iter fv).

(** The whole loop, then [face_tri_list[totface:] = []]. *)
Definition weld (n_vertices : nat) (faces_vertices : list (list nat))
    (face_group : list nat) : option weld_state :=
  w ← fold_opt (weld_face faces_vertices)
               (weld_init n_vertices (length faces_vertices)) face_group;
  Some {| vertex_hash := vertex_hash w;
          face_tri_list := take (totface w) (face_tri_list w);
          vert_tri_list := vert_tri_list w;
          totvert := totvert w;
          totface := totface w;
          temp_face := temp_face w |}.
End welding.

(** [(x3d_f[0][2], x3d_f[1][2], x3d_f[2][2])]; [None] is the [TypeError] of
    subscripting [None] (or an [IndexError]). *)
Definition tri_index (x3d_f : list (option x3d_vertex)) : option (nat * nat * nat) :=
  a ← mjoin (x3d_f !! 0%nat); b ← mjoin (x3d_f !! 1%nat); c ← mjoin (x3d_f !! 2%nat);
  Some (a.2, b.2, c.2).

(** The [index] attribute. *)
Definition index_attr (w : weld_state) : option (list (nat * nat * nat)) :=
  mapM tri_index (face_tri_list w).

(** [x3d_v[0][slot]] *)
Definition key_slot (slot : nat) (x3d_v : x3d_vertex) : option (list Qc) :=
  key ← x3d_v.1.1; key !! slot.

(** ** Output and the writer monad *)

(** The rotation of a texture transform: [math.pi / -2.0] or [0.0]. *)
Inductive tex_rotation := RotNegHalfPi | RotZero.

(** The elements the mesh writer emits.  An element that the source builds
    with several [fw] calls, or with a loop of them, is one constructor
    holding the values written.  [Group], [Material] and [ImageTexture]
    nodes also record the handle of the datablock they were written for. *)
Inductive markup :=
  | Billboard_open (axisOfRotation : string)
  | Billboard_close
  | Collision_open
  | Collision_close
  | Transform_open (DEF : string) (mtx : decomposed)
  | Transform_close
  | Group_USE (m : mesh_id) (name : string)
  | Group_DEF (m : mesh_id) (name : string)
  | Group_close
  | Shape_open
  | Shape_close
  | Appearance_open
  | Appearance_close
  | ImageTexture_USE (i : img_id) (name : string)
  | ImageTexture_DEF (i : img_id) (name : string) (url : list string)
  | TextureTransform_tiles (x y : Z)
  | TextureTransform_mtex (translation scale : vec2) (rotation : tex_rotation)
  | Material_USE (m : mat_id) (name : string)
  | Material_DEF (m : mat_id) (name : string) (f : material_fields)
  | IndexedTriangleSet_open (solid : bool) (creaseAngle : option Qc) (normalPerVertex : bool)
  | IndexedTriangleSet_index (index : list (nat * nat * nat))
  | IndexedTriangleSet_close
  | IndexedFaceSet_open (solid : bool) (creaseAngle : option Qc)
      (normalPerVertex : bool) (colorPerVertex_false : bool)
  | IndexedFaceSet_texCoordIndex (index : list (list nat))
  | IndexedFaceSet_coordIndex (index : list (list nat))
  | IndexedFaceSet_close
  | Coordinate_USE (name : string)
  | Coordinate_DEF (name : string) (point : list vec3)
  | Coordinate_point (point : list vec3)
  | Normal_USE (name : string)
  | Normal_DEF (name : string) (vector : list vec3)
  | Normal_vector (vector : list vec3)
  | TextureCoordinate_point (point : list (list Qc))
  | Color_color (color : list (list Qc)).

(** A writer: from the store of tagged datablocks to a result (or an
    exception, [None]), the new store and the elements written. *)
Definition M (A : Type) : Type := gset asset → option A * gset asset * list markup.

Global Instance M_ret : MRet M := λ A x tags, (Some x, tags, []).

Global Instance M_bind : MBind M := λ A B f m tags,
  match m tags with
  | (Some x, tags1, out1) =>
      match f x tags1 with
      | (r, tags2, out2) => (r, tags2, out1 ++ out2)
      end
  | (None, tags1, out1) => (None, tags1, out1)
  end.

(** [fw(...)] *)
Definition fw (e : markup) : M unit := λ tags, (Some (), tags, [e]).

(** A pure computation that may raise. *)
Definition lift {A} (o : option A) : M A := λ tags, (o, tags, []).

(** [asset.tag] and [asset.tag = True] *)
Definition get_tag (a : asset) : M bool := λ tags, (Some (bool_decide (a ∈ tags)), tags, []).
Definition set_tag (a : asset) : M unit := λ tags, (Some (), {[a]} ∪ tags, []).

Definition when (b : bool) (m : M unit) : M unit := if b then m else mret ().

Fixpoint for_each {A} (l : list A) (body : A → M unit) : M unit :=
  match l with
  | [] => mret ()
  | x :: l' => body x ;; for_each l' body
  end.

(** ** The writers *)

Section writers.
Context (sc : scene) `{SetIter}.
Context (use_triangulate use_normals : bool).

(** [writeImageTexture(ident, image)] *)
Definition writeImageTexture (image : img_id) : M unit :=
  let name := img_name (image_data sc image) in
  tag ← get_tag (AImage image);
  if (tag : bool) then
    id ← lift (clean_str name "rsvd_");
    fw (ImageTexture_USE image id)
  else
    set_tag (AImage image);;
    id ← lift (clean_str name "rsvd_");
    let img := image_data sc image in
    let images :=
      match img_relpath img with Some rel => [rel] | None => [] end
      ++ [img_basename img; img_abspath img] in
    fw (ImageTexture_DEF image id (replace "\" "/" <$> images)).

(** [writeMaterial(ident, mat, material_id, world)] *)
Definition writeMaterial (mat : mat_id) (material_id : string) (w : option world) : M unit :=
  tag ← get_tag (AMaterial mat);
  if (tag : bool) then fw (Material_USE mat ("MA_" +:+ material_id))
  else
    set_tag (AMaterial mat);;
    f ← lift (material_values (material_data sc mat) w);
    fw (Material_DEF mat ("MA_" +:+ material_id) f).

(** The texture transform written after the image of a group. *)
Definition writeTextureTransform (me : mesh) (material_index : nat) (image : img_id)
    : M unit :=
  u ← lift (mesh_materials_use_face_texture sc me !! material_index);
  if (u : bool) then
    let img := image_data sc image in
    when (use_tiles img) (fw (TextureTransform_tiles (tiles_x img) (tiles_y img)))
  else
    mtex ← lift (mjoin (mesh_material_mtex sc me !! material_index));
    let loc := offset mtex in
    let '(sca_x, sca_y) := scale mtex in
    tex ← lift (mjoin (mesh_material_tex sc me !! material_index));
    let sca_x := sca_x * Qc_of_Z (repeat_x tex) in
    let sca_y := sca_y * Qc_of_Z (repeat_y tex) in
    let '(rot, sca_x, sca_y) :=
      if use_flip_axis tex then (RotNegHalfPi, sca_y, - sca_x)
      else (RotZero, sca_x, sca_y) in
    fw (TextureTransform_mtex loc (sca_x, sca_y) rot).

(** [is_smooth]: the loop stops at the first smooth face. *)
Fixpoint group_is_smooth (mesh_faces : list face) (face_group : list nat) : option bool :=
  match face_group with
  | [] => Some false
  | i :: face_group' =>
      f ← mesh_faces !! i;
      if use_smooth f then Some true else group_is_smooth mesh_faces face_group'
  end.

(** The [IndexedTriangleSet] of a group. *)
Definition writeIndexedTriangleSet (me : mesh) (is_smooth : bool)
    (mesh_faces_uv : option (list uv_face)) (mesh_faces_col : option (list col_face))
    (face_group : list nat) : M unit :=
  fw (IndexedTriangleSet_open (show_double_sided me)
        (if is_smooth then Some (auto_smooth_angle me) else None) use_normals);;
  let slot_uv := 0%nat in
  let slot_col := match mesh_faces_uv with Some _ => 1%nat | None => 0%nat end in
  w ← lift (weld (vertex_key mesh_faces_uv mesh_faces_col)
                 (length (mesh_vertices me)) (mesh_faces_vertices me) face_group);
  index ← lift (index_attr w);
  fw (IndexedTriangleSet_index index);;
  point ← lift (mapM (λ x3d_v : x3d_vertex, co <$> mesh_vertices me !! x3d_v.1.2)
                     (vert_tri_list w));
  fw (Coordinate_point point);;
  when use_normals (
    vector ← lift (mapM (λ x3d_v : x3d_vertex, normal <$> mesh_vertices me !! x3d_v.1.2)
                        (vert_tri_list w));
    fw (Normal_vector vector));;
  when (bool_decide (is_Some mesh_faces_uv)) (
    point ← lift (mapM (key_slot slot_uv) (vert_tri_list w));
    fw (TextureCoordinate_point point));;
  when (bool_decide (is_Some mesh_faces_col)) (
    color ← lift (mapM (key_slot slot_col) (vert_tri_list w));
    fw (Color_color color));;
  fw IndexedTriangleSet_close.

(** [texCoordIndex]: consecutive numbers, four per quad and three per any
    other face. *)
Fixpoint texCoordIndex (faces_vertices : list (list nat)) (j : nat) (face_group : list nat)
    : option (list (list nat)) :=
  match face_group with
  | [] => Some []
  | i :: face_group' =>
      fv ← faces_vertices !! i;
      if decide (length fv = 4%nat) then
        (λ r, [j; j + 1; j + 2; j + 3]%nat :: r) <$>
          texCoordIndex faces_vertices (j + 4) face_group'
      else
        (λ r, [j; j + 1; j + 2]%nat :: r) <$>
          texCoordIndex faces_vertices (j + 3) face_group'
  end.

(** [coordIndex]: the format strings take exactly three or four indices. *)
Definition coordIndex (faces_vertices : list (list nat)) (face_group : list nat)
    : option (list (list nat)) :=
  mapM (λ i, fv ← faces_vertices !! i;
             if decide (length fv = 3%nat) then Some fv
             else if decide (length fv = 4%nat) then Some fv else None) face_group.

(** The [IndexedFaceSet] of a group; returns the new [is_coords_written]. *)
Definition writeIndexedFaceSetGeometry (me : mesh) (mesh_name_x3d : string)
    (is_smooth : bool) (mesh_faces_uv : option (list uv_face))
    (mesh_faces_col : option (list col_face)) (face_group : list nat)
    (is_coords_written : bool) : M bool :=
  fw (IndexedFaceSet_open (show_double_sided me)
        (if is_smooth then Some (auto_smooth_angle me) else None) use_normals
        (bool_decide (is_Some mesh_faces_col)));;
  match mesh_faces_uv with
  | Some _ =>
      index ← lift (texCoordIndex (mesh_faces_vertices me) 0 face_group);
      fw (IndexedFaceSet_texCoordIndex index)
  | None => mret ()
  end;;
  index ← lift (coordIndex (mesh_faces_vertices me) face_group);
  fw (IndexedFaceSet_coordIndex index);;
  (if is_coords_written then
     fw (Coordinate_USE ("coord_" +:+ mesh_name_x3d));;
     when use_normals (fw (Normal_USE ("normals_" +:+ mesh_name_x3d)))
   else
     fw (Coordinate_DEF ("coord_" +:+ mesh_name_x3d) (co <$> mesh_vertices me));;
     when use_normals
       (fw (Normal_DEF ("normals_" +:+ mesh_name_x3d) (normal <$> mesh_vertices me))));;
  match mesh_faces_uv with
  | Some uvs =>
      point ← lift (mapM (λ i, fuv ← uvs !! i; Some (vec2_tuple <$> uv fuv)) face_group);
      fw (TextureCoordinate_point (concat point))
  | None => mret ()
  end;;
  match mesh_faces_col with
  | Some cols =>
      color ← lift (mapM (λ i, fc ← cols !! i; Some (vec3_tuple (color1 fc))) face_group);
      fw (Color_color color)
  | None => mret ()
  end;;
  fw IndexedFaceSet_close;;
  mret true.
(** One round of [for (material_index, image), face_group in
    face_groups_items]; returns the new [is_coords_written]. *)
Definition write_group (me : mesh) (mesh_name_x3d : string) (w : option world)
    (is_coords_written : bool) (g : group_key * list nat) : M bool :=
  let '((material_index, image), face_group) := g in
  match face_group with
  | [] => mret is_coords_written
  | _ :: _ =>
      material ← lift (mesh_materials me !! material_index);
      fw Shape_open;;
      let is_col :=
        match vertex_colors_active me, material with
        | Some _, None => true
        | Some _, Some mat => use_vertex_color_paint (material_data sc mat)
        | None, _ => false
        end in
      is_smooth ← lift (group_is_smooth (faces me) face_group);
      fw Appearance_open;;
      match image with
      | Some image =>
          writeImageTexture image;;
          writeTextureTransform me material_index image
      | None => mret ()
      end;;
      match material with
      | Some mat =>
          material_id ← lift (clean_str (mat_name (material_data sc mat)) "");
          writeMaterial mat material_id w
      | None => lift None
      end;;
      fw Appearance_close;;
      let mesh_faces_col := if is_col then vertex_colors_active me else None in
      let mesh_faces_uv := uv_textures_active me in
      is_coords_written ←
        (if use_triangulate then
           writeIndexedTriangleSet me is_smooth mesh_faces_uv mesh_faces_col face_group;;
           mret is_coords_written
         else
           writeIndexedFaceSetGeometry me mesh_name_x3d is_smooth mesh_faces_uv
             mesh_faces_col face_group is_coords_written);
      fw Shape_close;;
      mret is_coords_written
  end.

Fixpoint write_groups (me : mesh) (mesh_name_x3d : string) (w : option world)
    (is_coords_written : bool) (items : face_group_dict) : M unit :=
  match items with
  | [] => mret ()
  | g :: items' =>
      is_coords_written ← write_group me mesh_name_x3d w is_coords_written g;
      write_groups me mesh_name_x3d w is_coords_written items'
  end.

(** [texface_use_halo], [texface_use_billboard], [texface_use_collision]
    after the loop over the faces of the active UV layer. *)
Definition texface_flags (me : mesh) : bool * bool * bool :=
  match uv_textures_active me with
  | Some data =>
      (foldl (λ acc f, acc || use_halo f) false data,
       foldl (λ acc f, acc || use_billboard f) false data,
       foldl (λ acc f, acc || use_collision f) false data)
  | None => (false, false, false)
  end.

(** The wrapper opened before the transform; returns [use_halonode],
    [use_billnode], [use_collnode]. *)
Definition open_wrapper (flags : bool * bool * bool) : M (bool * bool * bool) :=
  let '(texface_use_halo, texface_use_billboard, texface_use_collision) := flags in
  if texface_use_halo then
    fw (Billboard_open "0 0 0");; mret (true, false, false)
  else if texface_use_billboard then
    fw (Billboard_open "0 1 0");; mret (false, true, false)
  else if texface_use_collision then
    fw Collision_open;; mret (false, false, true)
  else mret (false, false, false).

Definition close_wrapper (nodes : bool * bool * bool) : M unit :=
  let '(use_halonode, use_billnode, use_collnode) := nodes in
  if use_halonode then fw Billboard_close
  else if use_billnode then fw Billboard_close
  else if use_collnode then fw Collision_close
  else mret ().

(** [writeIndexedFaceSet(ident, ob, mesh, mtx, world)] *)
Definition writeIndexedFaceSet (ob : object) (m : mesh_id) (mtx : decomposed)
    (w : option world) : M unit :=
  let me := mesh_data sc m in
  shape_name_x3d ← lift (clean_str (ob_name ob) "rsvd_");
  mesh_name_x3d ← lift (clean_str (mesh_name me) "rsvd_");
  match faces me with
  | [] => mret ()
  | _ :: _ =>
      nodes ← open_wrapper (texface_flags me);
      fw (Transform_open shape_name_x3d mtx);;
      tag ← get_tag (AMesh m);
      (if (tag : bool) then fw (Group_USE m ("G_" +:+ mesh_name_x3d))
       else
         set_tag (AMesh m);;
         fw (Group_DEF m ("G_" +:+ mesh_name_x3d));;
         items ← lift (face_groups_items sc me);
         write_groups me mesh_name_x3d w false items;;
         fw Group_close);;
      fw Transform_close;;
      close_wrapper nodes
  end.

(** The mesh objects of [export_main], in order; the tags were cleared
    before. *)
Definition export_objects (objects : list (object * mesh_id * decomposed))
    (w : option world) : M unit :=
  for_each objects (λ '(ob, m, mtx), writeIndexedFaceSet ob m mtx w).

Definition export_main (objects : list (object * mesh_id * decomposed))
    (w : option world) : option unit * gset asset * list markup :=
  export_objects objects w ∅.
End writers.

(** ** The operator entry point: [save] *)

Fixpoint map_chars (f : ascii → ascii) (s : string) : string :=
  match s with
  | EmptyString => EmptyString
  | String c s' => String (f c) (map_chars f s')
  end.

(** The characters of a string, in order. *)
Definition chars (s : string) : list ascii := String.list_ascii_of_string s.


(** [c.lower()] on an ASCII character. *)
Definition lower_char (c : ascii) : ascii :=
  let n := N_of_ascii c in
  if bool_decide (65 ≤ n)%N && bool_decide (n ≤ 90)%N then ascii_of_N (n + 32) else c.

(** [s.lower()] *)
Definition lower (s : string) : string := map_chars lower_char s.

(** [s.endswith(suffix)]: some tail of [s] is [suffix]. *)
Fixpoint endswith (s suffix : string) : bool :=
  String.eqb s suffix ||
  match s with
  | EmptyString => false
  | String _ s' => endswith s' suffix
  end.

(** [s.split(sep)] for a one-character separator. *)
Fixpoint split (sep : ascii) (s : string) : list string :=
  match s with
  | EmptyString => [EmptyString]
  | String c s' =>
      if decide (c = sep) then EmptyString :: split sep s'
      else
        match split sep s' with
        | [] => [String c EmptyString]
        | w :: ws => String c w :: ws
        end
  end.

(** [sep.join(l)] *)
Fixpoint join (sep : string) (l : list string) : string :=
  match l with
  | [] => EmptyString
  | w :: l' =>
      match l' with
      | [] => w
      | _ :: _ => w +:+ sep +:+ join sep l'
      end
  end.

(** [l[:-1]] *)
Definition init {A} (l : list A) : list A := take (length l - 1) l.

(** [s[:-1]] *)
Fixpoint drop_last (s : string) : string :=
  match s with
  | EmptyString => EmptyString
  | String c s' =>
      match s' with
      | EmptyString => EmptyString
      | String _ _ => String c (drop_last s')
      end
  end.

(** The extension [save] asks for. *)
Definition save_extension (use_compress : bool) : string :=
  if use_compress then ".x3dz" else ".x3d".

(** [filepath] after the first [if] of [save]. *)
Definition save_filepath (use_compress : bool) (filepath : string) : string :=
  let ext := save_extension use_compress in
  if negb (endswith (lower filepath) ext)
  then join "." (init (split "." filepath)) +:+ ext
  else filepath.


(** ** A small scene

    Two objects share the quad mesh 0 (one material, a UV layer with a halo
    face); mesh 1 has two triangles textured with two images that carry the
    same name; mesh 2 has no faces. *)

Definition q (n : Z) (d : positive) : Qc := Q2Qc (n # d).

Definition ex_image (name : string) : image :=
  {| img_name := name; use_tiles := false; tiles_x := 1%Z; tiles_y := 1%Z;
     img_relpath := None; img_basename := name; img_abspath := "/t/" +:+ name |}.

Definition ex_material (name : string) (shadeless : bool) : material :=
  {| mat_name := name; emit := q 1 2; ambient := q 1 2;
     diffuse_color := (q 4 5, q 4 5, q 4 5);
     specular_color := (1, 1, 1); specular_intensity := q 1 2;
     specular_hardness := 50%Z; alpha := 1; use_shadeless := shadeless;
     use_face_texture := true; use_vertex_color_paint := false;
     texture_slots := [] |}.

Definition ex_world : world := {| ambient_color := (q 1 2, q 1 2, q 1 2) |}.

Definition ex_vertex (x y z : Z) : vertex :=
  {| co := (q x 1, q y 1, q z 1); normal := (0, 0, 1) |}.

Definition ex_uv_face (uvs : list vec2) (img : option img_id) (halo : bool) : uv_face :=
  {| uv := uvs; uvf_image := img; use_image := bool_decide (is_Some img);
     use_halo := halo; use_billboard := false; use_collision := true |}.

Definition ex_quad : mesh :=
  {| mesh_name := "Quad";
     faces := [ {| vertices := [0; 1; 2; 3]%nat; material_index := 0; use_smooth := false |} ];
     mesh_vertices := [ex_vertex 0 0 0; ex_vertex 1 0 0; ex_vertex 1 1 0; ex_vertex 0 1 0];
     uv_textures_active := Some [ex_uv_face [(0, 0); (1, 0); (1, 1); (0, 1)] None true];
     vertex_colors_active := None;
     materials := [Some 0%nat];
     show_double_sided := true;
     auto_smooth_angle := q 30 1 |}.

Definition ex_two : mesh :=
  {| mesh_name := "Two";
     faces := [ {| vertices := [0; 1; 2]%nat; material_index := 0; use_smooth := true |};
                {| vertices := [0; 2; 3]%nat; material_index := 0; use_smooth := false |} ];
     mesh_vertices := [ex_vertex 0 0 0; ex_vertex 1 0 0; ex_vertex 1 1 0; ex_vertex 0 1 0];
     uv_textures_active :=
       Some [ex_uv_face [(0, 0); (1, 0); (1, 1)] (Some 0%nat) false;
             ex_uv_face [(0, 0); (1, 1); (0, 1)] (Some 1%nat) false];
     vertex_colors_active := None;
     materials := [Some 0%nat];
     show_double_sided := true;
     auto_smooth_angle := q 30 1 |}.

Definition ex_empty : mesh :=
  {| mesh_name := "E"; faces := []; mesh_vertices := []; uv_textures_active := None;
     vertex_colors_active := None; materials := []; show_double_sided := true;
     auto_smooth_angle := q 30 1 |}.

Definition ex_scene : scene :=
  {| mesh_data := λ m,
       match m with 0%nat => ex_quad | 1%nat => ex_two | _ => ex_empty end;
     material_data := λ m,
       match m with 0%nat => ex_material "Mat" false | _ => ex_material "Flat" true end;
     image_data := λ i,
       match i with
       | 0%nat => ex_image "tex" | 1%nat => ex_image "tex" | _ => ex_image "wood"
       end |}.

Definition ex_mtx : decomposed :=
  {| dec_loc := (0, 0, 0); dec_quat_axis := (0, 0, 1); dec_quat_angle := 0;
     dec_sca := (1, 1, 1) |}.

Definition ex_objects : list (object * mesh_id * decomposed) :=
  [({| ob_name := "a" |}, 0%nat, ex_mtx);
   ({| ob_name := "b" |}, 0%nat, ex_mtx);
   ({| ob_name := "e" |}, 2%nat, ex_mtx);
   ({| ob_name := "c" |}, 1%nat, ex_mtx)].

(** ** Vocabulary of the properties *)

(** Every channel of a clamped colour lies in [0,1]. *)
Definition in_unit_range (col : vec3) : Prop :=
  let '(r, g, b) := col in
  (0 ≤ r ∧ r ≤ 1) ∧ (0 ≤ g ∧ g ≤ 1) ∧ (0 ≤ b ∧ b ≤ 1).

(** A writer that only writes elements satisfying [P]. *)
Definition emits {A} (P : markup → Prop) (m : M A) : Prop :=
  ∀ tags, Forall P (m tags).2.

(** Billboard, Collision and Transform nodes. *)
Definition is_wrapper (e : markup) : bool :=
  match e with
  | Billboard_open _ | Billboard_close | Collision_open | Collision_close => true
  | _ => false
  end.

Definition is_transform (e : markup) : bool :=
  match e with
  | Transform_open _ _ | Transform_close => true
  | _ => false
  end.

Definition is_inner (e : markup) : Prop := is_wrapper e = false ∧ is_transform e = false.











(** [vertex_hash[v].get(k)] *)
Definition vh_lookup (w : weld_state) (v : nat) (k : vkey) : option x3d_vertex :=
  d ← vertex_hash w !! v; d !! k.

(** The invariant of the welding loop: every entry of the table is a vertex
    of [vert_tri_list] stored at its own output index, and every vertex of
    [vert_tri_list] is in the table under its original vertex and key, which
    satisfy [C]. *)
Definition weld_inv (C : nat → vkey → Prop) (n_vertices cap : nat) (w : weld_state) : Prop :=
  length (vertex_hash w) = n_vertices ∧
  totvert w = length (vert_tri_list w) ∧
  (∀ v k x, vh_lookup w v k = Some x →
     x = (k, v, x.2) ∧ vert_tri_list w !! x.2 = Some x) ∧
  (∀ n x, vert_tri_list w !! n = Some x →
     x.2 = n ∧ vh_lookup w x.1.2 x.1.1 = Some x ∧ C x.1.2 x.1.1) ∧
  length (temp_face w) = 4%nat ∧
  length (face_tri_list w) = cap ∧
  (∀ n tri, face_tri_list w !! n = Some tri → length tri = 3%nat).

(** Table entries are never changed or removed. *)
Definition weld_ext (w w' : weld_state) : Prop :=
  ∀ v k x, vh_lookup w v k = Some x → vh_lookup w' v k = Some x.

Section weld_vocabulary.
Context (key_fn : nat → nat → option vkey) (C : nat → vkey → Prop).
Context (n_vertices : nat) (faces_vertices : list (list nat)).

(** The output vertex of corner [j] of face [i], read from the table. *)
Definition corner_x (w : weld_state) (i j : nat) : option x3d_vertex :=
  fv ← faces_vertices !! i; v ← fv !! j; k ← key_fn i j; vh_lookup w v k.

(** The triangles of face [i] as they are stored in [face_tri_list]. *)
Definition face_slots (w : weld_state) (i : nat) : list (list (option x3d_vertex)) :=
  match faces_vertices !! i with
  | Some fv => (λ f_it : list nat, (λ j, corner_x w i j) <$> f_it) <$> f_iter fv
  | None => []
  end.

(** A face the loop can process: three or four corners, every corner on a
    vertex of the mesh and with a key. *)
Definition face_ok (i : nat) : Prop :=
  ∃ fv, faces_vertices !! i = Some fv ∧
    (length fv = 3%nat ∨ length fv = 4%nat) ∧
    ∀ j v, fv !! j = Some v →
      (v < n_vertices)%nat ∧ ∃ k, key_fn i j = Some k ∧ C v k.

End weld_vocabulary.




(** The face indices that [face_groups_fill] appends to bucket [k]. *)
Definition bucket_content (k : group_key) (l : list (nat * group_key)) : list nat :=
  (filter (λ p, p.2 = k) l).*1.

(** The single characters [clean_str] replaces by an underscore. *)
Definition clean_str_bad_chars : list ascii :=
  [" "; "034"; "#"; "'"; "."; "["; "\"; "]"; "{"; "}"]%char.

Definition clean_char (c : ascii) : ascii :=
  if bool_decide (c ∈ clean_str_bad_chars) then "_"%char else c.

(** The single characters [secureName] replaces (no space). *)
Definition secureName_bad_chars : list ascii :=
  ["034"; "#"; "'"; "."; "["; "\"; "]"; "{"; "}"]%char.

(** The name [clean_str] works on when it reaches the replacement loop. *)
Definition clean_str_guarded (name prefix : string) : string :=
  let newName := if is_reserved name then prefix +:+ name else name in
  match newName with
  | EmptyString => EmptyString
  | String c _ => if isdigit c then "_" +:+ newName else newName
  end.

(** The paths [writeImageTexture] collects for an image, before the
    backslashes are replaced. *)
Definition image_paths (img : image) : list string :=
  match img_relpath img with Some rel => [rel] | None => [] end
  ++ [img_basename img; img_abspath img].

(** What the mesh writer writes for the datablocks of scene [sc]: a node
    that names a datablock carries the identifier made from that
    datablock's name, a material definition carries the values computed for
    that material, an image definition the paths of that image, a
    coordinate or normal definition the vertices of its mesh. *)
Definition element_ok (sc : scene) (w : option world) (e : markup) : Prop :=
  match e with
  | Transform_open name _ => ∃ ob_name, clean_str ob_name "rsvd_" = Some name
  | Group_USE m name | Group_DEF m name =>
      ∃ r, clean_str (mesh_name (mesh_data sc m)) "rsvd_" = Some r ∧ name = "G_" +:+ r
  | ImageTexture_USE i name =>
      clean_str (img_name (image_data sc i)) "rsvd_" = Some name
  | ImageTexture_DEF i name url =>
      clean_str (img_name (image_data sc i)) "rsvd_" = Some name ∧
      url = replace "\" "/" <$> image_paths (image_data sc i)
  | Material_USE m name =>
      ∃ r, clean_str (mat_name (material_data sc m)) "" = Some r ∧ name = "MA_" +:+ r
  | Material_DEF m name f =>
      (∃ r, clean_str (mat_name (material_data sc m)) "" = Some r ∧ name = "MA_" +:+ r) ∧
      material_values (material_data sc m) w = Some f
  | Coordinate_USE name =>
      ∃ m r, clean_str (mesh_name (mesh_data sc m)) "rsvd_" = Some r ∧
             name = "coord_" +:+ r
  | Coordinate_DEF name point =>
      ∃ m r, clean_str (mesh_name (mesh_data sc m)) "rsvd_" = Some r ∧
             name = "coord_" +:+ r ∧ point = co <$> mesh_vertices (mesh_data sc m)
  | Normal_USE name =>
      ∃ m r, clean_str (mesh_name (mesh_data sc m)) "rsvd_" = Some r ∧
             name = "normals_" +:+ r
  | Normal_DEF name vector =>
      ∃ m r, clean_str (mesh_name (mesh_data sc m)) "rsvd_" = Some r ∧
             name = "normals_" +:+ r ∧ vector = normal <$> mesh_vertices (mesh_data sc m)
  | _ => True
  end.

(** The identifier in the DEF or USE attribute of an element. *)
Definition def_use_name (e : markup) : option string :=
  match e with
  | Transform_open n _
  | Group_DEF _ n | Group_USE _ n
  | ImageTexture_DEF _ n _ | ImageTexture_USE _ n
  | Material_DEF _ n _ | Material_USE _ n
  | Coordinate_DEF n _ | Coordinate_USE n
  | Normal_DEF n _ | Normal_USE n => Some n
  | _ => None
  end.

(** A per-vertex attribute node of a triangle set with [n] entries. *)
Definition vertex_attribute (n : nat) (e : markup) : Prop :=
  match e with
  | Normal_vector l => length l = n
  | TextureCoordinate_point l => length l = n
  | Color_color l => length l = n
  | _ => False
  end.

(** The corners of the faces of a group can be welded: every face has
    three or four corners, each on a vertex of the mesh and with an entry
    in the attribute layers that are present. *)
Definition group_weldable (me : mesh) (uvs : option (list uv_face))
    (cols : option (list col_face)) (face_group : list nat) : Prop :=
  ∀ i, i ∈ face_group →
    ∃ fv, mesh_faces_vertices me !! i = Some fv ∧
      (length fv = 3%nat ∨ length fv = 4%nat) ∧
      ∀ j v, fv !! j = Some v →
        (v < length (mesh_vertices me))%nat ∧ is_Some (vertex_key uvs cols i j).

(** The faces of a group can be written as an IndexedFaceSet with texture
    coordinates: every face has three or four corners, the UV layer has an
    entry for it with one coordinate per corner, and the colour layer, when
    used, has an entry for it. *)
Definition group_textured (me : mesh) (uvl : list uv_face)
    (cols : option (list col_face)) (face_group : list nat) : Prop :=
  ∀ i, i ∈ face_group →
    ∃ fv fuv, mesh_faces_vertices me !! i = Some fv ∧
      (length fv = 3%nat ∨ length fv = 4%nat) ∧
      uvl !! i = Some fuv ∧ length (uv fuv) = length fv ∧
      ∀ cl, cols = Some cl → is_Some (cl !! i).

(** The Coordinate nodes that define or reuse the vertices of a mesh. *)
Definition is_coord_ref (e : markup) : bool :=
  match e with
  | Coordinate_DEF _ _ | Coordinate_USE _ => true
  | _ => false
  end.

Definition coord_refs (out : list markup) : list markup :=
  filter (λ e, is_coord_ref e = true) out.

(** One definition, then only references to it (or nothing at all). *)
Definition def_then_uses (refs : list markup) : Prop :=
  refs = [] ∨
  ∃ name point k, refs = Coordinate_DEF name point :: replicate k (Coordinate_USE name).

(** A writer that returns only values satisfying [P]. *)
Definition returns {A} (P : A → Prop) (m : M A) : Prop :=
  ∀ tags x, (m tags).1.1 = Some x → P x.

(** The node a group writes for the vertices of its mesh. *)
Definition coord_node (me : mesh) (mesh_name_x3d : string) (is_coords_written : bool)
    : markup :=
  if is_coords_written then Coordinate_USE ("coord_" +:+ mesh_name_x3d)
  else Coordinate_DEF ("coord_" +:+ mesh_name_x3d) (co <$> mesh_vertices me).

(** What a group leaves behind: no Coordinate node and the flag as it was,
    or the Coordinate node and the flag set. *)
Definition group_coord_post (me : mesh) (mesh_name_x3d : string) (icw : bool)
    (x : option bool * gset asset * list markup) : Prop :=
  (coord_refs x.2 = [] ∧ ∀ b, x.1.1 = Some b → b = icw) ∨
  (coord_refs x.2 = [coord_node me mesh_name_x3d icw] ∧ ∀ b, x.1.1 = Some b → b = true).

(** ** The scene around the meshes *)

(** More float literals of the source. *)
Definition f2_5 : Qc := Q2Qc (5 # 2).
Definition f1_75 : Qc := Q2Qc (7 # 4).
Definition f0_37 : Qc := Q2Qc (37 # 100).
Definition f1_3 : Qc := Q2Qc (13 # 10).

(** The world of the scene: the part the mesh writer reads ([world]), and
    the sky and mist settings the scene-level writers read. *)
Record scene_world := {
  sw_world : world;
  world_name : string;
  horizon_color : vec3;
  zenith_color : vec3;
  use_sky_blend : bool;
  use_sky_paper : bool;
  use_sky_real : bool;
  use_mist : bool;
  falloff : string;
  depth : Qc
}.

Record lamp := {
  lamp_type : string;
  energy : Qc;
  lamp_color : vec3;
  spot_size : Qc;
  distance : Qc
}.

(** What [mathutils] computes from [global_matrix * ob_mat]: its
    decomposition, its translation and the direction of its negative z
    axis ([matrix_direction_neg_z]). *)
Record matrix := {
  mtx_decompose : decomposed;
  mtx_to_translation : vec3;
  mtx_direction_neg_z : vec3
}.

(** An object by its type, with the data read for that type.  [to_mesh]
    is the mesh [ob.to_mesh] returns, or [None] when it raises. *)
Inductive object_data :=
  | CAMERA (angle : Qc)
  | MESH (data : mesh_id) (is_modified : bool) (to_mesh : option mesh_id)
  | CURVE (to_mesh : option mesh_id)
  | SURF (to_mesh : option mesh_id)
  | FONT (to_mesh : option mesh_id)
  | LAMP (data : lamp)
  | OTHER.

(** An entry of the list [create_derived_objects] returns. *)
Record derived_object := {
  dob_object : object;
  dob_data : object_data;
  dob_matrix : matrix
}.

(** An object of the scene: [derived] is the second component of what
    [create_derived_objects] returns for it. *)
Record main_object := {
  is_visible : bool;
  select : bool;
  derived : option (list derived_object)
}.

(** The elements written around the mesh elements.  A Background lists its
    colours and, as text, its angles; its URL attributes are pairs of
    attribute name and file name. *)
Inductive scene_markup :=
  | XML_declaration
  | DOCTYPE
  | X3D_open
  | head_open
  | meta (name content : string)
  | head_close
  | Scene_open
  | Scene_close
  | X3D_close
  | NavigationInfo
  | Background (DEF : string) (groundColor : list vec3) (groundAngle : option string)
      (skyColor : list vec3) (skyAngle : option string) (urls : list (string * string))
  | Fog (fogType : string) (color : vec3) (visibilityRange : Qc)
  | Viewpoint (DEF description : string) (position : vec3)
      (orientation : vec3 * Qc) (fieldOfView : Qc)
  | SpotLight (DEF : string) (radius ambientIntensity intensity : Qc) (color : vec3)
      (beamWidth cutOffAngle : Qc) (direction location : vec3)
  | DirectionalLight (DEF : string) (ambientIntensity : Qc) (color : vec3)
      (intensity : Qc) (direction : vec3)
  | PointLight (DEF : string) (ambientIntensity : Qc) (color : vec3)
      (intensity radius : Qc) (location : vec3)
  | Mesh_markup (e : markup).

(** The state of an export: the tags, and [secureName.nodeID]. *)
Record export_state := {
  st_tags : gset asset;
  st_nodeID : nat
}.

(** A scene-level writer. *)
Definition W (A : Type) : Type :=
  export_state → option A * export_state * list scene_markup.

Global Instance W_ret : MRet W := λ A x st, (Some x, st, []).

Global Instance W_bind : MBind W := λ A B f m st,
  match m st with
  | (Some x, st1, out1) =>
      match f x st1 with
      | (r, st2, out2) => (r, st2, out1 ++ out2)
      end
  | (None, st1, out1) => (None, st1, out1)
  end.

Definition w_fw (e : scene_markup) : W unit := λ st, (Some (), st, [e]).

Definition w_lift {A} (o : option A) : W A := λ st, (o, st, []).

(** A call of the mesh writer. *)
Definition w_mesh {A} (m : M A) : W A := λ st,
  match m (st_tags st) with
  | (r, tags, out) =>
      (r, {| st_tags := tags; st_nodeID := st_nodeID st |}, Mesh_markup <$> out)
  end.

(** A call of [secureName]. *)
Definition w_secureName (name : string) : W string := λ st,
  match secureName name (st_nodeID st) with
  | (r, nodeID) => (r, {| st_tags := st_tags st; st_nodeID := nodeID |}, [])
  end.

Fixpoint w_for_each {A} (l : list A) (body : A → W unit) : W unit :=
  match l with
  | [] => mret ()
  | x :: l' => body x ;; w_for_each l' body
  end.

(** The tabulator, and [ident += '\t']. *)
Definition tab : string := String "009"%char EmptyString.

Section scene_writers.
Context (sc : scene) `{SetIter}.
Context (use_apply_modifiers use_selection use_triangulate use_normals : bool).
(** The name of the output file as [writeHeader] writes it, Blender's
    version string, the textures of [bpy.data.textures] by name, and
    [math.cos]. *)
Context (bfile version_string : string).
Context (data_textures : list (string * texture)).
Context (cos : Qc → Qc).

(** [writeHeader(ident)]; returns the new [ident]. *)
Definition writeHeader (ident : string) : W string :=
  w_fw XML_declaration;;
  w_fw DOCTYPE;;
  w_fw X3D_open;;
  let ident := ident +:+ tab in
  w_fw head_open;;
  let ident := ident +:+ tab in
  w_fw (meta "filename" bfile);;
  w_fw (meta "generator" ("Blender " +:+ version_string));;
  w_fw (meta "translator" "X3D exporter v1.55 (2006/01/17)");;
  let ident := drop_last ident in
  w_fw head_close;;
  w_fw Scene_open;;
  let ident := ident +:+ tab in
  mret ident.

(** [writeFooter(ident)]; returns the new [ident]. *)
Definition writeFooter (ident : string) : W string :=
  let ident := drop_last ident in
  w_fw Scene_close;;
  let ident := drop_last ident in
  w_fw X3D_close;;
  mret ident.

(** [writeViewpoint(ident, ob, mat, scene)] *)
Definition writeViewpoint (ob : object) (mat : matrix) (angle : Qc) : W unit :=
  let d := mtx_decompose mat in
  name ← w_lift (clean_str (ob_name ob) "rsvd_");
  w_fw (Viewpoint name (ob_name ob) (dec_loc d) (dec_quat_axis d, dec_quat_angle d) angle).

(** [writeFog(ident, world)] *)
Definition writeFog (world : option scene_world) : W unit :=
  match world with
  | Some world =>
      if use_mist world then
        w_fw (Fog (if String.eqb (falloff world) "LINEAR" then "LINEAR" else "EXPONENTIAL")
                  (clamp_color (horizon_color world)) (depth world))
      else mret ()
  | None => mret ()
  end.

(** [writeNavigationInfo(ident, scene)] *)
Definition writeNavigationInfo : W unit := w_fw NavigationInfo.

(** [amb_intensity] of the three light writers. *)
Definition amb_intensity (world : option scene_world) : Qc :=
  match world with
  | Some world =>
      let '(a0, a1, a2) := ambient_color (sw_world world) in
      ((a0 + a1 + a2) / f3) / f2_5
  | None => 0
  end.

(** [min(lamp.energy / 1.75, 1.0)] *)
Definition light_intensity (la : lamp) : Qc := py_min (energy la / f1_75) 1.

(** [writeSpotLight(ident, ob, mtx, lamp, world)] *)
Definition writeSpotLight (ob : object) (mtx : matrix) (la : lamp)
    (world : option scene_world) : W unit :=
  safeName ← w_lift (clean_str (ob_name ob) "rsvd_");
  let amb := amb_intensity world in
  let intensity := light_intensity la in
  let beamWidth := spot_size la * f0_37 in
  let cutOffAngle := beamWidth * f1_3 in
  let orientation := mtx_direction_neg_z mtx in
  let location := mtx_to_translation mtx in
  let radius := distance la * cos beamWidth in
  w_fw (SpotLight safeName radius amb intensity (clamp_color (lamp_color la))
          beamWidth cutOffAngle orientation location).

(** [writeDirectionalLight(ident, ob, mtx, lamp, world)] *)
Definition writeDirectionalLight (ob : object) (mtx : matrix) (la : lamp)
    (world : option scene_world) : W unit :=
  safeName ← w_lift (clean_str (ob_name ob) "rsvd_");
  let amb := amb_intensity world in
  let intensity := light_intensity la in
  let orientation := mtx_direction_neg_z mtx in
  w_fw (DirectionalLight safeName amb (clamp_color (lamp_color la)) intensity orientation).

(** [writePointLight(ident, ob, mtx, lamp, world)] *)
Definition writePointLight (ob : object) (mtx : matrix) (la : lamp)
    (world : option scene_world) : W unit :=
  safeName ← w_lift (clean_str (ob_name ob) "rsvd_");
  let amb := amb_intensity world in
  let intensity := light_intensity la in
  let location := mtx_to_translation mtx in
  w_fw (PointLight safeName amb (clamp_color (lamp_color la)) intensity (distance la)
          location).

(** The URL attribute a texture of [bpy.data.textures] adds to the
    background, by its name. *)
Definition background_url (tex : string * texture) : list (string * string) :=
  let '(namemat, t) := tex in
  if String.eqb (tex_type t) "IMAGE" then
    match tex_image t with
    | Some pic =>
        let basename := img_basename (image_data sc pic) in
        if String.eqb namemat "back" then [("backUrl", basename)]
        else if String.eqb namemat "bottom" then [("bottomUrl", basename)]
        else if String.eqb namemat "front" then [("frontUrl", basename)]
        else if String.eqb namemat "left" then [("leftUrl", basename)]
        else if String.eqb namemat "right" then [("rightUrl", basename)]
        else if String.eqb namemat "top" then [("topUrl", basename)]
        else []
    | None => []
    end
  else [].

(** [mix_triple] *)
Definition mix_triple (grd_triple sky_triple : vec3) : vec3 :=
  let '(g0, g1, g2) := grd_triple in
  let '(s0, s1, s2) := sky_triple in
  clamp_color ((g0 + s0) / f2, (g1 + s1) / f2, (g2 + s2) / f2).

(** [writeBackground(ident, world)] *)
Definition writeBackground (world : option scene_world) : W unit :=
  match world with
  | None => mret ()
  | Some world =>
      let worldname := world_name world in
      let blending := (use_sky_blend world, use_sky_paper world, use_sky_real world) in
      let grd_triple := clamp_color (horizon_color world) in
      let sky_triple := clamp_color (zenith_color world) in
      let mix := mix_triple grd_triple sky_triple in
      DEF ← w_secureName worldname;
      let '(ground, groundAngle, sky, skyAngle) :=
        match blending with
        | (false, false, false) => ([grd_triple], None, [grd_triple], None)
        | (true, false, false) =>
            ([grd_triple; mix], Some "1.57, 1.57", [sky_triple; mix], Some "1.57, 1.57")
        | (true, false, true) =>
            ([sky_triple; grd_triple], Some "1.57",
             [sky_triple; grd_triple; sky_triple], Some "1.57, 3.14159")
        | (false, false, true) => ([sky_triple], None, [sky_triple], None)
        | (true, true, true) =>
            ([sky_triple; grd_triple], Some "1.57, 1.57",
             [sky_triple; grd_triple], Some "1.57, 1.57")
        | _ => ([grd_triple], None, [sky_triple], None)
        end in
      w_fw (Background DEF ground groundAngle sky skyAngle
              (data_textures ≫= background_url))
  end.

(** The body of the loop over the derived objects of [export_main].  A mesh
    made by [to_mesh] is removed after it was written; nothing reads it
    afterwards. *)
Definition export_object (world : option scene_world) (dob : derived_object) : W unit :=
  let ob := dob_object dob in
  let ob_mat := dob_matrix dob in
  let write_mesh (me : option mesh_id) : W unit :=
    match me with
    | Some me =>
        w_mesh (writeIndexedFaceSet sc use_triangulate use_normals ob me
                  (mtx_decompose ob_mat) (sw_world <$> world))
    | None => mret ()
    end in
  match dob_data dob with
  | CAMERA angle => writeViewpoint ob ob_mat angle
  | MESH data is_modified to_mesh =>
      write_mesh (if use_apply_modifiers && is_modified then to_mesh else Some data)
  | CURVE to_mesh | SURF to_mesh | FONT to_mesh => write_mesh to_mesh
  | LAMP data =>
      if String.eqb (lamp_type data) "POINT" then writePointLight ob ob_mat data world
      else if String.eqb (lamp_type data) "SPOT" then writeSpotLight ob ob_mat data world
      else writeDirectionalLight ob ob_mat data world
  | OTHER => mret ()
  end.

(** The objects [export_main] goes through. *)
Definition exported_objects (objects : list main_object) : list main_object :=
  if use_selection then filter (λ o, is_visible o = true ∧ select o = true) objects
  else filter (λ o, is_visible o = true) objects.

(** [export_main()], from cleared tags and a fresh counter. *)
Definition export_scene (world : option scene_world) (objects : list main_object)
    : W unit :=
  ident ← writeHeader "";
  writeNavigationInfo;;
  writeBackground world;;
  writeFog world;;
  let ident := tab +:+ tab in
  w_for_each (exported_objects objects) (λ ob_main,
    match derived ob_main with
    | None => mret ()
    | Some derived => w_for_each derived (export_object world)
    end);;
  ident ← writeFooter ident;
  mret ().

Definition export_scene_main (world : option scene_world) (objects : list main_object)
    : option unit * export_state * list scene_markup :=
  export_scene world objects {| st_tags := ∅; st_nodeID := 0 |}.
End scene_writers.

(** *** Example data for the scene-level writers *)

Definition ex_lamp (type : string) : lamp :=
  {| lamp_type := type; energy := q 7 2; lamp_color := (q 3 2, q 1 2, 0);
     spot_size := q 3 2; distance := q 30 1 |}.

Definition ex_matrix : matrix :=
  {| mtx_decompose := ex_mtx; mtx_to_translation := (0, 0, 0);
     mtx_direction_neg_z := (0, 0, -1) |}.

Definition ex_lamp_object (type : string) : derived_object :=
  {| dob_object := {| ob_name := "Lamp" |}; dob_data := LAMP (ex_lamp type);
     dob_matrix := ex_matrix |}.

Definition ex_scene_world : scene_world :=
  {| sw_world := ex_world; world_name := "World";
     horizon_color := (q 1 10, q 1 5, q 3 2); zenith_color := (q 1 2, q 1 2, 1);
     use_sky_blend := true; use_sky_paper := false; use_sky_real := false;
     use_mist := true; falloff := "QUADRATIC"; depth := q 25 1 |}.

Definition ex_state : export_state := {| st_tags := ∅; st_nodeID := 0 |}.

(** A stand-in for [math.cos] in the examples. *)
Definition ex_cos (x : Qc) : Qc := 1.

(** A light node: its kind, identifier, ambient intensity, colour and
    intensity. *)
Definition light_node (e : scene_markup) : option (string * string * Qc * vec3 * Qc) :=
  match e with
  | SpotLight n _ a i c _ _ _ _ => Some ("SpotLight", n, a, c, i)
  | DirectionalLight n a c i _ => Some ("DirectionalLight", n, a, c, i)
  | PointLight n a c i _ _ => Some ("PointLight", n, a, c, i)
  | _ => None
  end.

(** The mesh element inside a scene-level element. *)
Definition mesh_of (e : scene_markup) : option markup :=
  match e with
  | Mesh_markup e => Some e
  | _ => None
  end.

(** The elements written for objects. *)
Definition is_object_markup (e : scene_markup) : bool :=
  match e with
  | Viewpoint _ _ _ _ _ | SpotLight _ _ _ _ _ _ _ _ _ | DirectionalLight _ _ _ _ _
  | PointLight _ _ _ _ _ _ | Mesh_markup _ => true
  | _ => false
  end.

(** The Background and Fog nodes. *)
Definition is_environment_markup (e : scene_markup) : bool :=
  match e with
  | Background _ _ _ _ _ _ | Fog _ _ _ => true
  | _ => false
  end.

(** The call of the mesh writer that [export_main] makes for a derived
    object, if it makes one. *)
Definition mesh_call (use_apply_modifiers : bool) (dob : derived_object)
    : option (object * mesh_id * decomposed) :=
  let call (me : option mesh_id) :=
    (λ me, (dob_object dob, me, mtx_decompose (dob_matrix dob))) <$> me in
  match dob_data dob with
  | MESH data is_modified to_mesh =>
      call (if use_apply_modifiers && is_modified then to_mesh else Some data)
  | CURVE to_mesh | SURF to_mesh | FONT to_mesh => call to_mesh
  | _ => None
  end.

(** The derived objects [export_main] goes through, in order. *)
Definition exported_derived (use_selection : bool) (objects : list main_object)
    : list derived_object :=
  exported_objects use_selection objects ≫= λ o, default [] (derived o).

(** The calls of the mesh writer in one export, in order. *)
Definition mesh_calls (use_apply_modifiers use_selection : bool)
    (objects : list main_object) : list (object * mesh_id * decomposed) :=
  omap (mesh_call use_apply_modifiers) (exported_derived use_selection objects).

(** * Properties *)

(** ** Identifier sanitizers *)

Lemma replace_nonempty old s : s ≠ "" → replace old "_" s ≠ "".
Proof.
  destruct s as [|c s]; [done|]. intros _. unfold replace. cbn [replace_go].
  destruct (String.prefix old (String c s)); [simpl|]; discriminate.
Qed.

Lemma foldl_replace_nonempty bads s :
  s ≠ "" → foldl (λ acc bad, replace bad "_" acc) s bads ≠ "".
Proof.
  revert s. induction bads as [|bad bads IH]; intros s Hs; simpl; [done|].
  apply IH. by apply replace_nonempty.
Qed.

Lemma append_nonempty_r (a b : string) : b ≠ "" → a +:+ b ≠ "".
Proof. destruct a; simpl; [done|]. discriminate. Qed.

(** C10: [clean_str] raises on the empty name (whatever the prefix) and
    returns an identifier for every non-empty name. *)
Theorem clean_str_total_on_nonempty (prefix : string) :
  clean_str "" prefix = None ∧
  ∀ name, name ≠ "" → ∃ r, clean_str name prefix = Some r.
Proof.
  split; [reflexivity|].
  intros name Hname. unfold clean_str.
  destruct (is_reserved name).
  - destruct (prefix +:+ name) eqn:E.
    + by apply append_nonempty_r in E.
    + eauto.
  - destruct name; [done|]. eauto.
Qed.

Lemma clean_str_total_on_nonempty_witness :
  clean_str "" "rsvd_" = None ∧ ∃ r, clean_str "Group" "rsvd_" = Some r.
Proof.
  split.
  - apply (clean_str_total_on_nonempty "rsvd_").
  - apply (clean_str_total_on_nonempty "rsvd_"). discriminate.
Defined.




(** ** Material translation *)

Lemma clamp_channel_range (c : Qc) : 0 ≤ clamp_channel c ∧ clamp_channel c ≤ 1.
Proof.
  unfold clamp_channel, py_max, py_min.
  destruct (decide (1 < c)) as [H1|H1].
  - destruct (decide (1 < 0)) as [H0|H0]; [done|]. split; done.
  - apply Qcnot_lt_le in H1.
    destruct (decide (c < 0)) as [H0|H0]; [done|].
    apply Qcnot_lt_le in H0. done.
Qed.

Lemma clamp_color_range (col : vec3) : in_unit_range (clamp_color col).
Proof.
  destruct col as [[r g] b]. simpl.
  repeat split; apply clamp_channel_range.
Qed.

Lemma Qcdiv_nonzero (a b : Qc) : a ≠ 0 → b ≠ 0 → a / b ≠ 0.
Proof.
  intros Ha Hb E. unfold Qcdiv in E.
  apply Qcmult_integral in E as [E|E]; [done|].
  pose proof (Qcmult_inv_r b Hb) as Hinv.
  rewrite E, Qcmult_0_r in Hinv. apply (f_equal this) in Hinv. discriminate.
Qed.

Lemma py_div_Some (a b : Qc) : b ≠ 0 → py_div a b = Some (a / b).
Proof. intros Hb. unfold py_div. by destruct (decide (b = 0)). Qed.

Lemma py_div_None (a b : Qc) : b = 0 → py_div a b = None.
Proof. intros Hb. unfold py_div. by destruct (decide (b = 0)). Qed.

Lemma specColor_Some (mat : material) :
  specular_intensity mat + f0_001 ≠ 0 →
  specColor mat =
    Some (map3 (λ c, (c + f0_001) / (f1_25 / (specular_intensity mat + f0_001)))
               (specular_color mat)).
Proof.
  intros Hsi. unfold specColor.
  assert (Hd : f1_25 / (specular_intensity mat + f0_001) ≠ 0).
  { apply Qcdiv_nonzero; [|done]. intros E. apply (f_equal this) in E. discriminate. }
  destruct (specular_color mat) as [[r g] b]. cbn [map3 option_map3].
  rewrite !(py_div_Some _ _ Hsi). cbn [mbind option_bind].
  rewrite !(py_div_Some _ _ Hd). reflexivity.
Qed.

Lemma specColor_None (mat : material) :
  specular_intensity mat + f0_001 = 0 → specColor mat = None.
Proof.
  intros Hsi. unfold specColor.
  destruct (specular_color mat) as [[r g] b]. cbn [map3 option_map3].
  rewrite !(py_div_None _ _ Hsi). reflexivity.
Qed.

(** What [writeMaterial] does on a material that is not tagged yet. *)
Lemma writeMaterial_untagged sc (mat : mat_id) material_id w tags :
  AMaterial mat ∉ tags →
  writeMaterial sc mat material_id w tags =
    match material_values (material_data sc mat) w with
    | Some f =>
        (Some (), {[AMaterial mat]} ∪ tags, [Material_DEF mat ("MA_" +:+ material_id) f])
    | None => (None, {[AMaterial mat]} ∪ tags, [])
    end.
Proof.
  intros Htag. unfold writeMaterial.
  cbv [mbind M_bind get_tag set_tag fw lift].
  rewrite bool_decide_eq_false_2 by done.
  destruct (material_values _ _); reflexivity.
Qed.

Lemma writeMaterial_tagged sc (mat : mat_id) material_id w tags :
  AMaterial mat ∈ tags →
  writeMaterial sc mat material_id w tags =
    (Some (), tags, [Material_USE mat ("MA_" +:+ material_id)]).
Proof.
  intros Htag. unfold writeMaterial.
  cbv [mbind M_bind get_tag set_tag fw lift].
  rewrite bool_decide_eq_true_2 by done. reflexivity.
Qed.

Lemma writeMaterial_DEF_inv sc (mat : mat_id) material_id w tags m' id f :
  Material_DEF m' id f ∈ (writeMaterial sc mat material_id w tags).2 →
  (AMaterial mat ∉ tags) ∧ m' = mat ∧ id = "MA_" +:+ material_id ∧
  material_values (material_data sc mat) w = Some f.
Proof.
  destruct (decide (AMaterial mat ∈ tags)) as [Hin|Hnin].
  - rewrite writeMaterial_tagged by done. simpl.
    intros Hel. apply list_elem_of_singleton in Hel. discriminate.
  - rewrite writeMaterial_untagged by done.
    destruct (material_values _ _) as [f'|]; simpl; intros Hel.
    + apply list_elem_of_singleton in Hel. by simplify_eq.
    + by apply elem_of_nil in Hel.
Qed.

(** C5: a shadeless material is written with ambientIntensity 1, shininess
    0, and with the clamped diffuse colour as diffuse, specular and emissive
    colour; such a definition is written whenever the material is not tagged
    yet and the specular division is defined. *)
Theorem writeMaterial_shadeless sc (mat : mat_id) material_id w tags :
  use_shadeless (material_data sc mat) = true →
  (∀ m' id f,
     Material_DEF m' id f ∈ (writeMaterial sc mat material_id w tags).2 →
     mf_ambient f = 1 ∧ mf_shininess f = 0 ∧
     mf_diffuse f = clamp_color (diffuse_color (material_data sc mat)) ∧
     mf_specular f = mf_diffuse f ∧ mf_emissive f = mf_diffuse f) ∧
  ((AMaterial mat ∉ tags) →
   specular_intensity (material_data sc mat) + f0_001 ≠ 0 →
   ∃ f, writeMaterial sc mat material_id w tags =
          (Some (), {[AMaterial mat]} ∪ tags, [Material_DEF mat ("MA_" +:+ material_id) f])).
Proof.
  intros Hsh. split.
  - intros m' id f Hel.
    apply writeMaterial_DEF_inv in Hel as (_ & _ & _ & Hval).
    unfold material_values in Hval. rewrite Hsh in Hval.
    destruct (specColor _) as [sp|]; [|done]. simpl in Hval.
    injection Hval as <-. cbn. repeat split; reflexivity.
  - intros Htag Hsi. rewrite writeMaterial_untagged by done.
    unfold material_values. rewrite (specColor_Some _ Hsi), Hsh. simpl. eauto.
Qed.

Lemma ex_specular_intensity_ok (name : string) (shadeless : bool) :
  specular_intensity (ex_material name shadeless) + f0_001 ≠ 0.
Proof. intros E. apply (f_equal this) in E. vm_compute in E. discriminate. Qed.

Lemma writeMaterial_shadeless_witness :
  ∃ f, writeMaterial ex_scene 1 "Flat" (Some ex_world) ∅ =
         (Some (), {[AMaterial 1]} ∪ ∅, [Material_DEF 1 ("MA_" +:+ "Flat") f]).
Proof.
  apply (writeMaterial_shadeless ex_scene 1 "Flat" (Some ex_world) ∅).
  - reflexivity.
  - apply not_elem_of_empty.
  - apply ex_specular_intensity_ok.
Defined.

(** C4, as stated, fails: with a world, the emissive colour written is not
    the one obtained from a diffuse-weighted world ambient term. *)
Lemma writeMaterial_emissive_not_diffuse_weighted :
  ∃ f, writeMaterial ex_scene 0 "Mat" (Some ex_world) ∅ =
         (Some (), {[AMaterial 0]} ∪ ∅, [Material_DEF 0 ("MA_" +:+ "Mat") f]) ∧
       mf_emissive f ≠
         clamp_color (emissive_as_claimed (material_data ex_scene 0) (Some ex_world)).
Proof.
  rewrite writeMaterial_untagged by apply not_elem_of_empty.
  change (material_data ex_scene 0) with (ex_material "Mat" false).
  unfold material_values.
  rewrite (specColor_Some _ (ex_specular_intensity_ok "Mat" false)).
  eexists. split; [reflexivity|]. cbn [mf_emissive].
  intros E. apply (f_equal (λ c : vec3, this c.1.1)) in E. vm_compute in E. discriminate.
Qed.

(** C4, amended: for a material that is not tagged yet and not shadeless,
    [writeMaterial] writes ambient/3, hardness/512, 1 - alpha, the specular
    colour (c + 0.001)/(1.25/(intensity + 0.001)) and the emissive colour
    ((diffuse * emit) + worldAmbientTerm)/2 per channel, where the world
    term is the world's ambient colour times the material's ambient factor
    times 2 (0 without a world); the three colours are clamped to [0,1]. *)
Theorem writeMaterial_fields sc (mat : mat_id) material_id w tags :
  let m := material_data sc mat in
  (AMaterial mat ∉ tags) →
  use_shadeless m = false →
  specular_intensity m + f0_001 ≠ 0 →
  ∃ f, writeMaterial sc mat material_id w tags =
         (Some (), {[AMaterial mat]} ∪ tags, [Material_DEF mat ("MA_" +:+ material_id) f]) ∧
       mf_ambient f = ambient m / f3 ∧
       mf_shininess f = Qc_of_Z (specular_hardness m) / f512 ∧
       mf_transparency f = 1 - alpha m ∧
       mf_diffuse f = clamp_color (diffuse_color m) ∧
       mf_specular f =
         clamp_color (map3 (λ c, (c + f0_001) / (f1_25 / (specular_intensity m + f0_001)))
                           (specular_color m)) ∧
       (let worldAmbientTerm :=
          match w with
          | Some w => map3 (λ c, c * ambient m * f2) (ambient_color w)
          | None => (0, 0, 0)
          end in
        let '(dr, dg, db) := diffuse_color m in
        let '(tr, tg, tb) := worldAmbientTerm in
        mf_emissive f =
          clamp_color ((dr * emit m + tr) / f2, (dg * emit m + tg) / f2,
                       (db * emit m + tb) / f2)) ∧
       in_unit_range (mf_diffuse f) ∧ in_unit_range (mf_specular f) ∧
       in_unit_range (mf_emissive f).
Proof.
  intros m Htag Hsh Hsi. rewrite writeMaterial_untagged by done.
  unfold material_values. fold m. rewrite (specColor_Some _ Hsi), Hsh.
  eexists. split; [reflexivity|]. cbn [mf_ambient mf_shininess mf_transparency
    mf_diffuse mf_specular mf_emissive].
  repeat split; try apply clamp_color_range.
  unfold emitColor, ambiColor. fold m.
  destruct (diffuse_color m) as [[dr dg] db].
  destruct w as [w|]; [destruct (ambient_color w) as [[wr wg] wb]|]; reflexivity.
Qed.

Lemma writeMaterial_fields_witness :
  ∃ f, writeMaterial ex_scene 0 "Mat" (Some ex_world) ∅ =
         (Some (), {[AMaterial 0]} ∪ ∅, [Material_DEF 0 ("MA_" +:+ "Mat") f]) ∧
       mf_ambient f = ambient (material_data ex_scene 0) / f3.
Proof.
  destruct (writeMaterial_fields ex_scene 0 "Mat" (Some ex_world) ∅) as (f & Hw & Ha & _).
  - apply not_elem_of_empty.
  - reflexivity.
  - apply ex_specular_intensity_ok.
  - exists f. split; [exact Hw | exact Ha].
Defined.

(** ** The writer monad *)

Lemma M_bind_unfold {A B} (m : M A) (f : A → M B) tags :
  (m ≫= f) tags =
    match m tags with
    | (Some x, tags1, out1) =>
        match f x tags1 with (r, tags2, out2) => (r, tags2, out1 ++ out2) end
    | (None, tags1, out1) => (None, tags1, out1)
    end.
Proof. reflexivity. Qed.

Lemma lift_Some_bind {A B} (x : A) (f : A → M B) tags :
  (lift (Some x) ≫= f) tags = f x tags.
Proof. rewrite M_bind_unfold. simpl. by destruct (f x tags) as [[r t] o]. Qed.

Lemma lift_None_bind {A B} (f : A → M B) tags :
  (lift None ≫= f) tags = (None, tags, []).
Proof. reflexivity. Qed.

Lemma mret_bind {A B} (x : A) (f : A → M B) tags :
  (mret x ≫= f) tags = f x tags.
Proof. rewrite M_bind_unfold. simpl. by destruct (f x tags) as [[r t] o]. Qed.


Lemma emits_ret {A} P (x : A) : emits P (mret x).
Proof. intros tags. constructor. Qed.

Lemma emits_lift {A} P (o : option A) : emits P (lift o).
Proof. intros tags. constructor. Qed.

Lemma emits_get_tag P a : emits P (get_tag a).
Proof. intros tags. constructor. Qed.

Lemma emits_set_tag P a : emits P (set_tag a).
Proof. intros tags. constructor. Qed.

Lemma emits_fw (P : markup → Prop) e : P e → emits P (fw e).
Proof. intros He tags. by repeat constructor. Qed.

Lemma emits_bind {A B} P (m : M A) (f : A → M B) :
  emits P m → (∀ x, emits P (f x)) → emits P (m ≫= f).
Proof.
  intros Hm Hf tags. rewrite M_bind_unfold.
  specialize (Hm tags). destruct (m tags) as [[[x|] t1] o1]; [|done].
  specialize (Hf x t1). destruct (f x t1) as [[r t2] o2]. simpl in *.
  by apply Forall_app.
Qed.

Lemma emits_when P b (m : M unit) : emits P m → emits P (when b m).
Proof. destruct b; [done|]. intros _. apply emits_ret. Qed.

Ltac emits_step :=
  first
    [ apply emits_bind; [|intros ?]
    | apply emits_ret
    | apply emits_lift
    | apply emits_get_tag
    | apply emits_set_tag
    | apply emits_when
    | apply emits_fw; done
    | match goal with
      | |- emits _ (if ?b then _ else _) => destruct b
      | |- emits _ (match ?x with _ => _ end) => destruct x
      end ].

(** ** Wrappers and the empty mesh *)

Section writers_emit.
Context (sc : scene) `{SetIter} (use_triangulate use_normals : bool).

Lemma writeImageTexture_inner image : emits is_inner (writeImageTexture sc image).
Proof. unfold writeImageTexture. repeat emits_step. Qed.

Lemma writeMaterial_inner mat material_id w :
  emits is_inner (writeMaterial sc mat material_id w).
Proof. unfold writeMaterial. repeat emits_step. Qed.

Lemma writeTextureTransform_inner me mi image :
  emits is_inner (writeTextureTransform sc me mi image).
Proof. unfold writeTextureTransform. repeat emits_step. Qed.

Lemma writeIndexedTriangleSet_inner me sm uvs cols fg :
  emits is_inner (writeIndexedTriangleSet use_normals me sm uvs cols fg).
Proof. unfold writeIndexedTriangleSet. repeat emits_step. Qed.

Lemma writeIndexedFaceSetGeometry_inner me nm sm uvs cols fg icw :
  emits is_inner (writeIndexedFaceSetGeometry use_normals me nm sm uvs cols fg icw).
Proof. unfold writeIndexedFaceSetGeometry. repeat emits_step. Qed.

Lemma write_group_inner me nm w icw g :
  emits is_inner (write_group sc use_triangulate use_normals me nm w icw g).
Proof.
  unfold write_group. destruct g as [[mi image] [|i fg]]; [apply emits_ret|].
  repeat first
    [ apply writeImageTexture_inner | apply writeMaterial_inner
    | apply writeTextureTransform_inner | apply writeIndexedTriangleSet_inner
    | apply writeIndexedFaceSetGeometry_inner | emits_step ].
Qed.

Lemma write_groups_inner me nm w icw items :
  emits is_inner (write_groups sc use_triangulate use_normals me nm w icw items).
Proof.
  revert icw. induction items as [|g items IH]; intros icw; simpl.
  - apply emits_ret.
  - apply emits_bind; [apply write_group_inner|]. intros x. apply IH.
Qed.
End writers_emit.


Lemma foldl_orb_existsb {A} (p : A → bool) (l : list A) (b : bool) :
  foldl (λ acc x, acc || p x) b l = b || existsb p l.
Proof.
  revert b. induction l as [|x l IH]; intros b; simpl.
  - by rewrite orb_false_r.
  - rewrite IH. by rewrite orb_assoc.
Qed.

Lemma texface_flags_existsb (me : mesh) data :
  uv_textures_active me = Some data →
  texface_flags me =
    (existsb use_halo data, existsb use_billboard data, existsb use_collision data).
Proof. intros E. unfold texface_flags. rewrite E. by rewrite !foldl_orb_existsb. Qed.

(** C8: for a mesh without faces the mesh writer writes nothing and leaves
    the tags alone; when the object and the mesh have non-empty names it
    returns normally, and the export loop goes on with the remaining
    objects as if the object were absent. *)
Theorem writeIndexedFaceSet_no_faces sc `{SetIter} use_triangulate use_normals
    (ob : object) (m : mesh_id) mtx w tags :
  faces (mesh_data sc m) = [] →
  (writeIndexedFaceSet sc use_triangulate use_normals ob m mtx w tags).2 = [] ∧
  (writeIndexedFaceSet sc use_triangulate use_normals ob m mtx w tags).1.2 = tags ∧
  (ob_name ob ≠ "" → mesh_name (mesh_data sc m) ≠ "" →
   writeIndexedFaceSet sc use_triangulate use_normals ob m mtx w tags = (Some (), tags, []) ∧
   ∀ rest,
     export_objects sc use_triangulate use_normals ((ob, m, mtx) :: rest) w tags =
     export_objects sc use_triangulate use_normals rest w tags).
Proof.
  intros Hfaces.
  assert (Hrun : ∀ tags,
    writeIndexedFaceSet sc use_triangulate use_normals ob m mtx w tags =
      (clean_str (ob_name ob) "rsvd_" ≫= λ _,
         clean_str (mesh_name (mesh_data sc m)) "rsvd_" ≫= λ _, Some (), tags, [])).
  { intros t. unfold writeIndexedFaceSet.
    destruct (clean_str (ob_name ob) "rsvd_") as [sn|]; [|reflexivity].
    rewrite lift_Some_bind.
    destruct (clean_str (mesh_name (mesh_data sc m)) "rsvd_") as [mn|]; [|reflexivity].
    rewrite lift_Some_bind, Hfaces. reflexivity. }
  rewrite !Hrun. split; [done|]. split; [done|]. intros Hob Hme.
  destruct (proj2 (clean_str_total_on_nonempty "rsvd_") _ Hob) as [sn Hsn].
  destruct (proj2 (clean_str_total_on_nonempty "rsvd_") _ Hme) as [mn Hmn].
  split.
  - by rewrite Hsn, Hmn.
  - intros rest. unfold export_objects. cbn [for_each].
    rewrite M_bind_unfold, Hrun, Hsn, Hmn.
    simpl. by destruct (for_each rest _ tags) as [[r t] o].
Qed.

Lemma writeIndexedFaceSet_no_faces_witness :
  writeIndexedFaceSet ex_scene (H := SetIter_first) true false
    {| ob_name := "e" |} 2 ex_mtx None ∅ = (Some (), ∅, []).
Proof.
  apply (writeIndexedFaceSet_no_faces ex_scene (H := SetIter_first) true false
           {| ob_name := "e" |} 2 ex_mtx None ∅); [reflexivity|discriminate|discriminate].
Defined.

(** C7: a mesh with faces whose active UV layer carries a halo, billboard
    or collision flag is written as one wrapper around its transform: the
    output starts with the opening wrapper (Billboard "0 0 0" for halo, else
    Billboard "0 1 0" for billboard, else Collision) and the transform; only
    inner nodes follow; and when the writer returns, the transform and the
    same wrapper are closed at the end. *)
Theorem writeIndexedFaceSet_wrapper sc `{SetIter} use_triangulate use_normals
    (ob : object) (m : mesh_id) mtx w tags data shape_name :
  let me := mesh_data sc m in
  faces me ≠ [] →
  uv_textures_active me = Some data →
  clean_str (ob_name ob) "rsvd_" = Some shape_name →
  is_Some (clean_str (mesh_name me) "rsvd_") →
  existsb use_halo data || existsb use_billboard data || existsb use_collision data = true →
  let opening :=
    if existsb use_halo data then Billboard_open "0 0 0"
    else if existsb use_billboard data then Billboard_open "0 1 0"
    else Collision_open in
  let closing :=
    if existsb use_halo data || existsb use_billboard data then Billboard_close
    else Collision_close in
  ∃ inner, Forall is_inner inner ∧
    let '(r, _, out) := writeIndexedFaceSet sc use_triangulate use_normals ob m mtx w tags in
    out = [opening; Transform_open shape_name mtx] ++ inner ++
          match r with Some _ => [Transform_close; closing] | None => [] end.
Proof.
  intros me Hfaces Huv Hshape [mesh_name_x3d Hmesh] Hflags opening closing.
  unfold writeIndexedFaceSet. fold me.
  rewrite Hshape, lift_Some_bind, Hmesh, lift_Some_bind.
  destruct (faces me) as [|f0 fs] eqn:Hf; [done|].
  rewrite (texface_flags_existsb me data Huv).
  set (G := λ tag : bool,
         if tag then fw (Group_USE m ("G_" +:+ mesh_name_x3d))
         else
           set_tag (AMesh m);;
           fw (Group_DEF m ("G_" +:+ mesh_name_x3d));;
           items ← lift (face_groups_items sc me);
           write_groups sc use_triangulate use_normals me mesh_name_x3d w false items;;
           fw Group_close).
  assert (HG : ∀ tag, emits is_inner (G tag)).
  { intros tag. unfold G. destruct tag; [by apply emits_fw|].
    repeat first [apply write_groups_inner | emits_step]. }
  assert (Hrun : ∀ opening' closing' nodes,
    close_wrapper nodes = fw closing' →
    ∃ inner, Forall is_inner inner ∧
      let '(r, _, out) :=
        ((fw opening';; mret nodes) ≫= λ nodes,
           fw (Transform_open shape_name mtx);;
           tag ← get_tag (AMesh m);
           G tag;; fw Transform_close;; close_wrapper nodes) tags in
      out = [opening'; Transform_open shape_name mtx] ++ inner ++
            match r with Some _ => [Transform_close; closing'] | None => [] end).
  { intros opening' closing' nodes Hclose.
    cbv [mbind M_bind mret M_ret get_tag]. cbn [fw].
    rewrite Hclose.
    specialize (HG (bool_decide (AMesh m ∈ tags)) tags).
    destruct (G (bool_decide (AMesh m ∈ tags)) tags) as [[[[]|] t1] o1];
      cbn [fw app snd] in *; exists o1; split; try done.
    by rewrite !app_nil_r. }
  subst opening closing.
  destruct (existsb use_halo data); [by apply Hrun|].
  destruct (existsb use_billboard data); [by apply Hrun|].
  destruct (existsb use_collision data); [by apply Hrun|done].
Qed.

Lemma writeIndexedFaceSet_wrapper_witness :
  ∃ inner, Forall is_inner inner ∧
    let '(r, _, out) :=
      writeIndexedFaceSet ex_scene (H := SetIter_first) true false
        {| ob_name := "a" |} 0 ex_mtx None ∅ in
    out = [Billboard_open "0 0 0"; Transform_open "a" ex_mtx] ++ inner ++
          match r with Some _ => [Transform_close; Billboard_close] | None => [] end.
Proof.
  apply (writeIndexedFaceSet_wrapper ex_scene (H := SetIter_first) true false
           {| ob_name := "a" |} 0 ex_mtx None ∅
           [ex_uv_face [(0, 0); (1, 0); (1, 1); (0, 1)] None true] "a").
  - discriminate.
  - reflexivity.
  - reflexivity.
  - eexists. reflexivity.
  - reflexivity.
Defined.

(** ** Dictionaries *)

Section dict_facts.
Context {K V : Type} `{EqDecision K}.
Implicit Types (d : list (K * V)) (k : K) (v : V).

Lemma dict_get_is_Some k d : is_Some (dict_get k d) ↔ k ∈ d.*1.
Proof.
  induction d as [|[k' v'] d IH]; simpl.
  - split; [intros [? ?]; discriminate|intros Hk; inversion Hk].
  - destruct (decide (k = k')) as [->|Hne].
    + split; [intros _; left|eauto].
    + rewrite IH. split; [by right|].
      intros [?|?]%elem_of_cons; [done|done].
Qed.

Lemma dict_set_keys k v d :
  (dict_set k v d).*1 = if decide (k ∈ d.*1) then d.*1 else d.*1 ++ [k].
Proof.
  induction d as [|[k' v'] d IH]; csimpl.
  - done.
  - destruct (decide (k = k')) as [->|Hne]; csimpl.
    + destruct (decide (k' ∈ k' :: d.*1)) as [_|Hk]; [done|]. destruct Hk. left.
    + rewrite IH.
      destruct (decide (k ∈ d.*1)) as [Hd|Hd],
               (decide (k ∈ k' :: d.*1)) as [Hin|Hnin]; try done.
      * destruct Hnin. by right.
      * apply elem_of_cons in Hin as [?|?]; done.
Qed.

Lemma dict_set_keys_present k v d : k ∈ d.*1 → (dict_set k v d).*1 = d.*1.
Proof. intros. rewrite dict_set_keys. by destruct (decide _). Qed.

Lemma dict_set_elem k k' v d : k' ∈ (dict_set k v d).*1 ↔ k' = k ∨ k' ∈ d.*1.
Proof.
  rewrite dict_set_keys. destruct (decide (k ∈ d.*1)).
  - split; [by right|]. by intros [->|?].
  - rewrite elem_of_app, list_elem_of_singleton. tauto.
Qed.

Lemma dict_set_NoDup k v d : NoDup d.*1 → NoDup (dict_set k v d).*1.
Proof.
  intros Hd. rewrite dict_set_keys. destruct (decide (k ∈ d.*1)); [done|].
  apply list.NoDup_app. split; [done|]. split; [|apply NoDup_singleton].
  intros x Hx ->%list_elem_of_singleton. done.
Qed.

Lemma dict_set_Forall (P : V → Prop) k v d :
  P v → Forall (λ g, P g.2) d → Forall (λ g, P g.2) (dict_set k v d).
Proof.
  intros Hv. induction 1 as [|[k' v'] d Hx Hd IH]; simpl.
  - by repeat constructor.
  - destruct (decide (k = k')); constructor; done.
Qed.
End dict_facts.

Lemma dict_set_append_concat {K} `{EqDecision K} (k : K) (i : nat) v
    (d : list (K * list nat)) :
  dict_get k d = Some v →
  concat (dict_set k (v ++ [i]) d).*2 ≡ₚ i :: concat d.*2.
Proof.
  induction d as [|[k' v'] d IH]; csimpl; [done|].
  destruct (decide (k = k')) as [->|Hne]; csimpl.
  - intros [= ->]. rewrite <- app_assoc. simpl. symmetry. apply Permutation_middle.
  - intros Hget. rewrite (IH Hget). symmetry. apply Permutation_middle.
Qed.




(** ** Face grouping *)

Lemma face_groups_init_inner (mi : nat) (unique : list (option img_id))
    (d0 : face_group_dict) :
  let d := foldl (λ d image, dict_set (mi, image) [] d) d0 unique in
  (NoDup d0.*1 → NoDup d.*1) ∧
  (Forall (λ g, g.2 = []) d0 → Forall (λ g, g.2 = []) d) ∧
  (∀ k, k ∈ d.*1 ↔ k ∈ d0.*1 ∨ ∃ image, image ∈ unique ∧ k = (mi, image)).
Proof.
  revert d0. induction unique as [|image unique IH]; intros d0; simpl.
  - split; [done|]. split; [done|]. intros k. split; [by left|].
    intros [?|(image & Himg & _)]; [done|inversion Himg].
  - destruct (IH (dict_set (mi, image) [] d0)) as (IH1 & IH2 & IH3).
    split; [|split].
    + intros Hd. by apply IH1, dict_set_NoDup.
    + intros Hd. by apply IH2, (dict_set_Forall (λ v, v = [])).
    + intros k. rewrite IH3, dict_set_elem. split.
      * intros [[->|?]|(image' & Himg & ->)]; eauto.
        -- right. exists image. split; [left|done].
        -- right. exists image'. split; [by right|done].
      * intros [?|(image' & Himg & ->)]; [by left; right|].
        apply elem_of_cons in Himg as [->|Himg]; [by left; left|].
        right. eauto.
Qed.

Lemma face_groups_init_spec (n : nat) (unique : list (option img_id)) :
  let d := face_groups_init n unique in
  NoDup d.*1 ∧ Forall (λ g, g.2 = []) d ∧
  (∀ k, k ∈ d.*1 ↔ (k.1 < n)%nat ∧ k.2 ∈ unique).
Proof.
  unfold face_groups_init.
  assert (Hgen : ∀ (ms : list nat) (d0 : face_group_dict),
    let d := foldl (λ d material_index,
                      foldl (λ d image, dict_set (material_index, image) [] d) d unique)
                   d0 ms in
    (NoDup d0.*1 → NoDup d.*1) ∧
    (Forall (λ g, g.2 = []) d0 → Forall (λ g, g.2 = []) d) ∧
    (∀ k, k ∈ d.*1 ↔ k ∈ d0.*1 ∨ (k.1 ∈ ms ∧ k.2 ∈ unique))).
  { induction ms as [|mi ms IH]; intros d0; simpl.
    - split; [done|]. split; [done|]. intros k. split; [by left|].
      intros [?|[Hk _]]; [done|inversion Hk].
    - destruct (face_groups_init_inner mi unique d0) as (I1 & I2 & I3).
      destruct (IH (foldl (λ d image, dict_set (mi, image) [] d) d0 unique))
        as (IH1 & IH2 & IH3).
      split; [|split]; [by auto|by auto|].
      intros k. rewrite IH3, I3. split.
      + intros [[?|(image & Himg & ->)]|[Hk1 Hk2]]; [by left| |].
        * right. split; [left|done].
        * right. split; [by right|done].
      + intros [?|[Hk1 Hk2]]; [by left; left|].
        apply elem_of_cons in Hk1 as [Hk1|Hk1].
        * left. right. exists k.2. split; [done|]. destruct k; simpl in *; by subst.
        * right. done. }
  destruct (Hgen (seq 0 n) []) as (H1 & H2 & H3).
  split; [apply H1; constructor|]. split; [apply H2; constructor|].
  intros k. rewrite H3, elem_of_seq. split.
  - intros [Hk|[Hk1 Hk2]]; [inversion Hk|]. split; [lia|done].
  - intros [Hk1 Hk2]. right. split; [lia|done].
Qed.

Lemma face_groups_fill_spec (d : face_group_dict) (l : list (nat * group_key)) :
  (∀ i k, (i, k) ∈ l → k ∈ d.*1) →
  ∃ d', face_groups_fill d l = Some d' ∧ d'.*1 = d.*1 ∧
        concat d'.*2 ≡ₚ concat d.*2 ++ l.*1.
Proof.
  revert d. induction l as [|[i k] l IH]; intros d Hkeys; csimpl.
  - exists d. by rewrite app_nil_r.
  - assert (Hk : k ∈ d.*1) by (apply (Hkeys i); left).
    unfold face_groups_append.
    destruct (proj2 (dict_get_is_Some k d) Hk) as [v Hv]. rewrite Hv. csimpl.
    destruct (IH (dict_set k (v ++ [i]) d)) as (d' & Hfill & Hkeys' & Hperm).
    { intros i' k' Hin. rewrite dict_set_keys_present by done.
      apply (Hkeys i'). by right. }
    exists d'. split; [done|]. split.
    + by rewrite Hkeys', dict_set_keys_present.
    + rewrite Hperm, (dict_set_append_concat k i v d Hv). csimpl.
      apply Permutation_middle.
Qed.

Section grouping_facts.
Context (sc : scene).

Lemma sort_insert_perm x (l : face_group_dict) : sort_insert sc x l ≡ₚ x :: l.
Proof.
  induction l as [|y l IH]; simpl; [done|].
  destruct (sort_key_le _ _); [done|]. rewrite IH. apply Permutation_swap.
Qed.

Lemma sort_groups_perm (l : face_group_dict) : sort_groups sc l ≡ₚ l.
Proof.
  induction l as [|x l IH]; simpl; [done|].
  by rewrite sort_insert_perm, IH.
Qed.
End grouping_facts.


Section grouping_partition.
Context (sc : scene) `{SetIter}.


End grouping_partition.



(** C3 at a mesh whose two faces use two image datablocks of the same
    name: both buckets have the sort key (0, "tex"), and the order in which
    the two groups are emitted is the order in which the set of images is
    iterated. *)
Theorem face_groups_order_follows_set_order :
  sort_key ex_scene (0%nat, Some 0%nat) = sort_key ex_scene (0%nat, Some 1%nat) ∧
  emitted_groups ex_scene (H := SetIter_first) ex_two =
    Some [((0, Some 0), [0]); ((0, Some 1), [1])]%nat ∧
  emitted_groups ex_scene (H := SetIter_last) ex_two =
    Some [((0, Some 1), [1]); ((0, Some 0), [0])]%nat.
Proof. repeat split. Qed.

(** ** Definitions and references *)




















Section writers_respect.
Context (sc : scene) `{SetIter} (use_triangulate use_normals : bool).










End writers_respect.


Lemma emits_bind_lift {A B} P (o : option A) (f : A → M B) :
  (∀ x, o = Some x → emits P (f x)) → emits P (lift o ≫= f).
Proof.
  intros Hf tags. destruct o as [x|].
  - rewrite lift_Some_bind. by apply Hf.
  - constructor.
Qed.


Section writers_ident.
Context (sc : scene) `{SetIter} (use_triangulate use_normals : bool).










End writers_ident.

(** ** Vertex welding *)

Lemma weld_ext_refl w : weld_ext w w.
Proof. by intros v k x. Qed.

Lemma weld_ext_trans w1 w2 w3 : weld_ext w1 w2 → weld_ext w2 w3 → weld_ext w1 w3.
Proof. intros H12 H23 v k x Hx. by apply H23, H12. Qed.

Lemma weld_init_inv C n_vertices n_faces :
  weld_inv C n_vertices (n_faces * 2) (weld_init n_vertices n_faces).
Proof.
  unfold weld_inv, weld_init, vh_lookup. simpl.
  split; [by rewrite length_replicate|]. split; [done|].
  split.
  { intros v k x Hx. destruct (replicate n_vertices ∅ !! v) as [d|] eqn:E; [|done].
    apply lookup_replicate in E as [-> _]. simpl in Hx. by rewrite lookup_empty in Hx. }
  split; [intros n x Hx; inversion Hx|]. split; [done|].
  split; [by rewrite length_replicate|].
  intros n tri [-> _]%lookup_replicate. done.
Qed.

Section weld_steps.
Context (key_fn : nat → nat → option vkey) (C : nat → vkey → Prop).
Context (n_vertices cap : nat).

Lemma weld_corner_spec i j v k w :
  weld_inv C n_vertices cap w →
  (v < n_vertices)%nat → key_fn i j = Some k → (j < 4)%nat → C v k →
  ∃ w' x, weld_corner key_fn i w (j, v) = Some w' ∧
    weld_inv C n_vertices cap w' ∧ weld_ext w w' ∧
    vh_lookup w' v k = Some x ∧
    temp_face w' = <[j := Some x]> (temp_face w) ∧
    face_tri_list w' = face_tri_list w ∧ totface w' = totface w.
Proof.
  intros (I1 & I2 & I3 & I4 & I5 & I6 & I7) Hv Hk Hj HC.
  unfold weld_corner. rewrite Hk. csimpl.
  destruct (lookup_lt_is_Some_2 (vertex_hash w) v) as [vh Hvh]; [lia|].
  rewrite Hvh. csimpl.
  destruct (vh !! k) as [x|] eqn:Hx.
  - unfold list_set. destruct (decide (j < length (temp_face w))%nat); [|lia]. csimpl.
    eexists _, x. split; [done|].
    assert (Hl : vh_lookup w v k = Some x) by (unfold vh_lookup; by rewrite Hvh).
    split.
    { unfold weld_inv. simpl. rewrite length_insert. done. }
    split; [by intros ? ? ?|]. split; [exact Hl|]. done.
  - unfold list_set. simpl. destruct (decide (j < length (temp_face w))%nat); [|lia]. csimpl.
    set (x := (k, v, totvert w)).
    assert (Hlook : ∀ v' k',
      (d ← <[v := <[k := x]> vh]> (vertex_hash w) !! v'; d !! k') =
      if decide (v' = v ∧ k' = k) then Some x else vh_lookup w v' k').
    { intros v' k'. unfold vh_lookup. destruct (decide (v' = v)) as [->|Hne].
      - rewrite list_lookup_insert_eq by lia. rewrite Hvh. csimpl.
        destruct (decide (k' = k)) as [->|Hnk].
        + rewrite lookup_insert_eq. by destruct (decide _) as [|[]].
        + rewrite lookup_insert_ne by done. destruct (decide _) as [[_ ?]|]; done.
      - rewrite list_lookup_insert_ne by done. destruct (decide _) as [[? _]|]; done. }
    eexists _, x. split; [done|].
    split; [|split; [|split]].
    + unfold weld_inv, vh_lookup. simpl.
      rewrite !length_insert, length_app. simpl.
      split; [done|]. split; [lia|]. split; [|split; [|done]].
      * intros v' k' y. rewrite Hlook. destruct (decide _) as [[-> ->]|_].
        -- intros [= <-]. split; [done|]. simpl.
           rewrite I2, lookup_app_r by lia. by rewrite Nat.sub_diag.
        -- intros Hy. destruct (I3 v' k' y Hy) as [Hy1 Hy2]. split; [done|].
           by apply lookup_app_l_Some.
      * intros n y Hy. apply lookup_app_Some in Hy as [Hy|[Hn Hy]].
        -- destruct (I4 n y Hy) as (Hn & Hyl & HyC). split; [done|]. split; [|done].
           rewrite Hlook. destruct (decide _) as [[Hv' Hk']|_]; [|done].
           rewrite Hv', Hk' in Hyl. unfold vh_lookup in Hyl. rewrite Hvh in Hyl.
           simpl in Hyl. congruence.
        -- apply list_lookup_singleton_Some in Hy as [Hn0 <-]. simpl.
           split; [lia|]. split; [|done].
           rewrite Hlook. by destruct (decide _) as [|[]].
    + intros v' k' y Hy. unfold vh_lookup at 1. simpl. rewrite Hlook.
      destruct (decide _) as [[-> ->]|_]; [|done].
      unfold vh_lookup in Hy. rewrite Hvh in Hy. simpl in Hy. congruence.
    + unfold vh_lookup. simpl. rewrite Hlook. by destruct (decide _) as [|[]].
    + done.
Qed.
End weld_steps.

Section weld_faces.
Context (key_fn : nat → nat → option vkey) (C : nat → vkey → Prop).
Context (n_vertices cap : nat) (faces_vertices : list (list nat)).

Lemma weld_corners_spec i fv s w :
  weld_inv C n_vertices cap w →
  (s + length fv ≤ 4)%nat →
  (∀ j v, fv !! j = Some v →
     (v < n_vertices)%nat ∧ ∃ k, key_fn i (s + j) = Some k ∧ C v k) →
  ∃ w', fold_opt (weld_corner key_fn i) w (zip (seq s (length fv)) fv) = Some w' ∧
    weld_inv C n_vertices cap w' ∧ weld_ext w w' ∧
    face_tri_list w' = face_tri_list w ∧ totface w' = totface w ∧
    (∀ j v k, fv !! j = Some v → key_fn i (s + j) = Some k →
       ∃ x, vh_lookup w' v k = Some x ∧ temp_face w' !! (s + j)%nat = Some (Some x)) ∧
    (∀ j', (j' < s)%nat → temp_face w' !! j' = temp_face w !! j').
Proof.
  revert s w. induction fv as [|v fv IH]; intros s w Hinv Hlen Hok;
    cbn [length seq zip_with fold_opt].
  - exists w. split; [done|]. split; [done|]. split; [apply weld_ext_refl|].
    split; [done|]. split; [done|]. split; [|done]. intros j v k Hj. inversion Hj.
  - destruct (Hok 0%nat v eq_refl) as (Hv & k & Hk & HC).
    rewrite Nat.add_0_r in Hk. simpl in Hlen.
    destruct (weld_corner_spec key_fn C n_vertices cap i s v k w Hinv Hv Hk ltac:(lia) HC)
      as (w1 & x & Hstep & Hinv1 & Hext1 & Hx & Htf & Hftl & Htot).
    rewrite Hstep. csimpl.
    destruct (IH (S s) w1 Hinv1 ltac:(lia)) as (w' & Hfold & Hinv' & Hext' & Hftl' & Htot' & Hc & Hlow).
    { intros j v' Hj. destruct (Hok (S j) v' Hj) as (Hv' & k' & Hk' & HC').
      split; [done|]. exists k'. split; [|done].
      by replace (S s + j)%nat with (s + S j)%nat by lia. }
    exists w'. split; [done|]. split; [done|].
    split; [by eapply weld_ext_trans|]. split; [congruence|]. split; [congruence|].
    split.
    + intros [|j] v' k' Hj Hk'.
      * simpl in Hj. injection Hj as <-. rewrite Nat.add_0_r in Hk'.
        assert (k' = k) as -> by congruence.
        exists x. split; [by apply Hext'|].
        rewrite Nat.add_0_r, Hlow by lia. rewrite Htf.
        apply list_lookup_insert_eq.
        destruct Hinv as (_ & _ & _ & _ & I5 & _). lia.
      * simpl in Hj. rewrite Nat.add_succ_r in Hk' |- *.
        by apply (Hc j v' k').
    + intros j' Hj'. rewrite Hlow by lia. rewrite Htf.
      apply list_lookup_insert_ne. lia.
Qed.

Lemma weld_tri_spec w a b c ya yb yc :
  weld_inv C n_vertices cap w → (totface w < cap)%nat →
  temp_face w !! a = Some ya → temp_face w !! b = Some yb → temp_face w !! c = Some yc →
  ∃ w', weld_tri w [a; b; c] = Some w' ∧ weld_inv C n_vertices cap w' ∧
    vertex_hash w' = vertex_hash w ∧ temp_face w' = temp_face w ∧
    totface w' = S (totface w) ∧
    face_tri_list w' = <[totface w := [ya; yb; yc]]> (face_tri_list w).
Proof.
  intros (I1 & I2 & I3 & I4 & I5 & I6 & I7) Hcap Ha Hb Hc.
  unfold weld_tri.
  destruct (lookup_lt_is_Some_2 (face_tri_list w) (totface w)) as [tri Htri]; [lia|].
  rewrite Htri. csimpl.
  pose proof (I7 _ _ Htri) as Hlen.
  destruct tri as [|t0 [|t1 [|t2 [|]]]]; try done.
  unfold enumerate. simpl. rewrite Ha. csimpl. rewrite Hb. csimpl. rewrite Hc. csimpl.
  eexists. split; [done|]. simpl. rewrite Nat.add_1_r.
  split; [|done].
  unfold weld_inv, vh_lookup. simpl. rewrite length_insert.
  repeat (split; [done|]).
  intros n tri [(_ & <- & _)|[_ Hn]]%list_lookup_insert_Some; [done|by eapply I7].
Qed.

Lemma corner_x_ext w w' i j x :
  weld_ext w w' → corner_x key_fn faces_vertices w i j = Some x → corner_x key_fn faces_vertices w' i j = Some x.
Proof.
  intros Hext. unfold corner_x.
  destruct (faces_vertices !! i) as [fv|]; [|done]. csimpl.
  destruct (fv !! j) as [v|]; [|done]. csimpl.
  destruct (key_fn i j) as [k|]; [|done]. csimpl. apply Hext.
Qed.

Lemma weld_face_spec w i :
  weld_inv C n_vertices cap w → face_ok key_fn C n_vertices faces_vertices i → (totface w + 2 ≤ cap)%nat →
  ∃ w', weld_face key_fn faces_vertices w i = Some w' ∧
    weld_inv C n_vertices cap w' ∧ weld_ext w w' ∧
    (∀ fv j, faces_vertices !! i = Some fv → (j < length fv)%nat →
       is_Some (corner_x key_fn faces_vertices w' i j)) ∧
    (totface w' ≤ totface w + 2)%nat ∧
    take (totface w') (face_tri_list w') =
      take (totface w) (face_tri_list w) ++ face_slots key_fn faces_vertices w' i.
Proof.
  intros Hinv (fv & Hfv & Hlen & Hok) Hcap.
  unfold weld_face. rewrite Hfv. csimpl. unfold enumerate.
  destruct (weld_corners_spec i fv 0 w Hinv ltac:(lia) Hok)
    as (w1 & Hfold & Hinv1 & Hext1 & Hftl1 & Htot1 & Hc & _).
  rewrite Hfold. csimpl.
  assert (Hcx : ∀ j, (j < length fv)%nat →
            ∃ x, corner_x key_fn faces_vertices w1 i j = Some x ∧ temp_face w1 !! j = Some (Some x)).
  { intros j Hj. destruct (lookup_lt_is_Some_2 fv j Hj) as [v Hv].
    destruct (Hok j v Hv) as (_ & k & Hk & _).
    destruct (Hc j v k Hv Hk) as (x & Hx & Htf).
    exists x. split; [|done]. unfold corner_x. rewrite Hfv. csimpl.
    rewrite Hv. csimpl. by rewrite Hk. }
  assert (Hsame : ∀ w', vertex_hash w' = vertex_hash w1 →
            ∀ j, corner_x key_fn faces_vertices w' i j = corner_x key_fn faces_vertices w1 i j).
  { intros w' Hvh j. unfold corner_x, vh_lookup. by rewrite Hvh. }
  assert (Hcap1 : (totface w1 + 2 ≤ cap)%nat) by lia.
  assert (Hlen1 : length (face_tri_list w1) = cap) by apply Hinv1.
  unfold face_slots. rewrite Hfv. unfold f_iter.
  destruct (decide (length fv = 4%nat)) as [H4|H4].
  - destruct (Hcx 0%nat ltac:(lia)) as (x0 & Hx0 & Ht0).
    destruct (Hcx 1%nat ltac:(lia)) as (x1 & Hx1 & Ht1).
    destruct (Hcx 2%nat ltac:(lia)) as (x2 & Hx2 & Ht2).
    destruct (Hcx 3%nat ltac:(lia)) as (x3 & Hx3 & Ht3).
    cbn [fold_opt].
    destruct (weld_tri_spec w1 0 1 2 _ _ _ Hinv1 ltac:(lia) Ht0 Ht1 Ht2)
      as (w2 & Hs2 & Hinv2 & Hvh2 & Htf2 & Htot2 & Hftl2).
    rewrite Hs2. csimpl. rewrite <- Htf2 in Ht0, Ht2, Ht3.
    destruct (weld_tri_spec w2 0 2 3 _ _ _ Hinv2 ltac:(lia) Ht0 Ht2 Ht3)
      as (w3 & Hs3 & Hinv3 & Hvh3 & Htf3 & Htot3 & Hftl3).
    rewrite Hs3. csimpl.
    assert (Hvh : vertex_hash w3 = vertex_hash w1) by congruence.
    exists w3. split; [done|]. split; [done|]. split; [|split; [|split]].
    + intros v k x Hx. apply Hext1 in Hx. unfold vh_lookup in *. by rewrite Hvh.
    + intros fv' j Hfv' Hj. assert (fv' = fv) as -> by congruence.
      rewrite (Hsame w3 Hvh). destruct (Hcx j Hj) as (x & -> & _). done.
    + lia.
    + csimpl. rewrite !(Hsame w3 Hvh), Hx0, Hx1, Hx2, Hx3.
      rewrite Htot3, Hftl3, Htot2, Hftl2.
      rewrite (take_S_r _ _ [Some x0; Some x2; Some x3]).
      2:{ apply list_lookup_insert_eq. rewrite length_insert. lia. }
      rewrite take_insert_ge by lia.
      rewrite (take_S_r _ _ [Some x0; Some x1; Some x2]).
      2:{ apply list_lookup_insert_eq. lia. }
      rewrite take_insert_ge by lia.
      rewrite Htot1, Hftl1. by rewrite <- (assoc_L app).
  - destruct (Hcx 0%nat ltac:(lia)) as (x0 & Hx0 & Ht0).
    destruct (Hcx 1%nat ltac:(lia)) as (x1 & Hx1 & Ht1).
    destruct (Hcx 2%nat ltac:(lia)) as (x2 & Hx2 & Ht2).
    cbn [fold_opt].
    destruct (weld_tri_spec w1 0 1 2 _ _ _ Hinv1 ltac:(lia) Ht0 Ht1 Ht2)
      as (w2 & Hs2 & Hinv2 & Hvh2 & Htf2 & Htot2 & Hftl2).
    rewrite Hs2. csimpl.
    exists w2. split; [done|]. split; [done|]. split; [|split; [|split]].
    + intros v k x Hx. apply Hext1 in Hx. unfold vh_lookup in *. by rewrite Hvh2.
    + intros fv' j Hfv' Hj. assert (fv' = fv) as -> by congruence.
      rewrite (Hsame w2 Hvh2). destruct (Hcx j Hj) as (x & -> & _). done.
    + lia.
    + csimpl. rewrite !(Hsame w2 Hvh2), Hx0, Hx1, Hx2.
      rewrite Htot2, Hftl2.
      rewrite (take_S_r _ _ [Some x0; Some x1; Some x2]).
      2:{ apply list_lookup_insert_eq. lia. }
      rewrite take_insert_ge by lia.
      by rewrite Htot1, Hftl1.
Qed.
End weld_faces.

Lemma NoDup_bounded_length (l : list nat) (n : nat) :
  NoDup l → (∀ i, i ∈ l → (i < n)%nat) → (length l ≤ n)%nat.
Proof.
  intros Hnd Hlt. rewrite <- (length_seq n 0).
  apply submseteq_length, NoDup_submseteq; [done|].
  intros i Hi. apply elem_of_seq. specialize (Hlt i Hi). lia.
Qed.

Section weld_loop.
Context (key_fn : nat → nat → option vkey) (C : nat → vkey → Prop).
Context (n_vertices cap : nat) (faces_vertices : list (list nat)).

Lemma face_slots_ext w w' i :
  face_ok key_fn C n_vertices faces_vertices i →
  (∀ fv j, faces_vertices !! i = Some fv → (j < length fv)%nat →
     is_Some (corner_x key_fn faces_vertices w i j)) →
  weld_ext w w' →
  face_slots key_fn faces_vertices w' i = face_slots key_fn faces_vertices w i.
Proof.
  intros (fv & Hfv & Hlen & _) Hsome Hext. unfold face_slots. rewrite Hfv.
  assert (Heq : ∀ j, (j < length fv)%nat →
            corner_x key_fn faces_vertices w' i j = corner_x key_fn faces_vertices w i j).
  { intros j Hj. destruct (Hsome fv j Hfv Hj) as [x Hx]. rewrite Hx.
    by apply (corner_x_ext key_fn faces_vertices w w'). }
  unfold f_iter. destruct (decide (length fv = 4%nat)); csimpl.
  - by rewrite !Heq by lia.
  - by rewrite !Heq by lia.
Qed.

Lemma weld_faces_spec face_group w :
  weld_inv C n_vertices cap w →
  (∀ i, i ∈ face_group → face_ok key_fn C n_vertices faces_vertices i) →
  (totface w + 2 * length face_group ≤ cap)%nat →
  ∃ w', fold_opt (weld_face key_fn faces_vertices) w face_group = Some w' ∧
    weld_inv C n_vertices cap w' ∧ weld_ext w w' ∧
    (∀ i fv j, i ∈ face_group → faces_vertices !! i = Some fv → (j < length fv)%nat →
       is_Some (corner_x key_fn faces_vertices w' i j)) ∧
    take (totface w') (face_tri_list w') =
      take (totface w) (face_tri_list w) ++
      (face_group ≫= face_slots key_fn faces_vertices w').
Proof.
  revert w. induction face_group as [|i face_group IH]; intros w Hinv Hok Hcap;
    cbn [fold_opt].
  - exists w. split; [done|]. split; [done|]. split; [apply weld_ext_refl|].
    split; [intros i fv j Hi; inversion Hi|]. by rewrite app_nil_r.
  - simpl in Hcap.
    destruct (weld_face_spec key_fn C n_vertices cap faces_vertices w i Hinv
                (Hok i ltac:(left)) ltac:(lia))
      as (w1 & Hstep & Hinv1 & Hext1 & Hsome1 & Htot1 & Htake1).
    rewrite Hstep. csimpl.
    destruct (IH w1 Hinv1) as (w' & Hfold & Hinv' & Hext' & Hsome' & Htake').
    { intros i' Hi'. apply Hok. by right. }
    { lia. }
    exists w'. split; [done|]. split; [done|].
    split; [by eapply weld_ext_trans|]. split.
    + intros i' fv j [->|Hi']%elem_of_cons Hfv Hj; [|by eapply Hsome'].
      destruct (Hsome1 fv j Hfv Hj) as [x Hx]. exists x.
      by apply (corner_x_ext key_fn faces_vertices w1 w').
    + rewrite Htake', Htake1, <- (assoc_L app). f_equal. f_equal.
      symmetry. apply face_slots_ext; [apply Hok; left|done|done].
Qed.
End weld_loop.

Lemma tri_index_Some (x0 x1 x2 : x3d_vertex) :
  tri_index [Some x0; Some x1; Some x2] = Some (x0.2, x1.2, x2.2).
Proof. reflexivity. Qed.



(** The quad of the small scene: four distinct output vertices and the two
    triangles (0,1,2) and (0,2,3). *)
Lemma weld_quad_example :
  (index_attr <$> weld (vertex_key (uv_textures_active ex_quad) None) 4
                       (mesh_faces_vertices ex_quad) [0%nat]) =
    Some (Some [(0, 1, 2); (0, 2, 3)]%nat) ∧
  (length ∘ vert_tri_list <$> weld (vertex_key (uv_textures_active ex_quad) None) 4
                                   (mesh_faces_vertices ex_quad) [0%nat]) = Some 4%nat.
Proof. split; vm_compute; reflexivity. Qed.


(** ** The order of the face groups *)





Section group_order.
Context (sc : scene).




End group_order.

Section dict_content.
Context {K V : Type} `{EqDecision K}.
Implicit Types (d : list (K * V)) (k : K) (v : V).

Lemma dict_get_dict_set k k' v d :
  dict_get k' (dict_set k v d) = if decide (k' = k) then Some v else dict_get k' d.
Proof.
  induction d as [|[k0 v0] d IH]; simpl.
  - by destruct (decide (k' = k)).
  - destruct (decide (k = k0)) as [->|Hne]; simpl.
    + by destruct (decide (k' = k0)).
    + destruct (decide (k' = k0)) as [->|Hne'].
      * by destruct (decide (k0 = k)) as [->|].
      * done.
Qed.

Lemma dict_get_elem k v d : NoDup d.*1 → dict_get k d = Some v ↔ (k, v) ∈ d.
Proof.
  induction d as [|[k0 v0] d IH]; csimpl; intros Hnd.
  - split; [done|intros Hin; inversion Hin].
  - apply NoDup_cons in Hnd as [Hnin Hnd]. destruct (decide (k = k0)) as [->|Hne].
    + split; [intros [= ->]; left|].
      intros [[= ->]|Hin]%elem_of_cons; [done|].
      destruct Hnin. apply list_elem_of_fmap. by exists (k0, v).
    + rewrite (IH Hnd). split; [by right|].
      intros [[= -> ->]|Hin]%elem_of_cons; done.
Qed.

End dict_content.

Lemma face_groups_fill_keys (d d' : face_group_dict) (l : list (nat * group_key)) :
  face_groups_fill d l = Some d' → ∀ i k, (i, k) ∈ l → k ∈ d.*1.
Proof.
  revert d. induction l as [|[i' k'] l IH]; intros d Hd i k Hin; [inversion Hin|].
  csimpl in Hd. unfold face_groups_append in Hd.
  destruct (dict_get k' d) as [v|] eqn:Hv; [|done]. csimpl in Hd.
  assert (Hk' : k' ∈ d.*1) by (apply dict_get_is_Some; by rewrite Hv).
  apply elem_of_cons in Hin as [[= -> ->]|Hin]; [done|].
  specialize (IH _ Hd i k Hin). by rewrite dict_set_keys_present in IH.
Qed.

Lemma face_groups_fill_content (d d' : face_group_dict) (l : list (nat * group_key)) k :
  face_groups_fill d l = Some d' →
  dict_get k d' = (λ v, v ++ bucket_content k l) <$> dict_get k d.
Proof.
  revert d. induction l as [|[i k0] l IH]; intros d; csimpl.
  - intros [= <-]. unfold bucket_content. simpl.
    destruct (dict_get k d); csimpl; [by rewrite app_nil_r|done].
  - unfold face_groups_append.
    destruct (dict_get k0 d) as [v0|] eqn:Hv0; [|done]. csimpl.
    intros Hfill. rewrite (IH _ Hfill), dict_get_dict_set.
    unfold bucket_content. rewrite filter_cons. simpl.
    destruct (decide (k = k0)) as [->|Hne].
    + rewrite Hv0. destruct (decide (k0 = k0)); [|done]. csimpl.
      by rewrite <- (assoc_L app).
    + destruct (decide (k0 = k)); [congruence|done].
Qed.



Section group_determinism.
Context (sc : scene).


End group_determinism.


(** ** More on the identifier sanitizers *)

Lemma prefix_empty s : String.prefix "" s = true.
Proof. by destruct s. Qed.

Lemma replace_char (b n : ascii) (s : string) :
  replace (String b "") (String n "") s =
  map_chars (λ c, if decide (b = c) then n else c) s.
Proof.
  unfold replace. induction s as [|c s IH]; [done|].
  cbn [replace_go map_chars String.prefix String.length].
  destruct (ascii_dec b c) as [->|Hne].
  - rewrite prefix_empty. rewrite decide_True by done. simpl. by rewrite IH.
  - rewrite decide_False by done. by rewrite IH.
Qed.

Lemma replace_single (b : ascii) (s : string) :
  replace (String b "") "_" s =
  map_chars (λ c, if decide (b = c) then "_"%char else c) s.
Proof. apply replace_char. Qed.

Lemma replace_comma_space_absent (s : string) :
  " "%char ∉ chars s → replace ", " "_" s = s.
Proof.
  unfold replace. induction s as [|c s IH]; [done|].
  intros Hs. cbn [replace_go String.prefix].
  assert (Hs' : " "%char ∉ chars s).
  { intros Hin. apply Hs. by right. }
  destruct (ascii_dec "," c) as [<-|Hne].
  - destruct s as [|c' s]; [done|].
    cbn [String.prefix].
    destruct (ascii_dec " " c') as [<-|Hne'].
    + exfalso. apply Hs. right. left.
    + by rewrite IH.
  - by rewrite IH.
Qed.

Lemma map_chars_compose f g s : map_chars f (map_chars g s) = map_chars (f ∘ g) s.
Proof. induction s as [|c s IH]; [done|]. simpl. by rewrite IH. Qed.

Lemma map_chars_ext f g s : (∀ c, f c = g c) → map_chars f s = map_chars g s.
Proof. intros H. induction s as [|c s IH]; [done|]. simpl. by rewrite H, IH. Qed.

Lemma chars_map_chars f s : chars (map_chars f s) = f <$> chars s.
Proof. induction s as [|c s IH]; [done|]. unfold chars in *. simpl. by rewrite IH. Qed.

Lemma map_chars_id f s : (∀ c, c ∈ chars s → f c = c) → map_chars f s = s.
Proof.
  induction s as [|c s IH]; [done|]. intros H. simpl. rewrite H by left.
  rewrite IH; [done|]. intros c' Hc'. apply H. by right.
Qed.

Ltac ascii_cases c := destruct c as [[] [] [] [] [] [] [] []].

Lemma clean_char_not_bad (c : ascii) : clean_char c ∉ clean_str_bad_chars.
Proof. apply (bool_decide_eq_false_1 _). ascii_cases c; vm_compute; reflexivity. Qed.

Lemma clean_str_loop (s : string) :
  foldl (λ acc bad, replace bad "_" acc) s clean_str_bad = map_chars clean_char s.
Proof.
  unfold clean_str_bad, dquote. cbn [foldl].
  rewrite !replace_single. rewrite !map_chars_compose.
  rewrite replace_comma_space_absent.
  2:{ rewrite ?replace_single, ?map_chars_compose, chars_map_chars.
      intros (c & Hc & _)%list_elem_of_fmap. revert Hc.
      ascii_cases c; vm_compute; discriminate. }
  rewrite ?replace_single, ?map_chars_compose.
  apply map_chars_ext. intros c. ascii_cases c; vm_compute; reflexivity.
Qed.

Lemma clean_char_idemp (c : ascii) : clean_char (clean_char c) = clean_char c.
Proof. ascii_cases c; vm_compute; reflexivity. Qed.

Lemma clean_char_not_digit (c : ascii) : isdigit c = false → isdigit (clean_char c) = false.
Proof. ascii_cases c; vm_compute; congruence. Qed.

Lemma clean_char_changed (c : ascii) : clean_char c = c ∨ clean_char c = "_"%char.
Proof. unfold clean_char. case_bool_decide; eauto. Qed.

Lemma map_clean_char_same_or_underscore (s : string) :
  map_chars clean_char s = s ∨ "_"%char ∈ chars (map_chars clean_char s).
Proof.
  induction s as [|c s IH]; [by left|]. simpl.
  destruct (clean_char_changed c) as [Hc|Hc]; rewrite Hc.
  - destruct IH as [->|IH]; [by left|]. right. by right.
  - right. left.
Qed.

Lemma chars_app (s1 s2 : string) : chars (s1 +:+ s2) = chars s1 ++ chars s2.
Proof. induction s1 as [|c s1 IH]; [done|]. unfold chars in *. simpl. by rewrite IH. Qed.

Lemma reserved_no_underscore (n : string) :
  is_reserved n = true → "_"%char ∉ chars n.
Proof.
  unfold is_reserved. rewrite bool_decide_eq_true. revert n.
  refine (proj1 (list.Forall_forall _ _) _).
  apply (bool_decide_unpack _). vm_compute. reflexivity.
Qed.


Lemma has_underscore_not_reserved (s : string) :
  "_"%char ∈ chars s → is_reserved s = false.
Proof.
  intros Hin. destruct (is_reserved s) eqn:E; [|done].
  by apply reserved_no_underscore in E.
Qed.


Lemma clean_str_Some_inv (name prefix r : string) :
  clean_str name prefix = Some r →
  r = map_chars clean_char (clean_str_guarded name prefix) ∧
  ∃ c s, clean_str_guarded name prefix = String c s ∧ isdigit c = false.
Proof.
  unfold clean_str, clean_str_guarded.
  destruct (if is_reserved name then prefix +:+ name else name) as [|c s]; [done|].
  rewrite clean_str_loop. intros [= <-].
  destruct (isdigit c) eqn:Hd; (split; [done|]); eauto.
Qed.

Lemma clean_str_Some (s : string) (c : ascii) (s' prefix : string) :
  s = String c s' → is_reserved s = false → isdigit c = false →
  clean_str s prefix = Some (map_chars clean_char s).
Proof.
  intros -> Hres Hd. unfold clean_str. rewrite Hres, Hd. by rewrite clean_str_loop.
Qed.

(** An identifier returned by [clean_str] holds none of the characters
    space, double quote, hash, apostrophe, full stop, brackets, backslash
    and braces. *)
Theorem clean_str_no_bad_chars (name prefix r : string) :
  clean_str name prefix = Some r →
  ∀ c, c ∈ chars r → c ∉ clean_str_bad_chars.
Proof.
  intros [-> _]%clean_str_Some_inv c. rewrite chars_map_chars.
  intros (c' & -> & _)%list_elem_of_fmap. apply clean_char_not_bad.
Qed.

Lemma clean_str_no_bad_chars_witness :
  Forall (λ c, c ∉ clean_str_bad_chars) (chars "a_b_c_").
Proof.
  apply list.Forall_forall.
  apply (clean_str_no_bad_chars "a b.c#" "rsvd_"). reflexivity.
Defined.

(** An identifier returned by [clean_str] is not empty and does not start
    with a digit, whatever the prefix. *)
Theorem clean_str_no_leading_digit (name prefix r : string) :
  clean_str name prefix = Some r →
  ∃ c s, r = String c s ∧ isdigit c = false.
Proof.
  intros (-> & c & s & -> & Hd)%clean_str_Some_inv.
  exists (clean_char c), (map_chars clean_char s). split; [done|].
  by apply clean_char_not_digit.
Qed.

Lemma clean_str_no_leading_digit_witness :
  ∃ c s, "_3D_model" = String c s ∧ isdigit c = false.
Proof. apply (clean_str_no_leading_digit "3D model" "rsvd_"). reflexivity. Defined.

Lemma clean_str_guarded_not_reserved (name : string) :
  is_reserved (map_chars clean_char (clean_str_guarded name "rsvd_")) = false.
Proof.
  unfold clean_str_guarded.
  assert (Hu : ∀ t, "_"%char ∈ chars t → is_reserved (map_chars clean_char t) = false).
  { intros t Ht. apply has_underscore_not_reserved. rewrite chars_map_chars.
    apply list_elem_of_fmap. by exists "_"%char. }
  destruct (is_reserved name) eqn:Hres.
  - apply Hu. cbn. do 4 right. left.
  - destruct name as [|c' s']; [done|]. destruct (isdigit c').
    + apply Hu. left.
    + destruct (map_clean_char_same_or_underscore (String c' s')) as [->|Hin]; [done|].
      by apply has_underscore_not_reserved.
Qed.

(** With the default prefix, an identifier returned by [clean_str] is never
    one of the reserved X3D names. *)
Theorem clean_str_not_reserved (name r : string) :
  clean_str name "rsvd_" = Some r → is_reserved r = false.
Proof.
  intros [-> _]%clean_str_Some_inv. apply clean_str_guarded_not_reserved.
Qed.

Lemma clean_str_not_reserved_witness : is_reserved "rsvd_Transform" = false.
Proof. apply (clean_str_not_reserved "Transform"). reflexivity. Defined.

(** With the default prefix, [clean_str] leaves its own results unchanged:
    cleaning twice gives the identifier of cleaning once. *)
Theorem clean_str_idempotent (name r : string) :
  clean_str name "rsvd_" = Some r → clean_str r "rsvd_" = Some r.
Proof.
  intros (Hr & c & s & Hg & Hd)%clean_str_Some_inv.
  assert (Hres : is_reserved r = false).
  { rewrite Hr. apply clean_str_guarded_not_reserved. }
  rewrite Hg in Hr. cbn [map_chars] in Hr.
  rewrite (clean_str_Some r _ _ "rsvd_" Hr Hres (clean_char_not_digit c Hd)).
  f_equal. rewrite Hr at 2. rewrite Hr. cbn [map_chars].
  rewrite clean_char_idemp, map_chars_compose. f_equal.
  apply map_chars_ext. intros c'. apply clean_char_idemp.
Qed.

Lemma clean_str_idempotent_witness :
  clean_str "_3D_model" "rsvd_" = Some "_3D_model".
Proof. apply (clean_str_idempotent "3D model"). reflexivity. Defined.

Lemma bad_char_not_reserved (s1 s2 : string) (b : ascii) :
  b ∈ clean_str_bad_chars → is_reserved (s1 +:+ String b s2) = false.
Proof.
  intros Hb. destruct (is_reserved _) eqn:E; [|done]. exfalso.
  unfold is_reserved in E. apply bool_decide_eq_true_1 in E.
  assert (Hnb : Forall (λ n, Forall (λ b, b ∉ clean_str_bad_chars) (chars n))
                  x3d_names_reserved).
  { apply (bool_decide_unpack _). vm_compute. reflexivity. }
  rewrite list.Forall_forall in Hnb. specialize (Hnb _ E).
  rewrite list.Forall_forall in Hnb. apply (Hnb b); [|done].
  rewrite chars_app. apply elem_of_app. right. left.
Qed.

Lemma map_chars_app f (s1 s2 : string) :
  map_chars f (s1 +:+ s2) = map_chars f s1 +:+ map_chars f s2.
Proof. induction s1 as [|c s1 IH]; [done|]. simpl. by rewrite IH. Qed.

Lemma clean_char_bad (b : ascii) : b ∈ clean_str_bad_chars → clean_char b = "_"%char.
Proof. intros Hb. unfold clean_char. by rewrite bool_decide_eq_true_2. Qed.

Lemma bad_char_not_digit (b : ascii) : b ∈ clean_str_bad_chars → isdigit b = false.
Proof.
  revert b. refine (proj1 (list.Forall_forall _ _) _).
  apply (bool_decide_unpack _). vm_compute. reflexivity.
Qed.

Lemma append_nil_l (s : string) : "" +:+ s = s.
Proof. reflexivity. Qed.

Lemma append_cons_l (c : ascii) (s1 s2 : string) :
  String c s1 +:+ s2 = String c (s1 +:+ s2).
Proof. reflexivity. Qed.

Lemma clean_str_unreserved (n p : string) :
  is_reserved n = false →
  clean_str n p =
    match n with
    | EmptyString => None
    | String c _ =>
        Some ((if isdigit c then "_" else "") +:+ map_chars clean_char n)
    end.
Proof.
  intros Hn. unfold clean_str. rewrite Hn.
  destruct n as [|c s]; [done|]. rewrite clean_str_loop. by destruct (isdigit c).
Qed.

(** Distinct names can get the same identifier: which of the replaced
    characters stood at a place is not recorded. *)
Theorem clean_str_collision (s1 s2 prefix : string) (b1 b2 : ascii) :
  b1 ∈ clean_str_bad_chars → b2 ∈ clean_str_bad_chars →
  clean_str (s1 +:+ String b1 s2) prefix = clean_str (s1 +:+ String b2 s2) prefix.
Proof.
  intros H1 H2. rewrite !clean_str_unreserved by by apply bad_char_not_reserved.
  assert (Hm : map_chars clean_char (s1 +:+ String b1 s2) =
               map_chars clean_char (s1 +:+ String b2 s2)).
  { rewrite !map_chars_app. cbn [map_chars]. by rewrite !clean_char_bad. }
  destruct s1 as [|c s1].
  - rewrite !append_nil_l in *. rewrite !bad_char_not_digit by done. by rewrite Hm.
  - rewrite !append_cons_l in *. by rewrite Hm.
Qed.

Lemma clean_str_collision_witness :
  clean_str "a b" "rsvd_" = clean_str "a.b" "rsvd_".
Proof.
  apply (clean_str_collision "a" "b" "rsvd_" " " ".").
  - apply (bool_decide_unpack _). vm_compute. exact I.
  - apply (bool_decide_unpack _). vm_compute. exact I.
Defined.

(** *** [secureName] *)










(** ** The path [save] writes to *)

Lemma endswith_refl s : endswith s s = true.
Proof. destruct s; cbn [endswith]; by rewrite String.eqb_refl. Qed.

Lemma endswith_app (a s : string) : endswith (a +:+ s) s = true.
Proof.
  induction a as [|c a IH]; [apply endswith_refl|].
  rewrite append_cons_l. cbn [endswith]. rewrite IH. apply orb_true_r.
Qed.

Lemma endswith_spec (s suffix : string) :
  endswith s suffix = true ↔ ∃ a, s = a +:+ suffix.
Proof.
  split.
  - induction s as [|c s IH]; cbn [endswith].
    + rewrite orb_false_r. intros ->%String.eqb_eq. by exists "".
    + intros [->%String.eqb_eq|H]%orb_true_iff; [by exists ""|].
      destruct (IH H) as [a ->]. by exists (String c a).
  - intros [a ->]. apply endswith_app.
Qed.

Lemma lower_app (a b : string) : lower (a +:+ b) = lower a +:+ lower b.
Proof. apply map_chars_app. Qed.

Lemma split_nonempty sep s : split sep s ≠ [].
Proof.
  induction s as [|c s IH]; simpl; [done|].
  destruct (decide (c = sep)); [done|]. by destruct (split sep s).
Qed.

Lemma join_cons sep w l : l ≠ [] → join sep (w :: l) = w +:+ sep +:+ join sep l.
Proof. by destruct l. Qed.

Lemma append_assoc (a b c : string) : (a +:+ b) +:+ c = a +:+ b +:+ c.
Proof. induction a as [|x a IH]; [done|]. rewrite !append_cons_l. by rewrite IH. Qed.

Lemma append_nil_r (a : string) : a +:+ "" = a.
Proof. induction a as [|x a IH]; [done|]. rewrite append_cons_l. by rewrite IH. Qed.

(** Joining what was split gives the string back. *)
Lemma join_split (sep : ascii) (s : string) :
  join (String sep "") (split sep s) = s.
Proof.
  induction s as [|c s IH]; [done|]. simpl.
  destruct (decide (c = sep)) as [->|Hne].
  - rewrite join_cons by apply split_nonempty. by rewrite IH.
  - pose proof (split_nonempty sep s) as Hs.
    destruct (split sep s) as [|w ws]; [done|].
    destruct ws as [|w' ws].
    + simpl in *. by rewrite IH.
    + rewrite join_cons by done. rewrite join_cons in IH by done.
      rewrite append_cons_l. by rewrite IH.
Qed.

Lemma split_no_sep (sep : ascii) (s : string) :
  sep ∉ chars s → split sep s = [s].
Proof.
  induction s as [|c s IH]; [done|]. intros Hs. simpl.
  rewrite decide_False by (intros ->; apply Hs; left).
  rewrite IH; [done|]. intros Hin. apply Hs. by right.
Qed.

Lemma split_app (sep : ascii) (a b : string) :
  split sep (a +:+ String sep b) = split sep a ++ split sep b.
Proof.
  induction a as [|c a IH].
  - rewrite append_nil_l. simpl. by rewrite decide_True.
  - rewrite append_cons_l. simpl. destruct (decide (c = sep)) as [->|Hne].
    + by rewrite IH.
    + rewrite IH. pose proof (split_nonempty sep a) as Ha.
      by destruct (split sep a).
Qed.

Lemma init_snoc {A} (l : list A) (x : A) : init (l ++ [x]) = l.
Proof.
  unfold init. rewrite length_app. simpl.
  replace (length l + 1 - 1)%nat with (length l) by lia.
  by rewrite take_app_length.
Qed.

Lemma lower_extension uc : lower (save_extension uc) = save_extension uc.
Proof. by destruct uc. Qed.

Lemma chars_lower s : chars (lower s) = lower_char <$> chars s.
Proof. apply chars_map_chars. Qed.

Lemma lower_char_dot c : lower_char c = "."%char → c = "."%char.
Proof. ascii_cases c; vm_compute; congruence. Qed.

Lemma endswith_has_char (s suffix : string) (c : ascii) :
  endswith s suffix = true → c ∈ chars suffix → c ∈ chars s.
Proof.
  intros [a ->]%endswith_spec Hc. rewrite chars_app. apply elem_of_app. by right.
Qed.

Lemma save_filepath_endswith (use_compress : bool) (filepath : string) :
  endswith (lower (save_filepath use_compress filepath))
           (save_extension use_compress) = true.
Proof.
  unfold save_filepath.
  destruct (endswith (lower filepath) (save_extension use_compress)) eqn:E; cbn [negb].
  - done.
  - rewrite lower_app, lower_extension. apply endswith_app.
Qed.

(** After the first step of [save] the path ends, up to letter case, with
    the extension asked for; a path that did so already is not changed. *)
Theorem save_filepath_extension (use_compress : bool) (filepath : string) :
  endswith (lower (save_filepath use_compress filepath))
           (save_extension use_compress) = true ∧
  (endswith (lower filepath) (save_extension use_compress) = true →
   save_filepath use_compress filepath = filepath).
Proof.
  split; [apply save_filepath_endswith|].
  intros E. unfold save_filepath. by rewrite E.
Qed.

(** A path whose extension is not the one asked for has everything from its
    last full stop on replaced by the extension, also when that full stop
    belongs to a directory name. *)
Theorem save_filepath_last_dot (use_compress : bool) (a b : string) :
  "."%char ∉ chars b →
  endswith (lower (a +:+ "." +:+ b)) (save_extension use_compress) = false →
  save_filepath use_compress (a +:+ "." +:+ b) = a +:+ save_extension use_compress.
Proof.
  intros Hb He. unfold save_filepath. rewrite He. cbn [negb].
  change (a +:+ "." +:+ b) with (a +:+ String "." b).
  rewrite split_app, (split_no_sep _ b Hb), init_snoc.
  by rewrite (join_split "." a).
Qed.

Lemma save_filepath_last_dot_witness :
  save_filepath false ("/tmp/v1.2/scene" +:+ "." +:+ "wrl") = "/tmp/v1.2/scene" +:+ ".x3d" ∧
  save_filepath false ("/tmp/v1" +:+ "." +:+ "2/scene") = "/tmp/v1" +:+ ".x3d".
Proof.
  split.
  - apply (save_filepath_last_dot false "/tmp/v1.2/scene" "wrl").
    + apply (bool_decide_unpack _). vm_compute. exact I.
    + reflexivity.
  - apply (save_filepath_last_dot false "/tmp/v1" "2/scene").
    + apply (bool_decide_unpack _). vm_compute. exact I.
    + reflexivity.
Defined.

(** A path without any full stop is replaced by the bare extension: the
    name itself is dropped. *)
Theorem save_filepath_no_dot (use_compress : bool) (filepath : string) :
  "."%char ∉ chars filepath →
  save_filepath use_compress filepath = save_extension use_compress.
Proof.
  intros Hp. unfold save_filepath.
  assert (He : endswith (lower filepath) (save_extension use_compress) = false).
  { destruct (endswith _ _) eqn:E; [|done]. exfalso. apply Hp.
    apply (endswith_has_char _ _ "."%char) in E; [|destruct use_compress; left].
    rewrite chars_lower in E. apply list_elem_of_fmap in E as (c & Hc & Hin).
    symmetry in Hc. apply lower_char_dot in Hc. by subst. }
  rewrite He. cbn [negb]. by rewrite (split_no_sep _ _ Hp).
Qed.

Lemma save_filepath_no_dot_witness : save_filepath false "scene" = ".x3d".
Proof.
  apply (save_filepath_no_dot false "scene").
  apply (bool_decide_unpack _). vm_compute. exact I.
Defined.



Lemma drop_last_snoc (a : string) (c : ascii) : drop_last (a +:+ String c "") = a.
Proof.
  induction a as [|x a IH]; [done|]. rewrite append_cons_l. cbn [drop_last].
  rewrite IH. destruct a; reflexivity.
Qed.



(** ** What the mesh export writes, element by element *)

Lemma clamp_channel_id (c : Qc) : 0 ≤ c → c ≤ 1 → clamp_channel c = c.
Proof.
  intros H0 H1. unfold clamp_channel, py_max, py_min.
  destruct (decide (1 < c)) as [H|H]; [by apply Qclt_not_le in H|].
  destruct (decide (c < 0)) as [H'|H']; [by apply Qclt_not_le in H'|done].
Qed.

Lemma clamp_color_id (col : vec3) : in_unit_range col → clamp_color col = col.
Proof.
  destruct col as [[r g] b]. intros ([? ?] & [? ?] & [? ?]).
  unfold clamp_color, map3. by rewrite !clamp_channel_id.
Qed.

(** [clamp_color] brings every channel into [0,1], leaves a colour that is
    in range as it is, and so is idempotent. *)
Theorem clamp_color_spec (col : vec3) :
  in_unit_range (clamp_color col) ∧
  (in_unit_range col → clamp_color col = col) ∧
  clamp_color (clamp_color col) = clamp_color col.
Proof.
  split; [apply clamp_color_range|]. split; [apply clamp_color_id|].
  apply clamp_color_id, clamp_color_range.
Qed.

Ltac elem_step :=
  first
    [ apply emits_fw; exact I
    | apply emits_bind; [|intros ?]
    | apply emits_ret
    | apply emits_lift
    | apply emits_get_tag
    | apply emits_set_tag
    | apply emits_when
    | match goal with
      | |- emits _ (if ?b then _ else _) => destruct b
      | |- emits _ (match ?x with _ => _ end) => destruct x
      end ].

Section writers_elements.
Context (sc : scene) `{SetIter} (use_triangulate use_normals : bool).
Context (w : option world).

Lemma writeImageTexture_elements image :
  emits (element_ok sc w) (writeImageTexture sc image).
Proof.
  unfold writeImageTexture.
  apply emits_bind; [apply emits_get_tag|]. intros [].
  - apply emits_bind_lift. intros id Hid. by apply emits_fw.
  - apply emits_bind; [apply emits_set_tag|]. intros _.
    apply emits_bind_lift. intros id Hid. by apply emits_fw.
Qed.

Lemma writeMaterial_elements mat material_id :
  clean_str (mat_name (material_data sc mat)) "" = Some material_id →
  emits (element_ok sc w) (writeMaterial sc mat material_id w).
Proof.
  intros Hid. unfold writeMaterial.
  apply emits_bind; [apply emits_get_tag|]. intros [].
  - apply emits_fw. simpl. eauto.
  - apply emits_bind; [apply emits_set_tag|]. intros _.
    apply emits_bind_lift. intros f Hf. apply emits_fw. simpl. eauto.
Qed.

Lemma writeTextureTransform_elements me mi image :
  emits (element_ok sc w) (writeTextureTransform sc me mi image).
Proof. unfold writeTextureTransform. repeat elem_step. Qed.

Lemma writeIndexedTriangleSet_elements me sm uvs cols fg :
  emits (element_ok sc w) (writeIndexedTriangleSet use_normals me sm uvs cols fg).
Proof. unfold writeIndexedTriangleSet. repeat elem_step. Qed.

Lemma writeIndexedFaceSetGeometry_elements m nm sm uvs cols fg icw :
  clean_str (mesh_name (mesh_data sc m)) "rsvd_" = Some nm →
  emits (element_ok sc w)
    (writeIndexedFaceSetGeometry use_normals (mesh_data sc m) nm sm uvs cols fg icw).
Proof.
  intros Hnm. unfold writeIndexedFaceSetGeometry.
  repeat first
    [ (apply emits_fw; exact I)
    | (apply emits_fw; simpl; by eauto 6)
    | elem_step ].
Qed.

Lemma write_group_elements m nm icw g :
  clean_str (mesh_name (mesh_data sc m)) "rsvd_" = Some nm →
  emits (element_ok sc w)
    (write_group sc use_triangulate use_normals (mesh_data sc m) nm w icw g).
Proof.
  intros Hnm. unfold write_group. destruct g as [[mi image] [|i fg]]; [apply emits_ret|].
  repeat first
    [ apply writeImageTexture_elements | apply writeTextureTransform_elements
    | apply writeIndexedTriangleSet_elements
    | (by apply writeIndexedFaceSetGeometry_elements)
    | (apply emits_bind_lift; intros ? ?; by apply writeMaterial_elements)
    | elem_step ].
Qed.

Lemma write_groups_elements m nm icw items :
  clean_str (mesh_name (mesh_data sc m)) "rsvd_" = Some nm →
  emits (element_ok sc w)
    (write_groups sc use_triangulate use_normals (mesh_data sc m) nm w icw items).
Proof.
  intros Hnm. revert icw. induction items as [|g items IH]; intros icw; simpl.
  - apply emits_ret.
  - apply emits_bind; [by apply write_group_elements|]. intros x. apply IH.
Qed.

Lemma writeIndexedFaceSet_elements ob m mtx :
  emits (element_ok sc w) (writeIndexedFaceSet sc use_triangulate use_normals ob m mtx w).
Proof.
  unfold writeIndexedFaceSet.
  apply emits_bind_lift. intros shape_name_x3d Hsh.
  apply emits_bind_lift. intros mesh_name_x3d Hid.
  destruct (faces (mesh_data sc m)) as [|f0 fs]; [apply emits_ret|].
  unfold open_wrapper, close_wrapper.
  repeat first
    [ (by apply write_groups_elements)
    | (apply emits_fw; exact I)
    | (apply emits_fw; simpl; by eauto)
    | elem_step ].
Qed.

Lemma export_objects_elements objects :
  emits (element_ok sc w) (export_objects sc use_triangulate use_normals objects w).
Proof.
  unfold export_objects. induction objects as [|[[ob m] mtx] objects IH]; simpl.
  - apply emits_ret.
  - apply emits_bind; [apply writeIndexedFaceSet_elements|]. intros _. apply IH.
Qed.
End writers_elements.

Lemma chars_prefixed_ok (p r : string) :
  Forall (λ c, c ∉ clean_str_bad_chars) (chars p) →
  (∀ c, c ∈ chars r → c ∉ clean_str_bad_chars) →
  ∀ c, c ∈ chars (p +:+ r) → c ∉ clean_str_bad_chars.
Proof.
  intros Hp Hr c. rewrite chars_app, elem_of_app. intros [Hc|Hc]; [|by apply Hr].
  rewrite list.Forall_forall in Hp. by apply Hp.
Qed.

Lemma prefix_chars_ok (p : string) :
  p ∈ ["G_"; "MA_"; "coord_"; "normals_"] →
  Forall (λ c, c ∉ clean_str_bad_chars) (chars p) ∧
  ∃ c s, p = String c s ∧ isdigit c = false.
Proof.
  intros Hp. repeat (apply elem_of_cons in Hp as [->|Hp]); [..|by apply elem_of_nil in Hp].
  all: split; [apply (bool_decide_unpack _); vm_compute; exact I|eauto].
Qed.

Lemma clean_str_identifier_ok (name prefix r : string) :
  clean_str name prefix = Some r →
  (∀ c, c ∈ chars r → c ∉ clean_str_bad_chars) ∧
  ∃ c s, r = String c s ∧ isdigit c = false.
Proof.
  intros (-> & c & s & -> & Hd)%clean_str_Some_inv. split.
  - intros c'. rewrite chars_map_chars.
    intros (c0 & -> & _)%list_elem_of_fmap. apply clean_char_not_bad.
  - exists (clean_char c), (map_chars clean_char s). split; [done|].
    by apply clean_char_not_digit.
Qed.

Lemma prefixed_identifier_ok (p name prefix r : string) :
  p ∈ ["G_"; "MA_"; "coord_"; "normals_"] →
  clean_str name prefix = Some r →
  (∀ c, c ∈ chars (p +:+ r) → c ∉ clean_str_bad_chars) ∧
  ∃ c s, p +:+ r = String c s ∧ isdigit c = false.
Proof.
  intros Hp [Hr _]%clean_str_identifier_ok.
  destruct (prefix_chars_ok p Hp) as (Hc & c & s & -> & Hd). split.
  - by apply chars_prefixed_ok.
  - exists c, (s +:+ r). done.
Qed.

Section export_elements.
Context (sc : scene) `{SetIter} (use_triangulate use_normals : bool).

Lemma export_main_elements objects w e :
  e ∈ (export_main sc use_triangulate use_normals objects w).2 → element_ok sc w e.
Proof.
  unfold export_main. intros He.
  pose proof (export_objects_elements sc use_triangulate use_normals w objects ∅) as Hall.
  rewrite list.Forall_forall in Hall. by apply Hall.
Qed.

(** Every identifier the mesh export writes in a DEF or USE attribute, of a
    Transform, Group, ImageTexture, Material, Coordinate or Normal node, is
    free of the characters [clean_str] replaces, is not empty and does not
    start with a digit. *)
Theorem export_identifiers_clean objects w e n :
  e ∈ (export_main sc use_triangulate use_normals objects w).2 →
  def_use_name e = Some n →
  (∀ c, c ∈ chars n → c ∉ clean_str_bad_chars) ∧
  ∃ c s, n = String c s ∧ isdigit c = false.
Proof.
  intros He%export_main_elements Hn.
  assert (Hplain : ∀ name prefix, clean_str name prefix = Some n →
            (∀ c, c ∈ chars n → c ∉ clean_str_bad_chars) ∧
            ∃ c s, n = String c s ∧ isdigit c = false).
  { intros name prefix Hr. by eapply clean_str_identifier_ok. }
  destruct e; simplify_eq/=.
  - destruct He as [nm Hr]. by eapply Hplain.
  - destruct He as (r & Hr & ->). eapply prefixed_identifier_ok; [|done]. by apply (bool_decide_unpack _).
  - destruct He as (r & Hr & ->). eapply prefixed_identifier_ok; [|done]. by apply (bool_decide_unpack _).
  - by eapply Hplain.
  - destruct He as [Hr _]. by eapply Hplain.
  - destruct He as (r & Hr & ->). eapply prefixed_identifier_ok; [|done]. by apply (bool_decide_unpack _).
  - destruct He as [(r & Hr & ->) _]. eapply prefixed_identifier_ok; [|done]. by apply (bool_decide_unpack _).
  - destruct He as (m & r & Hr & ->). eapply prefixed_identifier_ok; [|done]. by apply (bool_decide_unpack _).
  - destruct He as (m & r & Hr & -> & _). eapply prefixed_identifier_ok; [|done]. by apply (bool_decide_unpack _).
  - destruct He as (m & r & Hr & ->). eapply prefixed_identifier_ok; [|done]. by apply (bool_decide_unpack _).
  - destruct He as (m & r & Hr & -> & _). eapply prefixed_identifier_ok; [|done]. by apply (bool_decide_unpack _).
Qed.

(** Every Material definition in the output of the mesh export carries the
    values computed from its own material: its three colours are within
    [0,1] and its transparency is one minus the material's alpha. *)
Theorem export_material_in_range objects w m id f :
  Material_DEF m id f ∈ (export_main sc use_triangulate use_normals objects w).2 →
  in_unit_range (mf_diffuse f) ∧ in_unit_range (mf_specular f) ∧
  in_unit_range (mf_emissive f) ∧
  mf_transparency f = 1 - alpha (material_data sc m).
Proof.
  intros [_ Hf]%export_main_elements. unfold material_values in Hf.
  destruct (specColor _) as [sp|]; [|done]. simpl in Hf.
  destruct (use_shadeless _); injection Hf as <-; cbn;
    repeat split; apply clamp_color_range.
Qed.

Lemma replace_backslash_chars (s : string) :
  "\"%char ∉ chars (replace "\" "/" s).
Proof.
  rewrite (replace_char "\" "/"), chars_map_chars.
  intros (c & Hc & _)%list_elem_of_fmap. destruct (decide ("\"%char = c)); [done|congruence].
Qed.

(** Every ImageTexture definition in the output of the mesh export lists
    two or three URLs, the base name and the absolute path of its image
    last, and no URL holds a backslash. *)
Theorem export_image_urls objects w i id url :
  ImageTexture_DEF i id url ∈ (export_main sc use_triangulate use_normals objects w).2 →
  Forall (λ u, "\"%char ∉ chars u) url ∧
  (length url = 2%nat ∨ length url = 3%nat) ∧
  ∃ rel, url = rel ++ [replace "\" "/" (img_basename (image_data sc i));
                       replace "\" "/" (img_abspath (image_data sc i))].
Proof.
  intros [_ ->]%export_main_elements. split; [|split].
  - apply list.Forall_forall. intros u (p & -> & _)%list_elem_of_fmap.
    apply replace_backslash_chars.
  - rewrite length_fmap. unfold image_paths. destruct (img_relpath _); simpl; eauto.
  - unfold image_paths. rewrite fmap_app. eauto.
Qed.
End export_elements.

Lemma ex_export_Group_DEF :
  Group_DEF 0 "G_Quad" ∈
    (export_main ex_scene (H := SetIter_first) false true ex_objects (Some ex_world)).2.
Proof. vm_compute. do 2 apply list_elem_of_further. apply list_elem_of_here. Qed.

Lemma export_identifiers_clean_witness :
  (∀ c, c ∈ chars "G_Quad" → c ∉ clean_str_bad_chars) ∧
  ∃ c s, "G_Quad" = String c s ∧ isdigit c = false.
Proof.
  apply (export_identifiers_clean ex_scene (H := SetIter_first) false true ex_objects
           (Some ex_world) (Group_DEF 0 "G_Quad") "G_Quad").
  - apply ex_export_Group_DEF.
  - reflexivity.
Defined.

Lemma ex_export_Material_DEF :
  ∃ f, Material_DEF 0 "MA_Mat" f ∈
    (export_main ex_scene (H := SetIter_first) false true ex_objects (Some ex_world)).2.
Proof.
  eexists. vm_compute.
  repeat first [apply list_elem_of_here | apply list_elem_of_further].
Qed.

Lemma export_material_in_range_witness :
  ∃ f, Material_DEF 0 "MA_Mat" f ∈
         (export_main ex_scene (H := SetIter_first) false true ex_objects
            (Some ex_world)).2 ∧
       in_unit_range (mf_diffuse f).
Proof.
  destruct ex_export_Material_DEF as [f Hf]. exists f. split; [exact Hf|].
  apply (export_material_in_range ex_scene (H := SetIter_first) false true ex_objects
           (Some ex_world) 0%nat "MA_Mat" f Hf).
Defined.

Lemma ex_export_ImageTexture_DEF :
  ImageTexture_DEF 0 "tex" ["tex"; "/t/tex"] ∈
    (export_main ex_scene (H := SetIter_first) false true ex_objects (Some ex_world)).2.
Proof.
  vm_compute.
  repeat first [apply list_elem_of_here | apply list_elem_of_further].
Qed.

Lemma export_image_urls_witness :
  Forall (λ u, "\"%char ∉ chars u) ["tex"; "/t/tex"].
Proof.
  apply (export_image_urls ex_scene (H := SetIter_first) false true ex_objects
           (Some ex_world) 0%nat "tex" ["tex"; "/t/tex"] ex_export_ImageTexture_DEF).
Defined.

(** ** Well-formed geometry *)

Lemma vertex_key_slots uvs cols i j k :
  vertex_key uvs cols i j = Some k →
  (is_Some uvs → is_Some (k' ← k; k' !! 0%nat)) ∧
  (is_Some cols →
   is_Some (k' ← k; k' !! (match uvs with Some _ => 1 | None => 0 end)%nat)).
Proof.
  unfold vertex_key. destruct uvs as [uvs|], cols as [cols|]; intros Hk.
  - destruct (uvs !! i) as [fuv|]; [|done]. csimpl in Hk.
    destruct (uv fuv !! j) as [u|]; [|done]. csimpl in Hk.
    destruct (cols !! i) as [fc|]; [|done]. csimpl in Hk.
    destruct (col_face_color fc j) as [c|]; [|done]. csimpl in Hk.
    injection Hk as <-. split; intros _; csimpl; eauto.
  - destruct (uvs !! i) as [fuv|]; [|done]. csimpl in Hk.
    destruct (uv fuv !! j) as [u|]; [|done]. csimpl in Hk.
    injection Hk as <-. split; [intros _; csimpl; eauto|]. by intros [? ?].
  - destruct (cols !! i) as [fc|]; [|done]. csimpl in Hk.
    destruct (col_face_color fc j) as [c|]; [|done]. csimpl in Hk.
    injection Hk as <-. split; [by intros [? ?]|]. intros _; csimpl; eauto.
  - split; by intros [? ?].
Qed.

Lemma mapM_total {A B} (f : A → option B) (l : list A) :
  Forall (λ x, is_Some (f x)) l → ∃ k, mapM f l = Some k ∧ length k = length l.
Proof.
  intros Hall. destruct (mapM f l) as [k|] eqn:E.
  - exists k. split; [done|]. symmetry. by eapply length_mapM.
  - apply mapM_None in E. apply list.Exists_exists in E as (x & Hx & Hn).
    rewrite list.Forall_forall in Hall. destruct (Hall x Hx) as [y Hy]. congruence.
Qed.

Section triangle_set.
Context (use_normals : bool) (me : mesh) (is_smooth : bool).
Context (uvs : option (list uv_face)) (cols : option (list col_face)).

(** The welded state of a weldable group, with the facts the writer needs. *)
Lemma weld_weldable face_group :
  NoDup face_group → group_weldable me uvs cols face_group →
  ∃ w, weld (vertex_key uvs cols) (length (mesh_vertices me))
            (mesh_faces_vertices me) face_group = Some w ∧
    (∃ index, index_attr w = Some index ∧
       Forall (λ t, (t.1.1 < length (vert_tri_list w))%nat ∧
                    (t.1.2 < length (vert_tri_list w))%nat ∧
                    (t.2 < length (vert_tri_list w))%nat) index) ∧
    Forall (λ x : x3d_vertex,
              (x.1.2 < length (mesh_vertices me))%nat ∧
              ∃ i j, vertex_key uvs cols i j = Some x.1.1) (vert_tri_list w).
Proof.
  intros Hnd Hfaces.
  set (key_fn := vertex_key uvs cols).
  set (n_vertices := length (mesh_vertices me)).
  set (faces_vertices := mesh_faces_vertices me).
  set (C := λ (v : nat) (k : option (list (list Qc))),
              (v < n_vertices)%nat ∧ ∃ i j, key_fn i j = Some k).
  set (cap := (length faces_vertices * 2)%nat).
  unfold group_weldable in Hfaces. fold key_fn n_vertices faces_vertices in Hfaces.
  assert (Hok : ∀ i, i ∈ face_group → face_ok key_fn C n_vertices faces_vertices i).
  { intros i Hi. destruct (Hfaces i Hi) as (fv & Hfv & Hlen & Hc).
    exists fv. split; [done|]. split; [done|]. intros j v Hv.
    destruct (Hc j v Hv) as [Hlt [k Hk]]. split; [done|]. exists k. split; [done|].
    split; [done|]. by exists i, j. }
  assert (Hcap : (length face_group ≤ length faces_vertices)%nat).
  { apply NoDup_bounded_length; [done|]. intros i Hi.
    destruct (Hfaces i Hi) as (fv & Hfv & _). by apply lookup_lt_Some in Hfv. }
  destruct (weld_faces_spec key_fn C n_vertices cap faces_vertices face_group
              (weld_init n_vertices (length faces_vertices))
              (weld_init_inv C n_vertices (length faces_vertices)) Hok)
    as (w & Hfold & Hinv & _ & Hsome & Htake).
  { simpl. unfold cap. lia. }
  destruct Hinv as (I1 & I2 & I3 & I4 & I5 & I6 & I7).
  eexists. unfold weld. fold key_fn n_vertices faces_vertices. rewrite Hfold. csimpl.
  split; [done|]. cbn [vert_tri_list]. split.
  - unfold index_attr. cbn [face_tri_list]. rewrite Htake. simpl.
    assert (Hslot : ∀ s, s ∈ face_group ≫= face_slots key_fn faces_vertices w →
              ∃ t, tri_index s = Some t ∧
                (t.1.1 < length (vert_tri_list w))%nat ∧
                (t.1.2 < length (vert_tri_list w))%nat ∧
                (t.2 < length (vert_tri_list w))%nat).
    { intros s (i & Hs & Hi)%list_elem_of_bind.
      destruct (Hfaces i Hi) as (fv & Hfv & Hlen & _).
      assert (Hx : ∀ j, (j < length fv)%nat →
                ∃ x, corner_x key_fn faces_vertices w i j = Some x ∧
                     (x.2 < length (vert_tri_list w))%nat).
      { intros j Hj. destruct (Hsome i fv j Hi Hfv Hj) as [x Hx].
        exists x. split; [done|]. unfold corner_x in Hx. rewrite Hfv in Hx. csimpl in Hx.
        destruct (fv !! j) as [v|]; [|done]. csimpl in Hx.
        destruct (key_fn i j) as [k|]; [|done]. csimpl in Hx.
        destruct (I3 v k x Hx) as [_ Hl]. by apply lookup_lt_Some in Hl. }
      unfold face_slots, f_iter in Hs. rewrite Hfv in Hs.
      destruct (decide (length fv = 4%nat)); csimpl in Hs.
      - destruct (Hx 0%nat ltac:(lia)) as (x0 & E0 & ?).
        destruct (Hx 1%nat ltac:(lia)) as (x1 & E1 & ?).
        destruct (Hx 2%nat ltac:(lia)) as (x2 & E2 & ?).
        destruct (Hx 3%nat ltac:(lia)) as (x3 & E3 & ?).
        rewrite E0, E1, E2, E3 in Hs.
        apply elem_of_cons in Hs as [->|Hs]; [eexists; split; [reflexivity|done]|].
        apply list_elem_of_singleton in Hs as ->. eexists; split; [reflexivity|done].
      - destruct (Hx 0%nat ltac:(lia)) as (x0 & E0 & ?).
        destruct (Hx 1%nat ltac:(lia)) as (x1 & E1 & ?).
        destruct (Hx 2%nat ltac:(lia)) as (x2 & E2 & ?).
        rewrite E0, E1, E2 in Hs.
        apply list_elem_of_singleton in Hs as ->. eexists; split; [reflexivity|done]. }
    destruct (mapM_total tri_index (face_group ≫= face_slots key_fn faces_vertices w))
      as (index & Hindex & _).
    { apply list.Forall_forall. intros s Hs. destruct (Hslot s Hs) as (t & -> & _). eauto. }
    exists index. split; [done|].
    apply mapM_Some_1 in Hindex. apply list.Forall_forall. intros t Ht.
    apply list_elem_of_lookup_1 in Ht as [n Hn].
    destruct (Forall2_lookup_r _ _ _ _ _ Hindex Hn) as (s & Hs & Hst).
    apply list_elem_of_lookup_2 in Hs. destruct (Hslot s Hs) as (t' & Ht' & Hb).
    congruence.
  - apply list.Forall_forall. intros x Hx. apply list_elem_of_lookup_1 in Hx as [n Hn].
    destruct (I4 n x Hn) as (_ & _ & HC). exact HC.
Qed.
End triangle_set.

(** A group that can be welded is written as a well-formed triangle set:
    the writer returns, every index of the set refers to one of the points
    of its Coordinate node, and each per-vertex node that follows (normals,
    texture coordinates, colours, as far as they are switched on) has one
    entry per point. *)
Theorem writeIndexedTriangleSet_wellformed (use_normals : bool) (me : mesh)
    (is_smooth : bool) (uvs : option (list uv_face)) (cols : option (list col_face))
    (face_group : list nat) (tags : gset asset) :
  NoDup face_group → group_weldable me uvs cols face_group →
  ∃ index point attrs,
    writeIndexedTriangleSet use_normals me is_smooth uvs cols face_group tags =
      (Some (), tags,
       IndexedTriangleSet_open (show_double_sided me)
         (if is_smooth then Some (auto_smooth_angle me) else None) use_normals ::
       IndexedTriangleSet_index index :: Coordinate_point point ::
       attrs ++ [IndexedTriangleSet_close]) ∧
    Forall (λ t, (t.1.1 < length point)%nat ∧ (t.1.2 < length point)%nat ∧
                 (t.2 < length point)%nat) index ∧
    Forall (vertex_attribute (length point)) attrs ∧
    length attrs =
      ((if use_normals then 1 else 0) +
       match uvs with Some _ => 1 | None => 0 end +
       match cols with Some _ => 1 | None => 0 end)%nat.
Proof.
  intros Hnd Hweldable.
  destruct (weld_weldable me uvs cols face_group Hnd Hweldable)
    as (w & Hw & (index & Hindex & Hbound) & Hverts).
  rewrite list.Forall_forall in Hverts.
  destruct (mapM_total (λ x3d_v : x3d_vertex, co <$> mesh_vertices me !! x3d_v.1.2)
              (vert_tri_list w)) as (point & Hpoint & Hlp).
  { apply list.Forall_forall. intros x Hx. destruct (Hverts x Hx) as [Hlt _].
    destruct (lookup_lt_is_Some_2 _ _ Hlt) as [v ->]. by eexists. }
  destruct (mapM_total (λ x3d_v : x3d_vertex, normal <$> mesh_vertices me !! x3d_v.1.2)
              (vert_tri_list w)) as (vector & Hvector & Hlv).
  { apply list.Forall_forall. intros x Hx. destruct (Hverts x Hx) as [Hlt _].
    destruct (lookup_lt_is_Some_2 _ _ Hlt) as [v ->]. by eexists. }
  assert (Huv : is_Some uvs →
            ∃ l, mapM (key_slot 0) (vert_tri_list w) = Some l ∧
                 length l = length (vert_tri_list w)).
  { intros Hu. apply mapM_total, list.Forall_forall. intros x Hx.
    destruct (Hverts x Hx) as (_ & i & j & Hk).
    by apply (vertex_key_slots _ _ _ _ _ Hk). }
  assert (Hcol : is_Some cols →
            ∃ l, mapM (key_slot (match uvs with Some _ => 1 | None => 0 end))
                      (vert_tri_list w) = Some l ∧
                 length l = length (vert_tri_list w)).
  { intros Hc. apply mapM_total, list.Forall_forall. intros x Hx.
    destruct (Hverts x Hx) as (_ & i & j & Hk).
    by apply (vertex_key_slots _ _ _ _ _ Hk). }
  exists index, point.
  unfold writeIndexedTriangleSet. cbv [mbind M_bind fw lift when mret M_ret].
  rewrite Hw, Hindex, Hpoint, Hvector. rewrite Hlp.
  destruct use_normals, uvs as [uvl|], cols as [coll|]; cbn.
  all: try (destruct (Huv ltac:(eauto)) as (tex & -> & Hlt)).
  all: try (destruct (Hcol ltac:(eauto)) as (col & -> & Hlc)).
  all: first
    [ exists [Normal_vector vector; TextureCoordinate_point tex; Color_color col];
      split; [reflexivity|]
    | exists [Normal_vector vector; TextureCoordinate_point tex]; split; [reflexivity|]
    | exists [Normal_vector vector; Color_color col]; split; [reflexivity|]
    | exists [TextureCoordinate_point tex; Color_color col]; split; [reflexivity|]
    | exists [Normal_vector vector]; split; [reflexivity|]
    | exists [TextureCoordinate_point tex]; split; [reflexivity|]
    | exists [Color_color col]; split; [reflexivity|]
    | exists []; split; [reflexivity|] ].
  all: split; [done|]; split; [|reflexivity].
  all: repeat constructor; simpl; congruence.
Qed.

Lemma ex_quad_weldable :
  group_weldable ex_quad (uv_textures_active ex_quad) None [0%nat].
Proof.
  intros i ->%list_elem_of_singleton.
  exists [0; 1; 2; 3]%nat. split; [reflexivity|]. split; [by right|].
  intros j v Hv.
  destruct j as [|[|[|[|j]]]]; simpl in Hv; simplify_eq;
    (split; [simpl; lia|eexists; reflexivity]).
Qed.

Lemma writeIndexedTriangleSet_wellformed_witness :
  ∃ index point attrs,
    writeIndexedTriangleSet true ex_quad false (uv_textures_active ex_quad) None
      [0%nat] ∅ =
      (Some (), ∅,
       IndexedTriangleSet_open true None true ::
       IndexedTriangleSet_index index :: Coordinate_point point ::
       attrs ++ [IndexedTriangleSet_close]) ∧
    Forall (λ t, (t.1.1 < length point)%nat ∧ (t.1.2 < length point)%nat ∧
                 (t.2 < length point)%nat) index.
Proof.
  destruct (writeIndexedTriangleSet_wellformed true ex_quad false
              (uv_textures_active ex_quad) None [0%nat] ∅)
    as (index & point & attrs & Hw & Hi & _).
  - apply NoDup_singleton.
  - apply ex_quad_weldable.
  - exists index, point, attrs. split; [exact Hw | exact Hi].
Defined.

(** *** IndexedFaceSet *)

Lemma Forall2_length_concat {A B} (l1 : list (list A)) (l2 : list (list B)) :
  Forall2 (λ a b, length a = length b) l1 l2 → length (concat l1) = length (concat l2).
Proof. induction 1 as [|a b l1 l2 Hab _ IH]; [done|]. simpl. rewrite !length_app. lia. Qed.

Lemma Forall2_impl_elem {A B} (P Q : A → B → Prop) (l : list A) (k : list B) :
  Forall2 P l k → (∀ x y, x ∈ l → P x y → Q x y) → Forall2 Q l k.
Proof.
  induction 1 as [|x y l k Hxy _ IH]; intros HPQ; constructor.
  - apply HPQ; [left|done].
  - apply IH. intros x' y' Hx'. apply HPQ. by right.
Qed.

Lemma texCoordIndex_spec (faces_vertices : list (list nat)) (face_group : list nat) (j : nat) :
  (∀ i, i ∈ face_group →
     ∃ fv, faces_vertices !! i = Some fv ∧ (length fv = 3%nat ∨ length fv = 4%nat)) →
  ∃ tci, texCoordIndex faces_vertices j face_group = Some tci ∧
    Forall2 (λ t i, ∃ fv, faces_vertices !! i = Some fv ∧ length t = length fv)
            tci face_group ∧
    concat tci = seq j (length (concat tci)).
Proof.
  revert j. induction face_group as [|i fg IH]; intros j Hok; cbn [texCoordIndex].
  - exists []. split; [done|]. split; [constructor|done].
  - destruct (Hok i ltac:(left)) as (fv & Hfv & Hlen). rewrite Hfv. csimpl.
    assert (Hok' : ∀ i', i' ∈ fg →
              ∃ fv, faces_vertices !! i' = Some fv ∧
                    (length fv = 3%nat ∨ length fv = 4%nat)).
    { intros i' Hi'. apply Hok. by right. }
    destruct (decide (length fv = 4%nat)) as [H4|H4].
    + destruct (IH (j + 4)%nat Hok') as (tci & -> & Hf & Hc). csimpl.
      eexists. split; [done|]. split.
      * constructor; [|done]. exists fv. split; [done|]. simpl. lia.
      * cbn [concat]. rewrite length_app. cbn [length app]. rewrite Hc at 1.
        cbn [seq Nat.add]. repeat f_equal; lia.
    + destruct (IH (j + 3)%nat Hok') as (tci & -> & Hf & Hc). csimpl.
      eexists. split; [done|]. split.
      * constructor; [|done]. exists fv. split; [done|]. simpl. lia.
      * cbn [concat]. rewrite length_app. cbn [length app]. rewrite Hc at 1.
        cbn [seq Nat.add]. repeat f_equal; lia.
Qed.

Lemma coordIndex_spec (faces_vertices : list (list nat)) (face_group : list nat) :
  (∀ i, i ∈ face_group →
     ∃ fv, faces_vertices !! i = Some fv ∧ (length fv = 3%nat ∨ length fv = 4%nat)) →
  ∃ ci, coordIndex faces_vertices face_group = Some ci ∧
    Forall2 (λ c i, faces_vertices !! i = Some c) ci face_group.
Proof.
  intros Hok. unfold coordIndex.
  match goal with |- context [mapM ?f _] => set (body := f) end.
  assert (Hbody : ∀ i, i ∈ face_group →
            ∃ fv, faces_vertices !! i = Some fv ∧ body i = Some fv).
  { intros i Hi. destruct (Hok i Hi) as (fv & Hfv & Hlen). exists fv. split; [done|].
    unfold body. rewrite Hfv. csimpl.
    destruct (decide (length fv = 3%nat)); [done|].
    destruct (decide (length fv = 4%nat)); [done|lia]. }
  destruct (mapM_total body face_group) as (ci & Hci & _).
  { apply list.Forall_forall. intros i Hi. destruct (Hbody i Hi) as (fv & _ & ->). eauto. }
  exists ci. split; [done|]. apply mapM_Some_1 in Hci. apply Forall2_flip.
  eapply Forall2_impl_elem; [exact Hci|].
  intros i c Hi Hc. destruct (Hbody i Hi) as (fv & Hfv & Hb). congruence.
Qed.

(** [coordIndex] raises for a face that has neither three nor four
    corners: the format strings take exactly that many indices. *)
Lemma coordIndex_raises (faces_vertices : list (list nat)) (face_group : list nat) i fv :
  i ∈ face_group → faces_vertices !! i = Some fv →
  length fv ≠ 3%nat → length fv ≠ 4%nat →
  coordIndex faces_vertices face_group = None.
Proof.
  intros Hi Hfv H3 H4. unfold coordIndex. apply mapM_None, list.Exists_exists.
  exists i. split; [done|]. rewrite Hfv. csimpl.
  rewrite decide_False by done. by rewrite decide_False.
Qed.

(** A textured group is written as an IndexedFaceSet whose [texCoordIndex]
    runs parallel to its [coordIndex]: face by face both have the same
    number of entries, [coordIndex] holds the vertices of the face, and
    [texCoordIndex] numbers the points of the TextureCoordinate node
    consecutively from 0, one point per corner.  A Color node, when
    written, holds one colour per face. *)
Theorem writeIndexedFaceSetGeometry_textured (use_normals : bool) (me : mesh)
    (mesh_name_x3d : string) (is_smooth : bool) (uvl : list uv_face)
    (cols : option (list col_face)) (face_group : list nat)
    (is_coords_written : bool) (tags : gset asset) :
  group_textured me uvl cols face_group →
  ∃ tci ci coords pts colors,
    writeIndexedFaceSetGeometry use_normals me mesh_name_x3d is_smooth (Some uvl) cols
      face_group is_coords_written tags =
      (Some true, tags,
       IndexedFaceSet_open (show_double_sided me)
         (if is_smooth then Some (auto_smooth_angle me) else None) use_normals
         (bool_decide (is_Some cols)) ::
       IndexedFaceSet_texCoordIndex tci :: IndexedFaceSet_coordIndex ci ::
       coords ++ TextureCoordinate_point pts :: colors ++ [IndexedFaceSet_close]) ∧
    Forall2 (λ c i, mesh_faces_vertices me !! i = Some c) ci face_group ∧
    Forall2 (λ t c, length t = length c) tci ci ∧
    concat tci = seq 0 (length pts) ∧
    match cols with
    | Some _ => ∃ l, colors = [Color_color l] ∧ length l = length face_group
    | None => colors = []
    end.
Proof.
  intros Hok.
  assert (Hfaces : ∀ i, i ∈ face_group →
            ∃ fv, mesh_faces_vertices me !! i = Some fv ∧
                  (length fv = 3%nat ∨ length fv = 4%nat)).
  { intros i Hi. destruct (Hok i Hi) as (fv & fuv & ? & ? & _). eauto. }
  destruct (texCoordIndex_spec _ _ 0%nat Hfaces) as (tci & Htci & Ht2 & Hseq).
  destruct (coordIndex_spec _ _ Hfaces) as (ci & Hci & Hc2).
  set (uvbody := λ i : nat, fuv ← uvl !! i; Some (vec2_tuple <$> uv fuv)).
  destruct (mapM_total uvbody face_group) as (point & Hpoint & _).
  { apply list.Forall_forall. intros i Hi.
    destruct (Hok i Hi) as (fv & fuv & _ & _ & Hfuv & _). unfold uvbody.
    rewrite Hfuv. by eexists. }
  assert (Hp2 : Forall2 (λ p i, ∃ fv, mesh_faces_vertices me !! i = Some fv ∧
                                      length p = length fv) point face_group).
  { apply mapM_Some_1 in Hpoint. apply Forall2_flip.
    eapply Forall2_impl_elem; [exact Hpoint|]. intros i p Hi Hp.
    destruct (Hok i Hi) as (fv & fuv & Hfv & _ & Hfuv & Hlen & _).
    unfold uvbody in Hp. rewrite Hfuv in Hp. injection Hp as <-.
    exists fv. split; [done|]. by rewrite length_fmap. }
  assert (Hlen : length (concat tci) = length (concat point)).
  { apply Forall2_length_concat. clear -Ht2 Hp2.
    revert point Hp2. induction Ht2 as [|t i tci fg (fv & Hfv & Ht) _ IH];
      intros point Hp2; inversion Hp2 as [|p i' point' fg' (fv' & Hfv' & Hp) Hp2']; subst;
      constructor; [congruence|by apply IH]. }
  assert (Htc : Forall2 (λ t c, length t = length c) tci ci).
  { clear -Ht2 Hc2. revert ci Hc2.
    induction Ht2 as [|t i tci fg (fv & Hfv & Ht) _ IH];
      intros ci Hc2; inversion Hc2 as [|c i' ci' fg' Hc Hc2']; subst;
      constructor; [congruence|by apply IH]. }
  exists tci, ci.
  exists (if is_coords_written
          then Coordinate_USE ("coord_" +:+ mesh_name_x3d) ::
               (if use_normals then [Normal_USE ("normals_" +:+ mesh_name_x3d)] else [])
          else Coordinate_DEF ("coord_" +:+ mesh_name_x3d) (co <$> mesh_vertices me) ::
               (if use_normals
                then [Normal_DEF ("normals_" +:+ mesh_name_x3d)
                        (normal <$> mesh_vertices me)]
                else [])).
  exists (concat point).
  unfold writeIndexedFaceSetGeometry. fold uvbody.
  destruct cols as [cl|].
  - set (colbody := λ i : nat, fc ← cl !! i; Some (vec3_tuple (color1 fc))).
    destruct (mapM_total colbody face_group) as (color & Hcolor & Hlc).
    { apply list.Forall_forall. intros i Hi.
      destruct (Hok i Hi) as (fv & fuv & _ & _ & _ & _ & Hcl).
      destruct (Hcl cl eq_refl) as [fc Hfc]. unfold colbody. rewrite Hfc. by eexists. }
    cbv [mbind M_bind fw lift when mret M_ret].
    rewrite Htci, Hci, Hpoint, Hcolor. exists [Color_color color].
    split; [by destruct is_coords_written, use_normals|].
    split; [done|]. split; [done|]. split; [by rewrite Hseq, Hlen|]. eauto.
  - cbv [mbind M_bind fw lift when mret M_ret].
    rewrite Htci, Hci, Hpoint. exists [].
    split; [by destruct is_coords_written, use_normals|].
    split; [done|]. split; [done|]. split; [by rewrite Hseq, Hlen|]. done.
Qed.

Lemma ex_quad_textured :
  group_textured ex_quad [ex_uv_face [(0, 0); (1, 0); (1, 1); (0, 1)] None true] None
    [0%nat].
Proof.
  intros i ->%list_elem_of_singleton.
  eexists _, _. split; [reflexivity|]. split; [by right|].
  split; [reflexivity|]. split; [reflexivity|]. intros cl [=].
Qed.

Lemma writeIndexedFaceSetGeometry_textured_witness :
  ∃ tci ci coords pts colors,
    writeIndexedFaceSetGeometry false ex_quad "Quad" false
      (Some [ex_uv_face [(0, 0); (1, 0); (1, 1); (0, 1)] None true]) None
      [0%nat] false ∅ =
      (Some true, ∅,
       IndexedFaceSet_open true None false false ::
       IndexedFaceSet_texCoordIndex tci :: IndexedFaceSet_coordIndex ci ::
       coords ++ TextureCoordinate_point pts :: colors ++ [IndexedFaceSet_close]) ∧
    concat tci = seq 0 (length pts).
Proof.
  destruct (writeIndexedFaceSetGeometry_textured false ex_quad "Quad" false
              [ex_uv_face [(0, 0); (1, 0); (1, 1); (0, 1)] None true] None
              [0%nat] false ∅ ex_quad_textured)
    as (tci & ci & coords & pts & colors & Hw & _ & _ & Hs & _).
  exists tci, ci, coords, pts, colors. split; [exact Hw | exact Hs].
Defined.

(** ** The vertices of a mesh are written once *)

Lemma coord_refs_app o1 o2 : coord_refs (o1 ++ o2) = coord_refs o1 ++ coord_refs o2.
Proof. apply filter_app. Qed.

Lemma coord_refs_norefs {A} (m : M A) tags :
  emits (λ e, is_coord_ref e = false) m → coord_refs (m tags).2 = [].
Proof.
  intros Hm. specialize (Hm tags). unfold coord_refs.
  induction Hm as [|e out He _ IH]; [done|].
  rewrite filter_cons. destruct (decide (is_coord_ref e = true)); [congruence|done].
Qed.

Lemma returns_ret {A} (P : A → Prop) (x : A) : P x → returns P (mret x).
Proof. intros HP tags y [= <-]. done. Qed.

Lemma returns_bind {A B} (P : B → Prop) (m : M A) (f : A → M B) :
  (∀ x, returns P (f x)) → returns P (m ≫= f).
Proof.
  intros Hf tags y. rewrite M_bind_unfold.
  destruct (m tags) as [[[x|] t1] o1]; [|done].
  specialize (Hf x t1 y). destruct (f x t1) as [[r t2] o2]. exact Hf.
Qed.

Ltac norefs_step :=
  first
    [ apply emits_fw; reflexivity
    | apply emits_bind; [|intros ?]
    | apply emits_ret
    | apply emits_lift
    | apply emits_get_tag
    | apply emits_set_tag
    | apply emits_when
    | match goal with
      | |- emits _ (if ?b then _ else _) => destruct b
      | |- emits _ (match ?x with _ => _ end) => destruct x
      end ].

Section coordinates.
Context (sc : scene) `{SetIter} (use_normals : bool).
Context (me : mesh) (mesh_name_x3d : string) (w : option world).

Lemma writeImageTexture_norefs image :
  emits (λ e, is_coord_ref e = false) (writeImageTexture sc image).
Proof. unfold writeImageTexture. repeat norefs_step. Qed.

Lemma writeMaterial_norefs mat material_id :
  emits (λ e, is_coord_ref e = false) (writeMaterial sc mat material_id w).
Proof. unfold writeMaterial. repeat norefs_step. Qed.

Lemma writeTextureTransform_norefs mi image :
  emits (λ e, is_coord_ref e = false) (writeTextureTransform sc me mi image).
Proof. unfold writeTextureTransform. repeat norefs_step. Qed.

Lemma writeIndexedTriangleSet_norefs sm uvs cols fg :
  emits (λ e, is_coord_ref e = false) (writeIndexedTriangleSet use_normals me sm uvs cols fg).
Proof. unfold writeIndexedTriangleSet. repeat norefs_step. Qed.

Lemma bind_norefs_post {A B} (m : M A) (f : A → M B) (P : A → Prop)
    (Q : option B * gset asset * list markup → Prop) tags :
  emits (λ e, is_coord_ref e = false) m → returns P m →
  (∀ t o, coord_refs o = [] → Q (None, t, o)) →
  (∀ x t1 o1, coord_refs o1 = [] →
     ∀ r t2 o2, f x t1 = (r, t2, o2) → Q (r, t2, o2) → Q (r, t2, o1 ++ o2)) →
  (∀ x t1, P x → Q (f x t1)) →
  Q ((m ≫= f) tags).
Proof.
  intros Hm HP Hfail Hpre Hf. rewrite M_bind_unfold.
  pose proof (coord_refs_norefs m tags Hm) as Hrefs. specialize (HP tags).
  destruct (m tags) as [[[x|] t1] o1]; [|by apply Hfail].
  specialize (Hf x t1 (HP x eq_refl)). destruct (f x t1) as [[r t2] o2] eqn:E.
  by eapply Hpre.
Qed.

Lemma returns_any {A} (m : M A) : returns (λ _, True) m.
Proof. by intros tags x _. Qed.

Lemma group_coord_post_fail icw t o :
  coord_refs o = [] → group_coord_post me mesh_name_x3d icw (None, t, o).
Proof. intros Ho. left. split; [done|]. by intros b [=]. Qed.

Lemma group_coord_post_pre icw r t o1 o2 :
  coord_refs o1 = [] → group_coord_post me mesh_name_x3d icw (r, t, o2) →
  group_coord_post me mesh_name_x3d icw (r, t, o1 ++ o2).
Proof.
  intros Ho1 [[Ho2 Hr]|[Ho2 Hr]]; [left|right]; (split; [|done]);
    cbn [snd] in *; by rewrite coord_refs_app, Ho1, Ho2.
Qed.

Ltac group_post_step :=
  apply (bind_norefs_post _ _ (λ _, True));
    [ | apply returns_any
      | intros ? ? ?; by apply group_coord_post_fail
      | intros ? ? ? ? ? ? ? _ ?; by apply group_coord_post_pre
      | intros ? ? _ ].

Lemma writeIndexedFaceSetGeometry_coord sm uvs cols fg icw tags :
  group_coord_post me mesh_name_x3d icw
    (writeIndexedFaceSetGeometry use_normals me mesh_name_x3d sm uvs cols fg icw tags).
Proof.
  unfold writeIndexedFaceSetGeometry.
  group_post_step; [repeat norefs_step|].
  group_post_step; [repeat norefs_step|].
  group_post_step; [repeat norefs_step|].
  group_post_step; [repeat norefs_step|].
  match goal with
  | |- group_coord_post _ _ _ ((_ ≫= ?R) _) =>
      assert (HRn : emits (λ e, is_coord_ref e = false) (R ()))
        by (cbn beta; repeat norefs_step);
      assert (HRr : returns (λ b, b = true) (R ()))
        by (cbn beta; repeat (apply returns_bind; intros ?); by apply returns_ret);
      set (rest := R) in *
  end.
  pose proof (coord_refs_norefs _ t3 HRn) as Hrefs. specialize (HRr t3).
  unfold group_coord_post, coord_node.
  destruct icw, use_normals; cbv [mbind M_bind fw when mret M_ret];
    destruct (rest () t3) as [[r t'] o]; right; (split; [|exact HRr]);
    cbn [snd app] in *; unfold coord_refs in *; rewrite !filter_cons; cbn;
    by rewrite Hrefs.
Qed.

Lemma write_group_coord use_triangulate icw g tags :
  group_coord_post me mesh_name_x3d icw
    (write_group sc use_triangulate use_normals me mesh_name_x3d w icw g tags).
Proof.
  unfold write_group. destruct g as [[mi image] [|i fg]].
  { left. split; [done|]. by intros b [= <-]. }
  group_post_step; [repeat norefs_step|].
  group_post_step; [repeat norefs_step|].
  group_post_step; [repeat norefs_step|].
  group_post_step; [repeat norefs_step|].
  group_post_step;
    [repeat first [apply writeImageTexture_norefs | apply writeTextureTransform_norefs
                  | norefs_step]|].
  group_post_step; [repeat first [apply writeMaterial_norefs | norefs_step]|].
  group_post_step; [repeat norefs_step|].
  destruct use_triangulate.
  - apply (bind_norefs_post _ _ (λ b, b = icw)).
    + apply emits_bind; [apply writeIndexedTriangleSet_norefs|]. intros _. apply emits_ret.
    + apply returns_bind. intros _. by apply returns_ret.
    + intros ? ? ?. by apply group_coord_post_fail.
    + intros ? ? ? ? ? ? ? _ ?. by apply group_coord_post_pre.
    + intros b t ->. left. split; [done|]. by intros b [= <-].
  - rewrite M_bind_unfold.
    match goal with
    | |- context [writeIndexedFaceSetGeometry ?a ?b ?c ?d ?e ?f ?g ?h ?t] =>
        pose proof (writeIndexedFaceSetGeometry_coord d e f g h t) as Hgeo;
        destruct (writeIndexedFaceSetGeometry a b c d e f g h t) as [[[b'|] tg] og]
    end; [|exact Hgeo].
    cbv [mbind M_bind fw mret M_ret]. unfold group_coord_post in *. cbn [fst snd] in *.
    rewrite coord_refs_app. cbn. rewrite app_nil_r. exact Hgeo.
Qed.

Lemma write_group_norefs_tri icw g :
  emits (λ e, is_coord_ref e = false) (write_group sc true use_normals me mesh_name_x3d w icw g).
Proof.
  unfold write_group. destruct g as [[mi image] [|i fg]]; [apply emits_ret|].
  repeat first
    [ apply writeImageTexture_norefs | apply writeTextureTransform_norefs
    | apply writeMaterial_norefs | apply writeIndexedTriangleSet_norefs
    | norefs_step ].
Qed.

Lemma write_groups_norefs_tri icw items :
  emits (λ e, is_coord_ref e = false) (write_groups sc true use_normals me mesh_name_x3d w icw items).
Proof.
  revert icw. induction items as [|g items IH]; intros icw; simpl.
  - apply emits_ret.
  - apply emits_bind; [apply write_group_norefs_tri|]. intros x. apply IH.
Qed.

Lemma write_groups_coord use_triangulate icw items tags :
  let refs := coord_refs
    (write_groups sc use_triangulate use_normals me mesh_name_x3d w icw items tags).2 in
  if icw then ∃ k, refs = replicate k (Coordinate_USE ("coord_" +:+ mesh_name_x3d))
  else refs = [] ∨
       ∃ k, refs = Coordinate_DEF ("coord_" +:+ mesh_name_x3d) (co <$> mesh_vertices me)
                   :: replicate k (Coordinate_USE ("coord_" +:+ mesh_name_x3d)).
Proof.
  revert icw tags. induction items as [|g items IH]; intros icw tags; cbn zeta.
  { destruct icw; [by exists 0%nat|by left]. }
  cbn [write_groups]. rewrite M_bind_unfold.
  pose proof (write_group_coord use_triangulate icw g tags) as Hg.
  unfold group_coord_post in Hg.
  destruct (write_group _ _ _ _ _ _ _ _ _) as [[[b|] t1] o1]; cbn [fst snd] in Hg.
  - specialize (IH b t1). cbn zeta in IH.
    destruct (write_groups _ _ _ _ _ _ _ _ _) as [[r t2] o2]. cbn [snd] in *.
    rewrite coord_refs_app.
    destruct Hg as [[-> Hb]|[-> Hb]]; rewrite (Hb b eq_refl) in IH.
    + exact IH.
    + cbn zeta in IH. destruct IH as [k ->]. unfold coord_node. destruct icw.
      * by exists (S k).
      * right. by exists k.
  - cbn [snd]. destruct Hg as [[-> _]|[-> _]]; unfold coord_node; destruct icw.
    + by exists 0%nat.
    + by left.
    + by exists 1%nat.
    + right. by exists 0%nat.
Qed.
End coordinates.

Lemma refs_bind_l {A B} (m : M A) (f : A → M B) (Q : list markup → Prop) tags :
  emits (λ e, is_coord_ref e = false) m → Q [] →
  (∀ x t, Q (coord_refs (f x t).2)) → Q (coord_refs ((m ≫= f) tags).2).
Proof.
  intros Hm Hnil Hf. rewrite M_bind_unfold.
  pose proof (coord_refs_norefs m tags Hm) as Hrefs.
  destruct (m tags) as [[[x|] t1] o1]; cbn [snd] in *; [|by rewrite Hrefs].
  specialize (Hf x t1). destruct (f x t1) as [[r t2] o2]. cbn [snd] in *.
  by rewrite coord_refs_app, Hrefs.
Qed.

Lemma refs_bind_r {A B} (m : M A) (f : A → M B) (Q : list markup → Prop) tags :
  Q (coord_refs (m tags).2) →
  (∀ x, emits (λ e, is_coord_ref e = false) (f x)) →
  Q (coord_refs ((m ≫= f) tags).2).
Proof.
  intros Hm Hf. rewrite M_bind_unfold.
  destruct (m tags) as [[[x|] t1] o1]; cbn [snd] in *; [|done].
  pose proof (coord_refs_norefs (f x) t1 (Hf x)) as Hrefs.
  destruct (f x t1) as [[r t2] o2]. cbn [snd] in *.
  by rewrite coord_refs_app, Hrefs, app_nil_r.
Qed.

(** The vertices of a mesh are written once: among the Coordinate nodes of
    a mesh object that carry a DEF or USE there is at most one definition,
    it comes first, and all others refer to it by its name.  With
    triangulation there is no such node: every triangle set carries its own
    points. *)
Theorem writeIndexedFaceSet_coordinate_once (sc : scene) `{SetIter}
    (use_triangulate use_normals : bool) (ob : object) (m : mesh_id)
    (mtx : decomposed) (w : option world) (tags : gset asset) :
  let refs :=
    coord_refs (writeIndexedFaceSet sc use_triangulate use_normals ob m mtx w tags).2 in
  def_then_uses refs ∧ (use_triangulate = true → refs = []).
Proof.
  cbn zeta. split.
  - unfold writeIndexedFaceSet.
    assert (Hnil : def_then_uses []) by by left.
    apply refs_bind_l; [repeat norefs_step|done|]. intros shape_name_x3d t1.
    apply refs_bind_l; [repeat norefs_step|done|]. intros mesh_name_x3d t2.
    destruct (faces (mesh_data sc m)) as [|f0 fs]; [done|].
    apply refs_bind_l; [unfold open_wrapper; repeat norefs_step|done|]. intros nodes t3.
    apply refs_bind_l; [repeat norefs_step|done|]. intros _ t4.
    apply refs_bind_l; [repeat norefs_step|done|]. intros tag t5.
    apply refs_bind_r; [|intros _; unfold close_wrapper; repeat norefs_step].
    destruct tag; [done|].
    apply refs_bind_l; [repeat norefs_step|done|]. intros _ t6.
    apply refs_bind_l; [repeat norefs_step|done|]. intros _ t7.
    apply refs_bind_l; [repeat norefs_step|done|]. intros items t8.
    apply refs_bind_r; [|intros _; repeat norefs_step].
    pose proof (write_groups_coord sc use_normals (mesh_data sc m) mesh_name_x3d w
                  use_triangulate false items t8) as Hg.
    cbn zeta in Hg. destruct Hg as [->|[k ->]]; [done|]. right. eauto.
  - intros ->. apply coord_refs_norefs. unfold writeIndexedFaceSet.
    unfold open_wrapper, close_wrapper.
    repeat first [apply write_groups_norefs_tri | norefs_step].
Qed.

(** ** The content of the face groups *)

Lemma bucket_content_enumerate (k : nat * option nat) (keys : list (nat * option nat)) :
  StronglySorted lt (bucket_content k (enumerate keys)) ∧
  ∀ i, i ∈ bucket_content k (enumerate keys) ↔ keys !! i = Some k.
Proof.
  unfold bucket_content, enumerate.
  assert (Hgen : ∀ s,
    StronglySorted lt (filter (λ p : nat * (nat * option nat), p.2 = k)
                         (zip (seq s (length keys)) keys)).*1 ∧
    ∀ i, i ∈ (filter (λ p : nat * (nat * option nat), p.2 = k)
                (zip (seq s (length keys)) keys)).*1 ↔
         (s ≤ i)%nat ∧ keys !! (i - s)%nat = Some k).
  { induction keys as [|k0 keys IH]; intros s.
    { split; [constructor|]. intros i. split; [by intros ?%elem_of_nil|].
      by intros [_ ?]. }
    destruct (IH (S s)) as [IHs IHm]. cbn [length seq zip zip_with].
    assert (Htail : ∀ i, (s ≤ i)%nat ∧ (k0 :: keys) !! (i - s)%nat = Some k ↔
              (i = s ∧ k0 = k) ∨ ((S s ≤ i)%nat ∧ keys !! (i - S s)%nat = Some k)).
    { intros i. destruct (decide (i = s)) as [->|Hne].
      - rewrite Nat.sub_diag. cbn. split.
        + intros [_ [= ->]]. by left.
        + intros [[_ ->]|[? _]]; [done|lia].
      - split.
        + intros [Hle Hk]. right. split; [lia|].
          replace (i - s)%nat with (S (i - S s)) in Hk by lia. done.
        + intros [[? _]|[Hle Hk]]; [done|]. split; [lia|].
          replace (i - s)%nat with (S (i - S s)) by lia. done. }
    rewrite filter_cons. cbn [snd]. destruct (decide (k0 = k)) as [->|Hne].
    - rewrite fmap_cons. cbn [fst]. split.
      + constructor; [done|]. apply list.Forall_forall. intros i Hi.
        apply IHm in Hi as [? _]. lia.
      + intros i. rewrite elem_of_cons, IHm, Htail. naive_solver.
    - split; [done|]. intros i. rewrite IHm, Htail. naive_solver. }
  destruct (Hgen 0%nat) as [Hs Hm]. split; [done|].
  intros i. rewrite Hm, Nat.sub_0_r. split; [by intros [_ ?]|]. intros ?. split; [lia|done].
Qed.

Section group_content.
Context (sc : scene) `{SetIter}.

(** Each group the emission loop writes lists, in ascending order, exactly
    the faces whose material index and image are the key of the group. *)
Theorem emitted_groups_content (me : mesh) l unique groups k face_group :
  mesh_faces_image sc me = Some (l, unique) →
  emitted_groups sc me = Some groups →
  (k, face_group) ∈ groups →
  StronglySorted lt face_group ∧
  ∀ i, i ∈ face_group ↔
       ∃ f, faces me !! i = Some f ∧ l !! i = Some k.2 ∧ material_index f = k.1.
Proof.
  intros Himg Hg Hin. unfold emitted_groups, face_groups_items, face_groups in Hg.
  rewrite Himg in Hg. csimpl in Hg.
  set (items := enumerate (zip (mesh_faces_materials me) l)) in *.
  set (d0 := face_groups_init (length (mesh_materials me)) unique) in *.
  destruct (face_groups_fill d0 items) as [d|] eqn:Hfill; [|done].
  csimpl in Hg. injection Hg as <-.
  apply list_elem_of_filter in Hin as [_ Hin].
  rewrite sort_groups_perm in Hin.
  destruct (face_groups_init_spec (length (mesh_materials me)) unique)
    as (Hnd0 & Hempty & _). fold d0 in Hnd0, Hempty.
  assert (Hnd : NoDup d.*1).
  { destruct (face_groups_fill_spec d0 items) as (d' & Hd' & Hdk & _).
    - intros i k'. apply (face_groups_fill_keys _ _ _ Hfill).
    - assert (d' = d) as -> by congruence. by rewrite Hdk. }
  apply (dict_get_elem _ _ _ Hnd) in Hin.
  rewrite (face_groups_fill_content _ _ _ k Hfill) in Hin.
  destruct (dict_get k d0) as [v|] eqn:Hv; [|done]. csimpl in Hin.
  assert (v = []) as ->.
  { apply (dict_get_elem _ _ _ Hnd0) in Hv. rewrite list.Forall_forall in Hempty.
    by apply (Hempty _ Hv). }
  injection Hin as <-. cbn [app].
  destruct (bucket_content_enumerate k (zip (mesh_faces_materials me) l)) as [Hs Hm].
  split; [exact Hs|]. intros i. fold items in Hm. rewrite Hm.
  destruct k as [mi img]. cbn [fst snd].
  unfold mesh_faces_materials. rewrite lookup_zip_with_Some. split.
  - intros (x & y & [= <- <-] & Hx & Hy).
    apply list_lookup_fmap_Some in Hx as (f & Hf & ->). eauto.
  - intros (f & Hf & Hl & <-). exists (material_index f), img.
    split; [done|]. split; [|done]. by rewrite list_lookup_fmap, Hf.
Qed.
End group_content.

Lemma emitted_groups_content_witness :
  StronglySorted lt [1%nat] ∧
  ∀ i, i ∈ [1%nat] ↔
       ∃ f, faces ex_two !! i = Some f ∧
            [Some 0%nat; Some 1%nat] !! i = Some (Some 1%nat) ∧
            material_index f = 0%nat.
Proof.
  apply (emitted_groups_content ex_scene (H := SetIter_first) ex_two
           [Some 0%nat; Some 1%nat] [Some 0%nat; Some 1%nat]
           [((0, Some 0), [0]); ((0, Some 1), [1])]%nat (0%nat, Some 1%nat) [1%nat]).
  - reflexivity.
  - reflexivity.
  - right. left.
Defined.

(** ** The scene around the meshes *)

Lemma W_bind_unfold {A B} (m : W A) (f : A → W B) st :
  (m ≫= f) st =
    match m st with
    | (Some x, st1, out1) =>
        match f x st1 with (r, st2, out2) => (r, st2, out1 ++ out2) end
    | (None, st1, out1) => (None, st1, out1)
    end.
Proof. reflexivity. Qed.

(** The indentation [writeHeader] hands back is two tabulators deeper than
    the one it was given, which is the indentation [export_main] goes on
    with, and [writeFooter] undoes it: called with what [writeHeader]
    returned it returns the indentation [writeHeader] was called with.
    Neither of them raises or touches the tags and the counter. *)
Theorem writeFooter_writeHeader_ident (bfile version_string ident : string)
    (st : export_state) :
  ∃ header footer,
    writeHeader bfile version_string ident st =
      (Some (ident +:+ tab +:+ tab), st, header) ∧
    writeFooter (ident +:+ tab +:+ tab) st = (Some ident, st, footer) ∧
    footer = [Scene_close; X3D_close] ∧
    (∃ metas, header = [XML_declaration; DOCTYPE; X3D_open; head_open] ++ metas ++
                       [head_close; Scene_open]).
Proof.
  assert (Hd : ∀ s, drop_last (s +:+ tab) = s) by (intros s; apply drop_last_snoc).
  eexists _, _. split; [|split; [|split]].
  - unfold writeHeader. cbv [mbind W_bind w_fw mret W_ret]. cbn [app].
    rewrite Hd. rewrite <- append_assoc. reflexivity.
  - unfold writeFooter. cbv [mbind W_bind w_fw mret W_ret]. cbn [app].
    rewrite <- append_assoc, !Hd. reflexivity.
  - reflexivity.
  - eexists [_; _; _]. reflexivity.
Qed.

Lemma light_intensity_le_1 (la : lamp) : light_intensity la ≤ 1.
Proof.
  unfold light_intensity, py_min. destruct (decide (1 < energy la / f1_75)) as [Hlt|Hge].
  - apply Qcle_refl.
  - by apply Qcnot_lt_le.
Qed.

(** A lamp with a non-empty name is written as one light node: a PointLight
    for type POINT, a SpotLight for type SPOT and a DirectionalLight for
    every other type (SUN, HEMI, AREA); its intensity is
    min(energy / 1.75, 1), so never above 1, its colour is the lamp's colour
    clamped to [0,1] and its ambient intensity is the mean of the world's
    ambient colour divided by 2.5 (0 without a world).  The tags and the
    counter stay as they are. *)
Theorem export_object_lamp (sc : scene) `{SetIter}
    (use_apply_modifiers use_triangulate use_normals : bool) (cos : Qc → Qc)
    (world : option scene_world) (dob : derived_object) (la : lamp) (name : string)
    (st : export_state) :
  dob_data dob = LAMP la →
  clean_str (ob_name (dob_object dob)) "rsvd_" = Some name →
  ∃ e, export_object sc use_apply_modifiers use_triangulate use_normals cos world dob st =
         (Some (), st, [e]) ∧
       light_node e =
         Some (if String.eqb (lamp_type la) "POINT" then "PointLight"
               else if String.eqb (lamp_type la) "SPOT" then "SpotLight"
               else "DirectionalLight",
               name, amb_intensity world, clamp_color (lamp_color la),
               light_intensity la) ∧
       light_intensity la ≤ 1 ∧
       in_unit_range (clamp_color (lamp_color la)).
Proof.
  intros Hdata Hname. unfold export_object. rewrite Hdata.
  unfold writePointLight, writeSpotLight, writeDirectionalLight.
  cbv [mbind W_bind w_lift w_fw]. rewrite Hname.
  destruct (String.eqb (lamp_type la) "POINT"); [|destruct (String.eqb (lamp_type la) "SPOT")];
    (eexists; split; [reflexivity|]; split; [reflexivity|]; split;
     [apply light_intensity_le_1|apply clamp_color_range]).
Qed.

(** A spot light is written with the beam width 0.37 times the lamp's spot
    size and the cut-off angle 1.3 times the beam width; for a spot size
    that is not negative the beam width does not exceed the cut-off angle.
    Its radius is the lamp's distance times the cosine of the beam width. *)
Theorem writeSpotLight_angles (cos : Qc → Qc) (ob : object) (mtx : matrix) (la : lamp)
    (world : option scene_world) (name : string) (st : export_state) :
  clean_str (ob_name ob) "rsvd_" = Some name →
  0 ≤ spot_size la →
  ∃ radius amb i c beamWidth cutOffAngle d l,
    writeSpotLight cos ob mtx la world st =
      (Some (), st, [SpotLight name radius amb i c beamWidth cutOffAngle d l]) ∧
    beamWidth = spot_size la * f0_37 ∧
    cutOffAngle = beamWidth * f1_3 ∧
    beamWidth ≤ cutOffAngle ∧
    radius = distance la * cos beamWidth.
Proof.
  intros Hname Hsize. unfold writeSpotLight. cbv [mbind W_bind w_lift w_fw].
  rewrite Hname. do 8 eexists. split; [reflexivity|].
  split; [done|]. split; [done|]. split; [|done].
  assert (H0 : 0 ≤ spot_size la * f0_37).
  { apply Qcmult_nonneg_nonneg; [done|]. by vm_compute. }
  rewrite <- (Qcmult_1_r (spot_size la * f0_37)) at 1.
  apply Qcmult_le_mono_nonneg_l; [done|]. by vm_compute.
Qed.

Lemma export_object_lamp_witness :
  ∃ e, export_object ex_scene (H := SetIter_first) false false false ex_cos
         (Some ex_scene_world) (ex_lamp_object "HEMI") ex_state =
         (Some (), ex_state, [e]) ∧
       light_node e =
         Some ("DirectionalLight", "Lamp", amb_intensity (Some ex_scene_world),
               clamp_color (lamp_color (ex_lamp "HEMI")),
               light_intensity (ex_lamp "HEMI")).
Proof.
  destruct (export_object_lamp ex_scene (H := SetIter_first) false false false ex_cos
              (Some ex_scene_world) (ex_lamp_object "HEMI") (ex_lamp "HEMI") "Lamp"
              ex_state eq_refl eq_refl) as (e & He & Hl & _).
  exists e. split; [exact He | exact Hl].
Defined.

Lemma writeSpotLight_angles_witness :
  ∃ radius amb i c beamWidth cutOffAngle d l,
    writeSpotLight ex_cos {| ob_name := "Lamp" |} ex_matrix (ex_lamp "SPOT")
      (Some ex_scene_world) ex_state =
      (Some (), ex_state, [SpotLight "Lamp" radius amb i c beamWidth cutOffAngle d l]) ∧
    beamWidth ≤ cutOffAngle.
Proof.
  destruct (writeSpotLight_angles ex_cos {| ob_name := "Lamp" |} ex_matrix
              (ex_lamp "SPOT") (Some ex_scene_world) "Lamp" ex_state eq_refl)
    as (radius & amb & i & c & bw & co & d & l & Hw & _ & _ & Hle & _).
  - by vm_compute.
  - exists radius, amb, i, c, bw, co, d, l. split; [exact Hw | exact Hle].
Defined.

Lemma secureName_total (name : string) (n : nat) :
  ∃ r, secureName name n = (Some r, S n).
Proof.
  unfold secureName.
  set (nm := name +:+ str n).
  set (cleaned := foldl (λ acc bad, replace bad "_" acc) nm secureName_bad).
  destruct (bool_decide_reflect (String.length nm ≤ 3)%nat) as [Hle|Hgt]; [eauto|].
  assert (Hne : cleaned ≠ "").
  { apply foldl_replace_nonempty. destruct nm; [simpl in Hgt; lia|done]. }
  destruct (is_reserved cleaned); [eauto|].
  destruct cleaned as [|c s]; [done|]. destruct (isdigit c); eauto.
Qed.

Lemma average_in_range (a b : Qc) :
  0 ≤ a ∧ a ≤ 1 → 0 ≤ b ∧ b ≤ 1 → 0 ≤ (a + b) / f2 ∧ (a + b) / f2 ≤ 1.
Proof.
  intros [Ha0 Ha1] [Hb0 Hb1]. unfold Qcdiv.
  assert (Hinv : 0 ≤ / f2) by by vm_compute.
  split.
  - apply Qcmult_nonneg_nonneg; [|done].
    rewrite <- (Qcplus_0_l 0). by apply Qcplus_le_compat.
  - assert (H2 : a + b ≤ f2).
    { replace f2 with (1 + 1) by (apply Qc_is_canon; reflexivity).
      by apply Qcplus_le_compat. }
    replace 1 with (f2 * / f2) by (apply Qc_is_canon; reflexivity).
    by apply Qcmult_le_mono_nonneg_r.
Qed.

Lemma mix_triple_average (g s : vec3) :
  in_unit_range g → in_unit_range s →
  mix_triple g s =
    ((g.1.1 + s.1.1) / f2, (g.1.2 + s.1.2) / f2, (g.2 + s.2) / f2).
Proof.
  destruct g as [[g0 g1] g2], s as [[s0 s1] s2]. intros (G0 & G1 & G2) (S0 & S1 & S2).
  unfold mix_triple. apply clamp_color_id. cbn [fst snd].
  repeat split; by apply average_in_range.
Qed.

(** Without a world [writeBackground] writes nothing and leaves the counter
    of [secureName] alone.  With a world it never raises: it writes one
    Background node named by [secureName] and advances the counter by one;
    every ground and sky colour it writes lies in [0,1]; and with sky
    blending alone the second ground and sky colour is the plain average of
    the clamped horizon and zenith colours (clamping it changes nothing). *)
Theorem writeBackground_spec (sc : scene) (data_textures : list (string * texture))
    (world : option scene_world) (st : export_state) :
  match world with
  | None => writeBackground sc data_textures None st = (Some (), st, [])
  | Some w =>
      ∃ DEF ground groundAngle sky skyAngle,
        writeBackground sc data_textures (Some w) st =
          (Some (), {| st_tags := st_tags st; st_nodeID := S (st_nodeID st) |},
           [Background DEF ground groundAngle sky skyAngle
              (data_textures ≫= background_url sc)]) ∧
        (secureName (world_name w) (st_nodeID st)).1 = Some DEF ∧
        Forall in_unit_range ground ∧ Forall in_unit_range sky ∧
        ((use_sky_blend w, use_sky_paper w, use_sky_real w) = (true, false, false) →
         let g := clamp_color (horizon_color w) in
         let s := clamp_color (zenith_color w) in
         let avg := ((g.1.1 + s.1.1) / f2, (g.1.2 + s.1.2) / f2, (g.2 + s.2) / f2) in
         ground = [g; avg] ∧ sky = [s; avg])
  end.
Proof.
  destruct world as [w|]; [|reflexivity].
  unfold writeBackground. cbv [mbind W_bind w_secureName w_fw].
  destruct (secureName_total (world_name w) (st_nodeID st)) as [DEF HDEF].
  rewrite HDEF. cbn [fst].
  pose proof (clamp_color_range (horizon_color w)) as Hg.
  pose proof (clamp_color_range (zenith_color w)) as Hs.
  assert (Hm : in_unit_range (mix_triple (clamp_color (horizon_color w))
                                         (clamp_color (zenith_color w)))).
  { unfold mix_triple.
    destruct (clamp_color (horizon_color w)) as [[? ?] ?].
    destruct (clamp_color (zenith_color w)) as [[? ?] ?]. apply clamp_color_range. }
  destruct (use_sky_blend w), (use_sky_paper w), (use_sky_real w);
    (do 5 eexists; split; [reflexivity|]; split; [reflexivity|];
     split; [by repeat constructor|]; split; [by repeat constructor|]);
    intros [=]. cbn zeta. by rewrite mix_triple_average.
Qed.

(** [writeFog] never raises and changes neither tags nor counter; it writes
    a Fog node exactly when there is a world whose mist is switched on, of
    type LINEAR for the falloff LINEAR and EXPONENTIAL for every other
    falloff, with the horizon colour clamped to [0,1]. *)
Theorem writeFog_spec (world : option scene_world) (st : export_state) :
  ∃ out, writeFog world st = (Some (), st, out) ∧
    match world with
    | Some w =>
        if use_mist w then
          ∃ fogType color,
            out = [Fog fogType color (depth w)] ∧
            (fogType = "LINEAR" ∨ fogType = "EXPONENTIAL") ∧
            (fogType = "LINEAR" ↔ falloff w = "LINEAR") ∧
            color = clamp_color (horizon_color w) ∧ in_unit_range color
        else out = []
    | None => out = []
    end.
Proof.
  unfold writeFog. destruct world as [w|]; [|by eexists].
  destruct (use_mist w); [|by eexists].
  eexists. split; [reflexivity|]. eexists _, _. split; [reflexivity|].
  destruct (String.eqb_spec (falloff w) "LINEAR") as [Heq|Hne].
  - split; [by left|]. split; [done|]. split; [done|apply clamp_color_range].
  - split; [by right|]. split; [split; [discriminate|done]|].
    split; [done|apply clamp_color_range].
Qed.

(** *** The document as a whole *)

Lemma W_bind_Some {A B} (m : W A) (f : A → W B) st x st1 o1 :
  m st = (Some x, st1, o1) →
  (m ≫= f) st = match f x st1 with (r, st2, o2) => (r, st2, o1 ++ o2) end.
Proof. intros Hm. rewrite W_bind_unfold. by rewrite Hm. Qed.

Lemma W_bind_assoc {A B C} (m : W A) (f : A → W B) (g : B → W C) st :
  ((m ≫= f) ≫= g) st = (m ≫= λ x, f x ≫= g) st.
Proof.
  rewrite !W_bind_unfold.
  destruct (m st) as [[[x|] st1] o1]; [|done].
  rewrite W_bind_unfold.
  destruct (f x st1) as [[[y|] st2] o2]; [|done].
  destruct (g y st2) as [[r st3] o3]. by rewrite (assoc_L app).
Qed.

Lemma w_for_each_app {A} (l1 l2 : list A) (body : A → W unit) st :
  w_for_each (l1 ++ l2) body st = (w_for_each l1 body ;; w_for_each l2 body) st.
Proof.
  revert st. induction l1 as [|x l1 IH]; intros st; cbn [app w_for_each].
  - rewrite W_bind_unfold. cbn. by destruct (w_for_each l2 body st) as [[r st2] o2].
  - rewrite W_bind_assoc. rewrite !(W_bind_unfold (body x)).
    destruct (body x st) as [[[[]|] st1] o1]; [|done]. by rewrite IH.
Qed.

Lemma w_for_each_bind {A B} (l : list A) (g : A → list B) (body : B → W unit) st :
  w_for_each l (λ x, w_for_each (g x) body) st = w_for_each (l ≫= g) body st.
Proof.
  revert st. induction l as [|x l IH]; intros st; [done|].
  cbn [w_for_each]. change ((x :: l) ≫= g) with (g x ++ (l ≫= g)).
  rewrite w_for_each_app, !W_bind_unfold.
  destruct (w_for_each (g x) body st) as [[[[]|] st1] o1]; [|done]. by rewrite IH.
Qed.

Section scene_document.
Context (sc : scene) `{SetIter}.
Context (use_apply_modifiers use_selection use_triangulate use_normals : bool).
Context (bfile version_string : string).
Context (data_textures : list (string * texture)).
Context (cos : Qc → Qc).
Context (world : option scene_world).

Lemma export_object_markup dob st :
  Forall (λ e, is_object_markup e = true)
    (export_object sc use_apply_modifiers use_triangulate use_normals cos world dob st).2.
Proof.
  unfold export_object.
  assert (Hmesh : ∀ me,
    Forall (λ e, is_object_markup e = true)
      (match me with
       | Some me =>
           w_mesh (writeIndexedFaceSet sc use_triangulate use_normals (dob_object dob) me
                     (mtx_decompose (dob_matrix dob)) (sw_world <$> world))
       | None => mret ()
       end st).2).
  { intros [me|]; [|constructor]. unfold w_mesh.
    destruct (writeIndexedFaceSet _ _ _ _ _ _ _ _) as [[r t] out]. cbn [snd].
    apply list.Forall_forall. by intros e (e' & -> & _)%list_elem_of_fmap. }
  assert (Hlift : ∀ (o : option string) (k : string → scene_markup),
    (∀ n, is_object_markup (k n) = true) →
    Forall (λ e, is_object_markup e = true) ((w_lift o ≫= λ n, w_fw (k n)) st).2).
  { intros [n|] k Hk; cbv [mbind W_bind w_lift w_fw]; cbn; by repeat constructor. }
  destruct (dob_data dob) as [angle|data modified to_mesh|to_mesh|to_mesh|to_mesh|la|];
    try apply Hmesh.
  - by apply Hlift.
  - unfold writePointLight, writeSpotLight, writeDirectionalLight.
    destruct (String.eqb _ _); [by apply Hlift|].
    destruct (String.eqb _ _); by apply Hlift.
  - constructor.
Qed.

Lemma export_objects_markup dobs st :
  Forall (λ e, is_object_markup e = true)
    (w_for_each dobs
       (export_object sc use_apply_modifiers use_triangulate use_normals cos world) st).2.
Proof.
  revert st. induction dobs as [|dob dobs IH]; intros st; cbn [w_for_each];
    [constructor|].
  rewrite W_bind_unfold. pose proof (export_object_markup dob st) as Hd.
  destruct (export_object _ _ _ _ _ _ _ _) as [[[[]|] st1] o1]; [|done].
  specialize (IH st1). destruct (w_for_each _ _ _) as [[r st2] o2].
  cbn [snd] in *. by apply Forall_app.
Qed.

Lemma export_scene_body objects st :
  w_for_each (exported_objects use_selection objects)
    (λ ob_main : main_object,
       match derived ob_main with
       | Some derived =>
           w_for_each derived
             (export_object sc use_apply_modifiers use_triangulate use_normals cos world)
       | None => mret ()
       end) st =
  w_for_each (exported_derived use_selection objects)
    (export_object sc use_apply_modifiers use_triangulate use_normals cos world) st.
Proof.
  unfold exported_derived. rewrite <- w_for_each_bind.
  generalize (exported_objects use_selection objects). intros l. revert st.
  induction l as [|o l IH]; intros st; [done|]. cbn [w_for_each].
  rewrite !W_bind_unfold. destruct (derived o) as [ds|]; cbn [from_option id].
  - destruct (w_for_each ds _ st) as [[[[]|] st1] o1]; [|done]. by rewrite IH.
  - cbn. by rewrite IH.
Qed.

(** The run of [export_main], cut into its parts. *)
Lemma export_scene_main_unfold objects :
  ∃ environment st1,
    Forall (λ e, is_environment_markup e = true) environment ∧
    st_tags st1 = ∅ ∧
    export_scene_main sc use_apply_modifiers use_selection use_triangulate use_normals
      bfile version_string data_textures cos world objects =
    match w_for_each (exported_derived use_selection objects)
            (export_object sc use_apply_modifiers use_triangulate use_normals cos world)
            st1 with
    | (r, st2, body) =>
        (r, st2,
         [XML_declaration; DOCTYPE; X3D_open; head_open; meta "filename" bfile;
          meta "generator" ("Blender " +:+ version_string);
          meta "translator" "X3D exporter v1.55 (2006/01/17)";
          head_close; Scene_open; NavigationInfo] ++
         environment ++ body ++
         match r with Some _ => [Scene_close; X3D_close] | None => [] end)
    end.
Proof.
  unfold export_scene_main, export_scene.
  set (st0 := {| st_tags := ∅; st_nodeID := 0 |}).
  pose proof (writeBackground_spec sc data_textures world st0) as Hbg.
  destruct (writeFog_spec world
              (match world with
               | Some _ => {| st_tags := ∅; st_nodeID := 1 |}
               | None => st0
               end)) as (fog & Hfog & Hfogs).
  assert (Hfe : Forall (λ e, is_environment_markup e = true) fog).
  { destruct world as [wd|]; [|by subst].
    destruct (use_mist wd); [|by subst].
    destruct Hfogs as (ty & c & -> & _). by repeat constructor. }
  assert (Hrun : ∃ bg st1,
    Forall (λ e, is_environment_markup e = true) bg ∧ st_tags st1 = ∅ ∧
    writeBackground sc data_textures world st0 = (Some (), st1, bg) ∧
    writeFog world st1 = (Some (), st1, fog)).
  { destruct world as [wd|].
    - destruct Hbg as (DEF & g & ga & s & sa & Hw & _). eexists _, _.
      split; [|split; [|split; [exact Hw|exact Hfog]]]; [by repeat constructor|done].
    - eexists _, _. split; [|split; [|split; [exact Hbg|exact Hfog]]]; [constructor|done]. }
  destruct Hrun as (bg & st1 & Hbe & Htags & Hbgrun & Hfogrun).
  exists (bg ++ fog), st1. split; [by apply Forall_app|]. split; [done|].
  rewrite (W_bind_Some _ _ st0 (tab +:+ tab) st0
             [XML_declaration; DOCTYPE; X3D_open; head_open; meta "filename" bfile;
              meta "generator" ("Blender " +:+ version_string);
              meta "translator" "X3D exporter v1.55 (2006/01/17)";
              head_close; Scene_open]) by reflexivity.
  rewrite (W_bind_Some _ _ st0 () st0 [NavigationInfo]) by reflexivity.
  rewrite (W_bind_Some _ _ st0 () st1 bg Hbgrun).
  rewrite (W_bind_Some _ _ st1 () st1 fog Hfogrun).
  rewrite W_bind_unfold, export_scene_body.
  destruct (w_for_each _ _ st1) as [[[[]|] st2] body].
  - cbv [writeFooter mbind W_bind w_fw mret W_ret]. cbn [app].
    by rewrite <- !(assoc_L app).
  - by rewrite app_nil_r, <- !(assoc_L app).
Qed.

(** The output of [export_main] is the header (with the three meta
    elements), the NavigationInfo, the Background and Fog nodes as far as
    they are written, and then only elements of objects: viewpoints, lights
    and mesh elements.  The closing tags of Scene and X3D are written, last,
    exactly when the export returns normally: when a writer raises, the
    output ends inside the Scene. *)
Theorem export_scene_document objects :
  let '(r, st, out) :=
    export_scene_main sc use_apply_modifiers use_selection use_triangulate use_normals
      bfile version_string data_textures cos world objects in
  ∃ environment body,
    out = [XML_declaration; DOCTYPE; X3D_open; head_open; meta "filename" bfile;
           meta "generator" ("Blender " +:+ version_string);
           meta "translator" "X3D exporter v1.55 (2006/01/17)";
           head_close; Scene_open; NavigationInfo] ++
          environment ++ body ++ match r with Some _ => [Scene_close; X3D_close] | None => [] end ∧
    Forall (λ e, is_environment_markup e = true) environment ∧
    Forall (λ e, is_object_markup e = true) body.
Proof.
  destruct (export_scene_main_unfold objects) as (env & st1 & Henv & _ & ->).
  pose proof (export_objects_markup (exported_derived use_selection objects) st1) as Hb.
  destruct (w_for_each _ _ st1) as [[r st2] body]. cbn [snd] in Hb.
  by exists env, body.
Qed.

Lemma omap_mesh_of_fmap (out : list markup) : omap mesh_of (Mesh_markup <$> out) = out.
Proof. induction out as [|e out IH]; [done|]. cbn. by rewrite IH. Qed.

Lemma omap_mesh_of_not_mesh (P : scene_markup → bool) (out : list scene_markup) :
  (∀ e, P e = true → mesh_of e = None) → Forall (λ e, P e = true) out →
  omap mesh_of out = [].
Proof.
  intros HP. induction 1 as [|e out He _ IH]; [done|]. cbn. by rewrite (HP e He).
Qed.

Lemma export_object_mesh dob st :
  match mesh_call use_apply_modifiers dob with
  | Some (ob, me, mtx) =>
      export_object sc use_apply_modifiers use_triangulate use_normals cos world dob st =
      w_mesh (writeIndexedFaceSet sc use_triangulate use_normals ob me mtx
                (sw_world <$> world)) st
  | None =>
      ∃ r out,
        export_object sc use_apply_modifiers use_triangulate use_normals cos world dob st =
          (r, st, out) ∧ omap mesh_of out = []
  end.
Proof.
  unfold mesh_call, export_object.
  assert (Hlift : ∀ (o : option string) (k : string → scene_markup),
    (∀ n, mesh_of (k n) = None) →
    ∃ r out, (w_lift o ≫= λ n, w_fw (k n)) st = (r, st, out) ∧ omap mesh_of out = []).
  { intros [n|] k Hk; cbv [mbind W_bind w_lift w_fw]; cbn; eexists _, _;
      (split; [reflexivity|]); cbn; [by rewrite Hk|done]. }
  destruct (dob_data dob) as [angle|data modified to_mesh|to_mesh|to_mesh|to_mesh|la|].
  - by apply Hlift.
  - destruct (use_apply_modifiers && modified); [|done].
    destruct to_mesh; [done|]. by eexists _, _.
  - destruct to_mesh; [done|]. by eexists _, _.
  - destruct to_mesh; [done|]. by eexists _, _.
  - destruct to_mesh; [done|]. by eexists _, _.
  - unfold writePointLight, writeSpotLight, writeDirectionalLight.
    destruct (String.eqb _ _); [by apply Hlift|].
    destruct (String.eqb _ _); by apply Hlift.
  - by eexists _, _.
Qed.

Lemma export_derived_mesh dobs st :
  let '(r, st', out) :=
    w_for_each dobs
      (export_object sc use_apply_modifiers use_triangulate use_normals cos world) st in
  let '(r', tags', out') :=
    export_objects sc use_triangulate use_normals
      (omap (mesh_call use_apply_modifiers) dobs) (sw_world <$> world) (st_tags st) in
  omap mesh_of out `prefix_of` out' ∧
  (is_Some r → omap mesh_of out = out' ∧ st_tags st' = tags').
Proof.
  revert st. induction dobs as [|dob dobs IH]; intros st.
  { cbn. split; [done|]. by intros _. }
  cbn [w_for_each]. rewrite W_bind_unfold.
  pose proof (export_object_mesh dob st) as Hd.
  change (omap (mesh_call use_apply_modifiers) (dob :: dobs)) with
    (match mesh_call use_apply_modifiers dob with
     | Some c => c :: omap (mesh_call use_apply_modifiers) dobs
     | None => omap (mesh_call use_apply_modifiers) dobs
     end).
  destruct (mesh_call use_apply_modifiers dob) as [[[ob me] mtx]|].
  - rewrite Hd. unfold w_mesh, export_objects. cbn [for_each].
    rewrite M_bind_unfold.
    destruct (writeIndexedFaceSet _ _ _ _ _ _ _ _) as [[[[]|] t1] o1].
    + specialize (IH {| st_tags := t1; st_nodeID := st_nodeID st |}).
      destruct (w_for_each _ _ _) as [[r st2] o2]. cbn [st_tags] in IH.
      unfold export_objects in IH.
      destruct (for_each _ _ t1) as [[r' t'] o'].
      destruct IH as [IHp IHe]. rewrite omap_app, omap_mesh_of_fmap. split.
      * by apply prefix_app.
      * intros Hr. destruct (IHe Hr) as [-> ->]. done.
    + rewrite omap_mesh_of_fmap. split; [done|]. by intros [? ?].
  - destruct Hd as (r1 & o1 & -> & Ho1). destruct r1 as [[]|].
    + specialize (IH st). destruct (w_for_each _ _ _) as [[r st2] o2].
      destruct (export_objects _ _ _ _ _ _) as [[r' t'] o'].
      by rewrite omap_app, Ho1.
    + destruct (export_objects _ _ _ _ _ _) as [[r' t'] o']. rewrite Ho1.
      split; [apply prefix_nil|]. by intros [? ?].
Qed.

(** The mesh elements in the output of [export_main] are those the mesh
    writer writes when it is run, from cleared tags, over the mesh, curve,
    surface and text objects that [export_main] goes through: all of them
    when the export returns normally, and the first of them when it raises.
    After a normal return the tags are the same, too. *)
Theorem export_scene_mesh_elements objects :
  let '(r, st, out) :=
    export_scene_main sc use_apply_modifiers use_selection use_triangulate use_normals
      bfile version_string data_textures cos world objects in
  let '(r', tags', out') :=
    export_main sc use_triangulate use_normals
      (mesh_calls use_apply_modifiers use_selection objects) (sw_world <$> world) in
  omap mesh_of out `prefix_of` out' ∧
  (is_Some r → omap mesh_of out = out' ∧ st_tags st = tags').
Proof.
  destruct (export_scene_main_unfold objects) as (env & st1 & Henv & Htags & ->).
  pose proof (export_derived_mesh (exported_derived use_selection objects) st1) as Hb.
  unfold export_main, mesh_calls. rewrite Htags in Hb.
  destruct (w_for_each _ _ st1) as [[r st2] body].
  destruct (export_objects _ _ _ _ _ _) as [[r' t'] o'].
  assert (Hout : omap mesh_of
            ([XML_declaration; DOCTYPE; X3D_open; head_open; meta "filename" bfile;
              meta "generator" ("Blender " +:+ version_string);
              meta "translator" "X3D exporter v1.55 (2006/01/17)";
              head_close; Scene_open; NavigationInfo] ++
             env ++ body ++ match r with Some _ => [Scene_close; X3D_close] | None => [] end) =
            omap mesh_of body).
  { rewrite !omap_app.
    rewrite (omap_mesh_of_not_mesh is_environment_markup env); [|by intros []|done].
    destruct r; cbn; by rewrite app_nil_r. }
  by rewrite Hout.
Qed.
End scene_document.

(** *** When [writeMaterial] raises *)

(** [writeMaterial] raises in one case only: the material is not tagged yet
    and its specular intensity is -0.001, which makes the specular colour a
    division by zero, also for a shadeless material, whose specular colour
    is not used.  It has then tagged the material and written nothing.  In
    every case the material is tagged afterwards. *)
Theorem writeMaterial_raises (sc : scene) (mat : mat_id) (material_id : string)
    (w : option world) (tags : gset asset) :
  let '(r, tags', out) := writeMaterial sc mat material_id w tags in
  (r = None ↔
   ((AMaterial mat ∉ tags) ∧
    specular_intensity (material_data sc mat) + f0_001 = 0)) ∧
  (r = None → tags' = {[AMaterial mat]} ∪ tags ∧ out = []) ∧
  AMaterial mat ∈ tags'.
Proof.
  destruct (decide (AMaterial mat ∈ tags)) as [Hin|Hnin].
  { rewrite writeMaterial_tagged by done. split; [|split; [done|done]].
    split; [done|]. by intros [? _]. }
  rewrite writeMaterial_untagged by done. unfold material_values.
  destruct (decide (specular_intensity (material_data sc mat) + f0_001 = 0)) as [Hz|Hnz].
  - rewrite (specColor_None _ Hz). csimpl.
    split; [split; [by intros _|done]|]. split; [done|].
    apply elem_of_union_l, elem_of_singleton. reflexivity.
  - rewrite (specColor_Some _ Hnz). csimpl.
    assert (Hin : AMaterial mat ∈ ({[AMaterial mat]} ∪ tags : gset asset)).
    { apply elem_of_union_l, elem_of_singleton. reflexivity. }
    destruct (use_shadeless (material_data sc mat)); cbn.
    + split; [split; [done|by intros [_ ?]]|]. by split.
    + split; [split; [done|by intros [_ ?]]|]. by split.
Qed.
